(** * ImageProcessor: the job orchestration of the background-removal editor

    A shallow embedding of the [ImageProcessor] React component
    (upload, single and bulk processing with retries, deletion) and of the
    worker script, followed by the properties of the orchestration that the
    specification states about it.

    Asynchronous functions are embedded as terms of a small free monad
    [prog]: synchronous statements are state transformers on [World], every
    [await] is a suspension point [Await] that the environment later settles.
    [try]/[catch]/[finally] are combinators on [prog].  Two executors give the
    programs their meaning: [eval] drives one handler against a deterministic
    environment, [bulk_exec] drives the promises of a [Promise.all] wave under
    an arbitrary interleaving of settlements. *)

From Stdlib Require Import ZArith QArith Qround Qpower Lqa Lia.
From Equations Require Import Equations.
From stdpp Require Import base option list strings relations.

#[local] Open Scope Z_scope.
#[local] Open Scope nat_scope.

(** ** Data model *)

(** Object URLs.  Every URL the component stores is minted by
    [URL.createObjectURL], which returns a fresh [blob:] URL; other strings
    are kept for completeness of [cleanup]'s prefix test. *)
Inductive Url : Type :=
| BlobUrl (n : nat)
| PlainUrl (s : string).

#[global] Instance Url_eq_dec : EqDecision Url.
Proof. solve_decision. Defined.

(** [status: 'pending' | 'processing' | 'completed' | 'failed'] *)
Inductive Status : Type := pending | processing | completed | failed.

#[global] Instance Status_eq_dec : EqDecision Status.
Proof. solve_decision. Defined.

(** [interface ProcessedImage] *)
Record ProcessedImage : Type := mkImage {
  original : Url;
  preview : Url;
  processed : option Url;
  name : string;
  status : Status;
  retries : nat
}.

(** A browser [File], reduced to what the component reads. *)
Record File : Type := mkFile {
  file_name : string;
  file_type : string;
  file_size : Z
}.

(** A thrown JavaScript value: [error.name] and [error.message]. *)
Record JsError : Type := mkError {
  err_name : string;
  err_message : string
}.

(** [const SETTINGS] *)
Module SETTINGS.
Module upload.
Definition maxSize : Z := 10 * 1024 * 1024.
Definition maxWidth : Z := 1920.
Definition maxHeight : Z := 1080.
Definition quality : Q := 8 # 10.
Definition types : list string := ["image/jpeg"; "image/png"; "image/webp"]%string.
End upload.
Module processing.
Definition model : string := "u2net".
Definition format : string := "image/png".
Definition quality : Q := 9 # 10.
Definition maxRetries : nat := 3.
Definition retryDelay : Z := 1000.
Definition batchSize : nat := 2.
End processing.
End SETTINGS.

(** The toasts the component raises. *)
Inductive Toast : Type :=
| toast_invalid_files
| toast_upload_successful (uploaded : nat)
| toast_upload_failed
| toast_success
| toast_processing_failed
| toast_bulk_complete (done total : nat)
| toast_bulk_failed
| toast_image_deleted.

(** The three places that call [setProgress]: the transform's progress
    callback, the batch counter, and the resets to 0. *)
Inductive ProgressSite : Type := site_transform | site_batch | site_reset.

#[global] Instance ProgressSite_eq_dec : EqDecision ProgressSite.
Proof. solve_decision. Defined.

(** ** Numbers

    A JavaScript number is an IEEE 754 binary64 value.  The finite ones are
    modelled by their exact rational value, and every arithmetic operation
    of the source is the exact operation followed by [binary64], the
    rounding to the nearest double, ties to even: 53 significant bits, the
    unit in the last place never below [2^-1074].  Overflow to [Infinity]
    (beyond [2^1024]) and [NaN] are outside the model. *)

Definition pow2 (e : Z) : Q := (2 ^ e)%Q.

(** The nearest integer, ties to the even one. *)
Definition round_half_even (q : Q) : Z :=
  let f := Qfloor q in
  match (q - inject_Z f ?= 1 # 2)%Q with
  | Lt => f
  | Gt => (f + 1)%Z
  | Eq => if Z.even f then f else (f + 1)%Z
  end.

(** The binary exponent of a positive [x]: [2^(ilog2 x) <= x < 2^(ilog2 x + 1)]. *)
Definition ilog2 (x : Q) : Z :=
  let k := (Z.log2 (Qnum x) - Z.log2 (Zpos (Qden x)))%Z in
  if Qle_bool (pow2 k) x then k else (k - 1)%Z.

(** The exponent of the unit in the last place of the doubles around a
    positive [x]. *)
Definition ulp_exponent (x : Q) : Z := Z.max (ilog2 x - 52) (-1074).

(** The double nearest to a positive [x]. *)
Definition nearest (x : Q) : Q :=
  (inject_Z (round_half_even (x / pow2 (ulp_exponent x))) * pow2 (ulp_exponent x))%Q.

Definition binary64 (x : Q) : Q :=
  match (x ?= 0)%Q with
  | Eq => 0%Q
  | Gt => nearest x
  | Lt => (- nearest (- x))%Q
  end.

(** [Math.round] of a double: the nearest integer, halves up. *)
Definition Math_round (x : Q) : Z := Qfloor (x + (1 # 2))%Q.

(** ** Component state *)

(** External calls the component awaits.  [fetch] takes an optional
    [init.signal] (the id of an [AbortController]); the options of
    [removeBackground] are exactly the fields the component passes (its
    [progress] callback is kept by the suspension point, see [Await]). *)
Inductive call : Type :=
| Fetch (u : Url) (signal : option nat)
| ResponseBlob (response : nat)
| RemoveBackground (blob : nat) (model : string) (format : string) (quality : Q)
| SetTimeout (ms : Z)
| ImageCompression (file : File) (maxSizeMB : Q) (maxWidthOrHeight : Z)
    (useWebWorker : bool) (fileType : string).

(** What the worker script posts back. *)
Inductive WorkerMessage : Type :=
| msg_progress (p : Q)
| msg_complete (result : Url)
| msg_error (message : string).

(** The hooks of the component ([useState], [useRef]), the browser state it
    touches, and the history of what it reported. *)
Record World : Type := mkWorld {
  images : list ProcessedImage;
  currentImageIndex : nat;
  isProcessing : bool;
  isBulkProcessing : bool;
  progress : Z;
  (** [abortController.current]: the id of the controller it refers to *)
  abortController : option nat;
  (** the [AbortController] objects created so far: [signal.aborted] by id *)
  controllers : list bool;
  (** the [let processed] counter of the running [handleBulkProcess] *)
  processed_local : nat;
  (** next fresh object URL of [URL.createObjectURL] *)
  next_url : nat;
  (** URLs passed to [URL.revokeObjectURL], oldest first *)
  revoked : list Url;
  toasts : list Toast;
  console : list JsError;
  (** every [setProgress] call: its site and argument, oldest first *)
  progress_log : list (ProgressSite * Z);
  (** every external call awaited so far, oldest first *)
  calls : list call;
  (** messages the worker script sent with [self.postMessage], oldest first *)
  posted : list WorkerMessage
}.

Definition with_images (f : list ProcessedImage -> list ProcessedImage) (w : World) : World :=
  mkWorld (f (images w)) (currentImageIndex w) (isProcessing w) (isBulkProcessing w)
    (progress w) (abortController w) (controllers w) (processed_local w) (next_url w)
    (revoked w) (toasts w) (console w) (progress_log w) (calls w) (posted w).

Definition with_currentImageIndex (i : nat) (w : World) : World :=
  mkWorld (images w) i (isProcessing w) (isBulkProcessing w)
    (progress w) (abortController w) (controllers w) (processed_local w) (next_url w)
    (revoked w) (toasts w) (console w) (progress_log w) (calls w) (posted w).

Definition with_isProcessing (b : bool) (w : World) : World :=
  mkWorld (images w) (currentImageIndex w) b (isBulkProcessing w)
    (progress w) (abortController w) (controllers w) (processed_local w) (next_url w)
    (revoked w) (toasts w) (console w) (progress_log w) (calls w) (posted w).

Definition with_isBulkProcessing (b : bool) (w : World) : World :=
  mkWorld (images w) (currentImageIndex w) (isProcessing w) b
    (progress w) (abortController w) (controllers w) (processed_local w) (next_url w)
    (revoked w) (toasts w) (console w) (progress_log w) (calls w) (posted w).

Definition with_progress (site : ProgressSite) (v : Z) (w : World) : World :=
  mkWorld (images w) (currentImageIndex w) (isProcessing w) (isBulkProcessing w)
    v (abortController w) (controllers w) (processed_local w) (next_url w)
    (revoked w) (toasts w) (console w) (progress_log w ++ [(site, v)]) (calls w) (posted w).

Definition with_controller (c : option nat) (cs : list bool) (w : World) : World :=
  mkWorld (images w) (currentImageIndex w) (isProcessing w) (isBulkProcessing w)
    (progress w) c cs (processed_local w) (next_url w)
    (revoked w) (toasts w) (console w) (progress_log w) (calls w) (posted w).

Definition with_processed_local (n : nat) (w : World) : World :=
  mkWorld (images w) (currentImageIndex w) (isProcessing w) (isBulkProcessing w)
    (progress w) (abortController w) (controllers w) n (next_url w)
    (revoked w) (toasts w) (console w) (progress_log w) (calls w) (posted w).

Definition with_next_url (n : nat) (w : World) : World :=
  mkWorld (images w) (currentImageIndex w) (isProcessing w) (isBulkProcessing w)
    (progress w) (abortController w) (controllers w) (processed_local w) n
    (revoked w) (toasts w) (console w) (progress_log w) (calls w) (posted w).

Definition with_revoked (u : Url) (w : World) : World :=
  mkWorld (images w) (currentImageIndex w) (isProcessing w) (isBulkProcessing w)
    (progress w) (abortController w) (controllers w) (processed_local w) (next_url w)
    (revoked w ++ [u]) (toasts w) (console w) (progress_log w) (calls w) (posted w).

Definition with_toast (t : Toast) (w : World) : World :=
  mkWorld (images w) (currentImageIndex w) (isProcessing w) (isBulkProcessing w)
    (progress w) (abortController w) (controllers w) (processed_local w) (next_url w)
    (revoked w) (toasts w ++ [t]) (console w) (progress_log w) (calls w) (posted w).

Definition with_console (e : JsError) (w : World) : World :=
  mkWorld (images w) (currentImageIndex w) (isProcessing w) (isBulkProcessing w)
    (progress w) (abortController w) (controllers w) (processed_local w) (next_url w)
    (revoked w) (toasts w) (console w ++ [e]) (progress_log w) (calls w) (posted w).

Definition with_posted (m : WorkerMessage) (w : World) : World :=
  mkWorld (images w) (currentImageIndex w) (isProcessing w) (isBulkProcessing w)
    (progress w) (abortController w) (controllers w) (processed_local w) (next_url w)
    (revoked w) (toasts w) (console w) (progress_log w) (calls w) (posted w ++ [m]).

Definition with_call (c : call) (w : World) : World :=
  mkWorld (images w) (currentImageIndex w) (isProcessing w) (isBulkProcessing w)
    (progress w) (abortController w) (controllers w) (processed_local w) (next_url w)
    (revoked w) (toasts w) (console w) (progress_log w) (calls w ++ [c]) (posted w).

(** The component as first mounted. *)
Definition initial_world : World :=
  mkWorld [] 0 false false 0%Z None [] 0 0 [] [] [] [] [] [].

(** ** Asynchronous programs *)

(** What a settled promise delivers: the resolved value (an opaque handle:
    a response, a blob, image bytes, a compressed file) or the rejection.
    A rejection carries an error object, a value with a [name] and a
    [message]; a rejection with [null] or [undefined], on which the reads
    [error.name] and [error.message] of the [catch] blocks throw a
    [TypeError], is not among the outcomes. *)
Inductive outcome : Type :=
| Resolved (v : nat)
| Rejected (e : JsError).

Inductive prog (A : Type) : Type :=
| Ret (a : A)
| Throw (e : JsError)
| Do (f : World -> World) (k : prog A)
| Read (k : World -> prog A)
| Await (c : call) (cb : Q -> World -> World) (k : outcome -> prog A).

Arguments Ret {A} a.
Arguments Throw {A} e.
Arguments Do {A} f k.
Arguments Read {A} k.
Arguments Await {A} c cb k.

Fixpoint bind {A B : Type} (p : prog A) (f : A -> prog B) : prog B :=
  match p with
  | Ret a => f a
  | Throw e => Throw e
  | Do g k => Do g (bind k f)
  | Read k => Read (fun w => bind (k w) f)
  | Await c cb k => Await c cb (fun o => bind (k o) f)
  end.

#[global] Instance prog_ret : MRet prog := @Ret.
#[global] Instance prog_bind : MBind prog := fun A B f p => bind p f.

(** [try { p } catch (error) { h error }] *)
Fixpoint try_catch {A : Type} (p : prog A) (h : JsError -> prog A) : prog A :=
  match p with
  | Ret a => Ret a
  | Throw e => h e
  | Do g k => Do g (try_catch k h)
  | Read k => Read (fun w => try_catch (k w) h)
  | Await c cb k => Await c cb (fun o => try_catch (k o) h)
  end.

(** [try { p } finally { fin }], for a [fin] that neither awaits nor throws. *)
Fixpoint try_finally {A : Type} (p : prog A) (fin : World -> World) : prog A :=
  match p with
  | Ret a => Do fin (Ret a)
  | Throw e => Do fin (Throw e)
  | Do g k => Do g (try_finally k fin)
  | Read k => Read (fun w => try_finally (k w) fin)
  | Await c cb k => Await c cb (fun o => try_finally (k o) fin)
  end.

(** [await c]: the resolved value, or the rejection rethrown.  [cb] is the
    callback the call may invoke while it is in flight. *)
Definition await_with (c : call) (cb : Q -> World -> World) : prog nat :=
  Await c cb (fun o => match o with Resolved v => Ret v | Rejected e => Throw e end).

Definition no_callback : Q -> World -> World := fun _ w => w.

Definition await (c : call) : prog nat := await_with c no_callback.

(** A synchronous statement. *)
Definition exec (f : World -> World) : prog unit := Do f (Ret tt).

(** ** Browser primitives *)

(** [URL.createObjectURL(...)] *)
Definition createObjectURL : prog Url :=
  Read (fun w => Do (with_next_url (S (next_url w))) (Ret (BlobUrl (next_url w)))).

Definition startsWith_blob (u : Url) : bool :=
  match u with BlobUrl _ => true | PlainUrl s => String.prefix "blob:" s end.

(** [cleanup(url)]: revoke a [blob:] URL; [null] and other URLs are left. *)
Definition cleanup (url : option Url) (w : World) : World :=
  match url with
  | Some u => if startsWith_blob u then with_revoked u w else w
  | None => w
  end.

(** [if (abortController.current) abortController.current.abort()] *)
Definition abort_current (w : World) : World :=
  match abortController w with
  | Some c => with_controller (Some c) (<[c := true]> (controllers w)) w
  | None => w
  end.

(** [abortController.current = new AbortController()] *)
Definition new_controller (w : World) : World :=
  with_controller (Some (length (controllers w))) (controllers w ++ [false]) w.

(** [setProgress(v)], tagged with its call site. *)
Definition setProgress (site : ProgressSite) (v : Z) : World -> World := with_progress site v.

(** [setImages(prev => f prev)]: the update is applied at once.  The effect
    of the component depends on [images]: after a commit that has changed
    the list React runs the cleanup of that effect, closed over the previous
    list.  That cleanup is [unmount_cleanup] below; when it runs is React's
    business and is not part of the handlers modelled here, so [revoked] and
    [controllers] hold what the statements of the handlers themselves have
    done. *)
Definition setImages (f : list ProcessedImage -> list ProcessedImage) : World -> World :=
  with_images f.

(** ** processImage *)

Definition max_retries_exceeded : JsError := mkError "Error" "Max retries exceeded".

(** The [progress] callback handed to [removeBackground]:
    [(p) => setProgress(Math.round(p * 100))], where the number [p] the
    library passes is the double nearest to the fraction it reports. *)
Definition on_transform_progress (p : Q) : World -> World :=
  setProgress site_transform (Math_round (binary64 (binary64 p * 100))).

(** The body of the [try] block of [processImage]. *)
Definition processImage_try (imageUrl : Url) : prog Url :=
  exec abort_current ;;
  exec new_controller ;;
  response ← await (Fetch imageUrl None) ;
  imageBlob ← await (ResponseBlob response) ;
  result ← await_with (RemoveBackground imageBlob SETTINGS.processing.model
                          SETTINGS.processing.format SETTINGS.processing.quality)
                       on_transform_progress ;
  createObjectURL.

Definition is_AbortError (error : JsError) : bool :=
  String.eqb (err_name error) "AbortError".

Definition backoff (retryCount : nat) : Z :=
  (SETTINGS.processing.retryDelay * 2 ^ Z.of_nat retryCount)%Z.

Equations? processImage (imageUrl : Url) (retryCount : nat) : prog Url
  by wf (SETTINGS.processing.maxRetries - retryCount) lt :=
processImage imageUrl retryCount with le_lt_dec SETTINGS.processing.maxRetries retryCount := {
  | left _ => Throw max_retries_exceeded
  | right _ =>
      try_catch (processImage_try imageUrl)
        (fun error =>
           if is_AbortError error then Ret imageUrl
           else
             exec (with_console error) ;;
             if retryCount <? SETTINGS.processing.maxRetries
             then await (SetTimeout (backoff retryCount)) ;;
                  processImage imageUrl (retryCount + 1)
             else Throw error) }.
Proof. lia. Qed.

(** ** Executing programs *)

(** A promise: settled with a value or an exception, or suspended in an
    external call [c] with the callback [cb] and the rest of the function. *)
Inductive result (A : Type) : Type :=
| Returned (a : A)
| Thrown (e : JsError).

Arguments Returned {A} a.
Arguments Thrown {A} e.

Inductive task (A : Type) : Type :=
| Finished (r : result A)
| Suspended (c : call) (cb : Q -> World -> World) (k : outcome -> prog A).

Arguments Finished {A} r.
Arguments Suspended {A} c cb k.

(** Run the synchronous statements of [p] up to its next [await]. *)
Fixpoint advance {A : Type} (p : prog A) (w : World) : World * task A :=
  match p with
  | Ret a => (w, Finished (Returned a))
  | Throw e => (w, Finished (Thrown e))
  | Do f k => advance k (f w)
  | Read k => advance (k w) w
  | Await c cb k => (with_call c w, Suspended c cb k)
  end.

Definition call_signal (c : call) : option nat :=
  match c with
  | Fetch _ signal => signal
  | _ => None
  end.

Definition abort_error : JsError := mkError "AbortError" "The operation was aborted.".

(** A call is interrupted when an [AbortSignal] was attached to it and its
    controller has been aborted. *)
Definition interrupted (w : World) (c : call) : bool :=
  match call_signal c with
  | Some s => default false (controllers w !! s)
  | None => false
  end.

(** What the awaiting function observes when the environment settles [c]
    with [o]: an interrupted call rejects with an [AbortError], a timer
    always fires. *)
Definition observe (w : World) (c : call) (o : outcome) : outcome :=
  if interrupted w c then Rejected abort_error
  else match c with
       | SetTimeout _ => Resolved 0
       | _ => o
       end.

(** The environment settles the call of a suspended function. *)
Definition settle {A : Type} (w : World) (c : call) (k : outcome -> prog A) (o : outcome)
  : World * task A :=
  advance (k (observe w c o)) w.

Definition is_transform (c : call) : bool :=
  match c with RemoveBackground _ _ _ _ => true | _ => false end.

Definition is_timer (c : call) : bool :=
  match c with SetTimeout _ => true | _ => false end.

(** A transform in flight reports progress [p]. *)
Definition report (w : World) (c : call) (cb : Q -> World -> World) (p : Q) : World :=
  if is_transform c then cb p w else w.

(** A deterministic environment: how a call settles and which progress
    fractions it reports before that, given the calls issued before it. *)
Record Env : Type := mkEnv {
  respond : list call -> call -> outcome;
  reports : list call -> list Q
}.

(** The state once the call [c] has been issued and has made its progress
    reports. *)
Definition reported (env : Env) (c : call) (cb : Q -> World -> World) (w : World) : World :=
  foldl (fun w p => report w c cb p) (with_call c w) (reports env (calls w)).

(** Drive one asynchronous function to completion, every suspension being
    answered by the environment.  The recursion is on the program: an
    asynchronous function of the component always settles. *)
Fixpoint eval {A : Type} (env : Env) (p : prog A) (w : World) : World * result A :=
  match p with
  | Ret a => (w, Returned a)
  | Throw e => (w, Thrown e)
  | Do f k => eval env k (f w)
  | Read k => eval env (k w) w
  | Await c cb k =>
      let w1 := reported env c cb w in
      eval env (k (observe w1 c (respond env (calls w) c))) w1
  end.

(** ** handleSingleProcess *)

(** [prev.map((img, idx) => idx === i ? f img : img)] *)
Definition map_at (i : nat) (f : ProcessedImage -> ProcessedImage)
  : list ProcessedImage -> list ProcessedImage :=
  imap (fun idx img => if Nat.eqb idx i then f img else img).

Definition set_status (s : Status) (img : ProcessedImage) : ProcessedImage :=
  mkImage (original img) (preview img) (processed img) (name img) s (retries img).

(** [{ ...img, processed: processedUrl, status: 'completed' }] *)
Definition set_completed (processedUrl : Url) (img : ProcessedImage) : ProcessedImage :=
  mkImage (original img) (preview img) (Some processedUrl) (name img) completed (retries img).

(** The updater that records a result: [cleanup(img.processed)] runs inside
    it, on the image found at [i] in the latest state. *)
Definition record_completed (i : nat) (processedUrl : Url) (w : World) : World :=
  let w1 := match images w !! i with
            | Some img => cleanup (processed img) w
            | None => w
            end in
  setImages (map_at i (set_completed processedUrl)) w1.

Definition record_failed (i : nat) : World -> World :=
  setImages (map_at i (set_status failed)).

(** [handleSingleProcess], closed over the [images], [currentImageIndex] and
    [isProcessing] of the render that created it. *)
Definition handleSingleProcess (images_ : list ProcessedImage) (currentImageIndex_ : nat)
    (isProcessing_ : bool) : prog unit :=
  match images_ !! currentImageIndex_ with
  | None => Ret tt
  | Some current =>
      if isProcessing_ then Ret tt
      else
        exec (with_isProcessing true) ;;
        exec (setProgress site_reset 0%Z) ;;
        try_finally
          (try_catch
             (processedUrl ← processImage (original current) 0 ;
              exec (record_completed currentImageIndex_ processedUrl) ;;
              exec (with_toast toast_success))
             (fun error =>
                exec (with_console error) ;;
                exec (record_failed currentImageIndex_) ;;
                exec (with_toast toast_processing_failed)))
          (fun w => setProgress site_reset 0%Z (with_isProcessing false w))
  end.

(** ** A program logic for synchronous steps

    [steps_in R p]: every state change [p] can make, in a synchronous
    statement or in a callback, relates the state before to the state
    after by [R]. *)
Inductive steps_in (R : World -> World -> Prop) {A : Type} : prog A -> Prop :=
| steps_ret (a : A) : steps_in R (Ret a)
| steps_throw (e : JsError) : steps_in R (Throw e)
| steps_do (f : World -> World) (k : prog A) :
    (forall w, R w (f w)) -> steps_in R k -> steps_in R (Do f k)
| steps_read (k : World -> prog A) :
    (forall w, steps_in R (k w)) -> steps_in R (Read k)
| steps_await (c : call) (cb : Q -> World -> World) (k : outcome -> prog A) :
    (forall p w, R w (cb p w)) -> (forall o, steps_in R (k o)) -> steps_in R (Await c cb k).

(** A suspended function keeps making [R]-steps when it is resumed. *)
Definition task_steps_in (R : World -> World -> Prop) {A : Type} (t : task A) : Prop :=
  match t with
  | Finished _ => True
  | Suspended c cb k => (forall p w, R w (cb p w)) /\ (forall o, steps_in R (k o))
  end.

(** ** Traces of a processing episode *)

(** The delays of the timers in a trace of calls. *)
Definition delays (l : list call) : list Z :=
  omap (fun c => match c with SetTimeout ms => Some ms | _ => None end) l.

Definition is_fetch (c : call) : bool :=
  match c with Fetch _ _ => true | _ => false end.

(** The number of transform calls in a trace. *)
Definition transform_calls (l : list call) : nat := length (filter is_transform l).

Definition transform_call (imageBlob : nat) : call :=
  RemoveBackground imageBlob SETTINGS.processing.model
    SETTINGS.processing.format SETTINGS.processing.quality.

(** One pass through the [try] block of [processImage] against [env],
    after the calls [h]: the calls it makes and how the transform ends. *)
Inductive attempt (env : Env) (h : list call) (imageUrl : Url)
  : list call -> result nat -> Prop :=
| attempt_fetch_rejected (e : JsError) :
    respond env h (Fetch imageUrl None) = Rejected e ->
    attempt env h imageUrl [Fetch imageUrl None] (Thrown e)
| attempt_blob_rejected (response : nat) (e : JsError) :
    respond env h (Fetch imageUrl None) = Resolved response ->
    respond env (h ++ [Fetch imageUrl None]) (ResponseBlob response) = Rejected e ->
    attempt env h imageUrl [Fetch imageUrl None; ResponseBlob response] (Thrown e)
| attempt_transform_settled (response imageBlob : nat) (o : outcome) :
    respond env h (Fetch imageUrl None) = Resolved response ->
    respond env (h ++ [Fetch imageUrl None]) (ResponseBlob response) = Resolved imageBlob ->
    respond env (h ++ [Fetch imageUrl None; ResponseBlob response]) (transform_call imageBlob) = o ->
    attempt env h imageUrl
      [Fetch imageUrl None; ResponseBlob response; transform_call imageBlob]
      (match o with Resolved v => Returned v | Rejected e => Thrown e end).

(** How an episode of [processImage] ends. *)
Inductive episode_end : Type :=
| ended_transformed      (* the transform's output was returned *)
| ended_aborted          (* an [AbortError] was caught: the input URL was returned *)
| ended_exhausted.       (* 'Max retries exceeded' was thrown *)

(** The calls of [processImage imageUrl retryCount] against [env], after
    the calls [h]. *)
Inductive episode (env : Env) (imageUrl : Url)
  : nat -> list call -> list call -> episode_end -> Prop :=
| episode_exhausted (retryCount : nat) (h : list call) :
    SETTINGS.processing.maxRetries <= retryCount ->
    episode env imageUrl retryCount h [] ended_exhausted
| episode_transformed (retryCount : nat) (h a : list call) (v : nat) :
    retryCount < SETTINGS.processing.maxRetries ->
    attempt env h imageUrl a (Returned v) ->
    episode env imageUrl retryCount h a ended_transformed
| episode_aborted (retryCount : nat) (h a : list call) (e : JsError) :
    retryCount < SETTINGS.processing.maxRetries ->
    attempt env h imageUrl a (Thrown e) ->
    is_AbortError e = true ->
    episode env imageUrl retryCount h a ended_aborted
| episode_retried (retryCount : nat) (h a l : list call) (e : JsError) (r : episode_end) :
    retryCount < SETTINGS.processing.maxRetries ->
    attempt env h imageUrl a (Thrown e) ->
    is_AbortError e = false ->
    episode env imageUrl (S retryCount) (h ++ a ++ [SetTimeout (backoff retryCount)]) l r ->
    episode env imageUrl retryCount h (a ++ SetTimeout (backoff retryCount) :: l) r.

(** What [processImage imageUrl] settles with at each end, when the next
    fresh object URL is [fresh]. *)
Definition episode_result (imageUrl : Url) (fresh : nat) (r : episode_end) : result Url :=
  match r with
  | ended_transformed => Returned (BlobUrl fresh)
  | ended_aborted => Returned imageUrl
  | ended_exhausted => Thrown max_retries_exceeded
  end.

(** What [processImage] leaves untouched: the worklist, the flags, the
    batch counter, the toasts, the revocations, the fraction the batch
    reported; it appends only transform reports to the progress log. *)
Definition batch_reports (w : World) : list Z :=
  omap (fun sv => match sv with (site_batch, v) => Some v | _ => None end) (progress_log w).

Record process_frame (w w' : World) : Prop := mkProcessFrame {
  frame_images : images w' = images w;
  frame_currentImageIndex : currentImageIndex w' = currentImageIndex w;
  frame_isProcessing : isProcessing w' = isProcessing w;
  frame_isBulkProcessing : isBulkProcessing w' = isBulkProcessing w;
  frame_processed_local : processed_local w' = processed_local w;
  frame_revoked : revoked w' = revoked w;
  frame_toasts : toasts w' = toasts w;
  frame_batch_reports : batch_reports w' = batch_reports w
}.

(** ** handleBulkProcess *)

(** [arr.findIndex(f)]: the first position satisfying [f]; [None] is -1. *)
Fixpoint findIndex {A : Type} (f : A -> bool) (l : list A) : option nat :=
  match l with
  | [] => None
  | x :: l' => if f x then Some 0 else S <$> findIndex f l'
  end.

(** [x => x.original === img.original] *)
Definition same_original (img x : ProcessedImage) : bool :=
  bool_decide (original x = original img).

(** [arr.slice(i, j)] for [i <= j] *)
Definition slice {A : Type} (i j : nat) (l : list A) : list A := take (j - i) (drop i l).

(** [Math.round((processed / pending.length) * 100)]: the quotient and the
    product are rounded to the nearest double, each in turn;
    [pending.length] is positive wherever it is used. *)
Definition percent (processed_ pending_length : nat) : Z :=
  Math_round
    (binary64 (binary64 (Z.of_nat processed_ # Pos.of_nat pending_length) * 100)).

(** The asynchronous callback of [batch.map] for the image [img]. *)
Definition bulk_item (images_ : list ProcessedImage) (pending_length : nat)
    (img : ProcessedImage) : prog unit :=
  match findIndex (same_original img) images_ with
  | None => Ret tt
  | Some index =>
      try_catch
        (exec (setImages (map_at index (set_status processing))) ;;
         processedUrl ← processImage (original img) 0 ;
         exec (record_completed index processedUrl) ;;
         exec (fun w => with_processed_local (S (processed_local w)) w) ;;
         exec (fun w => setProgress site_batch (percent (processed_local w) pending_length) w))
        (fun error =>
           exec (with_console error) ;;
           exec (record_failed index))
  end.

(** The batches of the [for] loop from index [i] on:
    [pending.slice(i, i + batchSize)] for [i], [i + batchSize], ... *)
Equations? for_batches (pending_ : list ProcessedImage) (i : nat) : list (list ProcessedImage)
  by wf (length pending_ - i) lt :=
for_batches pending_ i with lt_dec i (length pending_) := {
  | left _ => slice i (i + SETTINGS.processing.batchSize) pending_
              :: for_batches pending_ (i + SETTINGS.processing.batchSize)
  | right _ => [] }.
Proof. unfold SETTINGS.processing.batchSize. lia. Qed.

(** What the environment does to one promise of the wave: it settles its
    call, or the transform in flight reports progress. *)
Inductive event : Type :=
| Settle (o : outcome)
| Progress (p : Q).

(** A running [handleBulkProcess]: the state, the batch of the current loop
    iteration with the promises [Promise.all] waits for, the batches of the
    iterations to come, and whether the [finally] block has run. *)
Record BulkRun : Type := mkBulk {
  world : World;
  batch : list ProcessedImage;
  wave : list (task unit);
  later : list (list ProcessedImage);
  settled : bool
}.

(** Start the asynchronous functions [ps] one after the other: each runs to
    its first [await]. *)
Fixpoint spawn {A : Type} (ps : list (prog A)) (w : World) : World * list (task A) :=
  match ps with
  | [] => (w, [])
  | p :: ps' =>
      let '(w1, t) := advance p w in
      let '(w2, ts) := spawn ps' w1 in
      (w2, t :: ts)
  end.

Definition is_returned {A : Type} (t : task A) : bool :=
  match t with Finished (Returned _) => true | _ => false end.

(** The rejection [Promise.all] settles with, if a promise has rejected. *)
Fixpoint first_thrown {A : Type} (ts : list (task A)) : option JsError :=
  match ts with
  | [] => None
  | Finished (Thrown e) :: _ => Some e
  | _ :: ts' => first_thrown ts'
  end.

(** The [finally] block of [handleBulkProcess]. *)
Definition bulk_finally (w : World) : World :=
  setProgress site_reset 0%Z (with_isBulkProcessing false w).

(** Resume [handleBulkProcess] after a promise of the wave has settled:
    a rejection goes to [catch]; when all have returned the loop goes on
    with the next batch, or ends with the summary toast. *)
Fixpoint bulk_loop (images_ : list ProcessedImage) (pending_length : nat)
    (batches : list (list ProcessedImage)) (w : World)
    (batch_ : list ProcessedImage) (wave_ : list (task unit)) : BulkRun :=
  match first_thrown wave_ with
  | Some error =>
      mkBulk (bulk_finally (with_toast toast_bulk_failed (with_console error w)))
        batch_ wave_ batches true
  | None =>
      if forallb is_returned wave_ then
        match batches with
        | [] =>
            mkBulk (bulk_finally
                      (with_toast (toast_bulk_complete (processed_local w) pending_length) w))
              batch_ wave_ [] true
        | b :: batches' =>
            let '(w', wave') := spawn (map (bulk_item images_ pending_length) b) w in
            bulk_loop images_ pending_length batches' w' b wave'
        end
      else mkBulk w batch_ wave_ batches false
  end.

(** [handleBulkProcess], closed over the [images] and [isBulkProcessing] of
    the render that created it, up to its first suspension. *)
Definition handleBulkProcess (images_ : list ProcessedImage) (isBulkProcessing_ : bool)
    (w : World) : BulkRun :=
  if isBulkProcessing_ then mkBulk w [] [] [] true
  else
    let pending_ := filter (fun img => processed img = None) images_ in
    if length pending_ =? 0 then mkBulk w [] [] [] true
    else
      bulk_loop images_ (length pending_) (for_batches pending_ 0)
        (with_processed_local 0 (with_isBulkProcessing true w)) [] [].

(** The environment acts on the [i]-th promise of the wave. *)
Definition bulk_step (images_ : list ProcessedImage) (pending_length : nat)
    (r : BulkRun) (i : nat) (ev : event) : option BulkRun :=
  match wave r !! i with
  | Some (Suspended c cb k) =>
      match ev with
      | Progress p =>
          if is_transform c
          then Some (mkBulk (cb p (world r)) (batch r) (wave r) (later r) (settled r))
          else None
      | Settle o =>
          let '(w', t') := settle (world r) c k o in
          let wave' := <[i := t']> (wave r) in
          if settled r then Some (mkBulk w' (batch r) wave' (later r) true)
          else Some (bulk_loop images_ pending_length (later r) w' (batch r) wave')
      end
  | _ => None
  end.

(** A schedule: which promise the environment acts on, and how.  Entries
    that do not apply (no such promise, already settled, progress outside a
    transform) are skipped. *)
Definition bulk_exec (images_ : list ProcessedImage) (pending_length : nat)
    (schedule : list (nat * event)) (r : BulkRun) : BulkRun :=
  foldl (fun r '(i, ev) => default r (bulk_step images_ pending_length r i ev)) r schedule.

(** The whole batch run over the rendered state [w] under a schedule. *)
Definition bulk_run (w : World) (schedule : list (nat * event)) : BulkRun :=
  let pending_ := filter (fun img => processed img = None) (images w) in
  bulk_exec (images w) (length pending_) schedule
    (handleBulkProcess (images w) (isBulkProcessing w) w).

(** The calls an episode [processImage imageUrl] makes when it is started
    in the state [w] against [env]. *)
Definition episode_calls (env : Env) (imageUrl : Url) (w : World) : list call :=
  drop (length (calls w)) (calls (eval env (processImage imageUrl 0) w).1).

(** ** Environments of the scenarios *)

(** The source image can always be fetched and read. *)
Definition source_readable (env : Env) : Prop :=
  (forall h u s, exists response, respond env h (Fetch u s) = Resolved response)
  /\ (forall h response, exists imageBlob,
        respond env h (ResponseBlob response) = Resolved imageBlob).

(** The transform collaborator always fails with a retryable error. *)
Definition transform_always_fails (env : Env) : Prop :=
  forall h imageBlob, exists e,
    respond env h (transform_call imageBlob) = Rejected e /\ is_AbortError e = false.

(** The transform collaborator fails with a retryable error on its first
    two calls after the calls [h0], and succeeds on the third. *)
Definition transform_fails_twice_then_succeeds (env : Env) (h0 : list call) : Prop :=
  (forall h imageBlob, transform_calls h < 2 ->
     exists e, respond env (h0 ++ h) (transform_call imageBlob) = Rejected e
               /\ is_AbortError e = false)
  /\ (forall h imageBlob, transform_calls h = 2 ->
        exists v, respond env (h0 ++ h) (transform_call imageBlob) = Resolved v).

(** What [handleSingleProcess] records for the image at [i] at each end of
    the episode. *)
Definition single_outcome (i : nat) (img : ProcessedImage) (fresh : nat) (r : episode_end)
  : list ProcessedImage -> list ProcessedImage :=
  match r with
  | ended_transformed => map_at i (set_completed (BlobUrl fresh))
  | ended_aborted => map_at i (set_completed (original img))
  | ended_exhausted => map_at i (set_status failed)
  end.

(** *** Concrete scenarios *)

(** A worklist of [n] freshly uploaded images: image [k] has the object
    URLs [2k] (compressed original) and [2k + 1] (preview). *)
Definition uploaded_image (k : nat) : ProcessedImage :=
  mkImage (BlobUrl (2 * k)) (BlobUrl (2 * k + 1)) None "image.png" pending 0.

Definition uploaded_world (n : nat) : World :=
  with_next_url (2 * n) (with_images (fun _ => map uploaded_image (seq 0 n)) initial_world).

Definition transform_error : JsError := mkError "Error" "inference failed".

(** The transform always fails; everything else resolves. *)
Definition failing_env : Env :=
  mkEnv (fun _ c => if is_transform c then Rejected transform_error else Resolved 7)
        (fun _ => []).

(** The transform fails on its first two calls and then succeeds. *)
Definition flaky_env : Env :=
  mkEnv (fun h c => if is_transform c
                    then if transform_calls h <? 2 then Rejected transform_error
                         else Resolved 9
                    else Resolved 7)
        (fun _ => []).

(** The transform is rejected with an [AbortError]. *)
Definition aborting_env : Env :=
  mkEnv (fun _ c => if is_transform c then Rejected abort_error else Resolved 7)
        (fun _ => []).

(** ** handleImageUpload *)

(** [SETTINGS.upload.types.includes(file.type) && file.size <= SETTINGS.upload.maxSize] *)
Definition valid_file (file : File) : bool :=
  bool_decide (file_type file ∈ SETTINGS.upload.types)
  && (file_size file <=? SETTINGS.upload.maxSize)%Z.

(** The asynchronous callback of [validFiles.map] for [file]. *)
Definition upload_item (file : File) : prog ProcessedImage :=
  preview_ ← createObjectURL ;
  try_catch
    (compressedFile ← await (ImageCompression file
                               (inject_Z SETTINGS.upload.maxSize / inject_Z (1024 * 1024))%Q
                               (Z.max SETTINGS.upload.maxWidth SETTINGS.upload.maxHeight)
                               true (file_type file)) ;
     original_ ← createObjectURL ;
     Ret (mkImage original_ preview_ None (file_name file) pending 0))
    (fun error =>
       exec (cleanup (Some preview_)) ;;
       Throw error).

(** A running [handleImageUpload]: the state, the promises [Promise.all]
    waits for, and whether the handler has finished. *)
Record UploadRun : Type := mkUpload {
  upload_world : World;
  upload_wave : list (task ProcessedImage);
  upload_settled : bool
}.

(** The values of the promises, when all have returned. *)
Fixpoint returned_values {A : Type} (ts : list (task A)) : option (list A) :=
  match ts with
  | [] => Some []
  | Finished (Returned a) :: ts' => cons a <$> returned_values ts'
  | _ => None
  end.

(** Resume [handleImageUpload] after a promise has settled: a rejection
    goes to the outer [catch]; when all have returned the new images are
    appended and counted. *)
Definition upload_join (w : World) (wave_ : list (task ProcessedImage)) : UploadRun :=
  match first_thrown wave_ with
  | Some error =>
      mkUpload (with_toast toast_upload_failed (with_console error w)) wave_ true
  | None =>
      match returned_values wave_ with
      | Some newImages =>
          mkUpload (with_toast (toast_upload_successful (length newImages))
                      (setImages (fun prev => prev ++ newImages) w))
            wave_ true
      | None => mkUpload w wave_ false
      end
  end.

(** [handleImageUpload(files)], up to its first suspension. *)
Definition handleImageUpload (files : list File) (w : World) : UploadRun :=
  let validFiles := filter (fun file => valid_file file = true) files in
  if length validFiles =? 0 then mkUpload (with_toast toast_invalid_files w) [] true
  else
    let '(w', wave_) := spawn (map upload_item validFiles) w in
    upload_join w' wave_.

(** The environment settles the call of the [i]-th promise. *)
Definition upload_step (r : UploadRun) (i : nat) (o : outcome) : option UploadRun :=
  match upload_wave r !! i with
  | Some (Suspended c cb k) =>
      let '(w', t') := settle (upload_world r) c k o in
      let wave' := <[i := t']> (upload_wave r) in
      if upload_settled r then Some (mkUpload w' wave' true)
      else Some (upload_join w' wave')
  | _ => None
  end.

Definition upload_exec (schedule : list (nat * outcome)) (r : UploadRun) : UploadRun :=
  foldl (fun r '(i, o) => default r (upload_step r i o)) r schedule.

(** ** handleDelete *)

(** [handleDelete], closed over the [images] and [currentImageIndex] of the
    render that created it. *)
Definition handleDelete (images_ : list ProcessedImage) (currentImageIndex_ : nat)
    (w : World) : World :=
  match images_ !! currentImageIndex_ with
  | None => w
  | Some current =>
      let newImages := delete currentImageIndex_ (images w) in
      let w1 := setImages (fun _ => newImages) w in
      let w2 := if length newImages <=? currentImageIndex_
                then with_currentImageIndex (Nat.max 0 (length newImages - 1)) w1
                else w1 in
      with_toast toast_image_deleted
        (cleanup (processed current) (cleanup (Some (preview current))
           (cleanup (Some (original current)) w2)))
  end.

(** ** The worker script *)

(** [self.onmessage] of [process.worker.ts], for a message carrying
    [imageData] and the options [model], [format], [quality]. *)
Definition worker_onmessage (imageData : Url) (model format : string) (quality : Q)
  : prog unit :=
  try_catch
    (response ← await (Fetch imageData None) ;
     imageBlob ← await (ResponseBlob response) ;
     result ← await_with (RemoveBackground imageBlob model format quality)
                (fun p => with_posted (msg_progress p)) ;
     url ← createObjectURL ;
     exec (with_posted (msg_complete url)))
    (fun error => exec (with_posted (msg_error (err_message error)))).

(** ** Predicates on programs *)

(** [calls_in P p]: the synchronous statements and callbacks of [p] leave
    the log of calls alone, and every call [p] awaits satisfies [P]. *)
Inductive calls_in (P : call -> Prop) {A : Type} : prog A -> Prop :=
| calls_ret (a : A) : calls_in P (Ret a)
| calls_throw (e : JsError) : calls_in P (Throw e)
| calls_do (f : World -> World) (k : prog A) :
    (forall w, calls (f w) = calls w) -> calls_in P k -> calls_in P (Do f k)
| calls_read (k : World -> prog A) :
    (forall w, calls_in P (k w)) -> calls_in P (Read k)
| calls_await (c : call) (cb : Q -> World -> World) (k : outcome -> prog A) :
    P c -> (forall p w, calls (cb p w) = calls w) -> (forall o, calls_in P (k o)) ->
    calls_in P (Await c cb k).

(** A call no abort can interrupt: no signal is attached to it. *)
Definition uninterruptible (c : call) : Prop :=
  call_signal c = None /\ forall w, interrupted w c = false.

(** ** Invariants of the worklist *)

(** What the code maintains between a Job's status and its result: a
    [completed] Job has a result, a [pending] Job has none. *)
Definition image_ok (img : ProcessedImage) : Prop :=
  (status img = completed -> processed img <> None)
  /\ (status img = pending -> processed img = None).

Definition images_ok (w : World) : Prop := Forall image_ok (images w).

(** Invariant I2 of the specification, as stated. *)
Definition result_iff_completed (img : ProcessedImage) : Prop :=
  processed img <> None <-> status img = completed.

(** A step that keeps a property of the worklist. *)
Definition keeps (J : list ProcessedImage -> Prop) (w w' : World) : Prop :=
  J (images w) -> J (images w').

(** [returns P p]: whatever [p] returns satisfies [P]. *)
Inductive returns {A : Type} (P : A -> Prop) : prog A -> Prop :=
| returns_ret (a : A) : P a -> returns P (Ret a)
| returns_throw (e : JsError) : returns P (Throw e)
| returns_do (f : World -> World) (k : prog A) : returns P k -> returns P (Do f k)
| returns_read (k : World -> prog A) : (forall w, returns P (k w)) -> returns P (Read k)
| returns_await (c : call) (cb : Q -> World -> World) (k : outcome -> prog A) :
    (forall o, returns P (k o)) -> returns P (Await c cb k).

Definition task_returns {A : Type} (P : A -> Prop) (t : task A) : Prop :=
  match t with
  | Finished (Returned a) => P a
  | Finished (Thrown _) => True
  | Suspended c cb k => forall o, returns P (k o)
  end.

(** ** Intake *)

(** The Job created for an accepted file. *)
Definition fresh_image (file : File) (img : ProcessedImage) : Prop :=
  name img = file_name file /\ processed img = None /\ status img = pending
  /\ retries img = 0.

(** A step of an upload promise: it touches neither the worklist nor the
    toasts. *)
Definition upload_frame (w w' : World) : Prop :=
  images w' = images w /\ toasts w' = toasts w.

(** The state of an intake of the valid files [validFiles] begun in [w0]:
    nothing is added while promises are pending; all images are added
    together once every promise has returned; nothing is added once a
    promise has thrown. *)
Definition upload_state (w0 : World) (validFiles : list File) (r : UploadRun) : Prop :=
  match first_thrown (upload_wave r), returned_values (upload_wave r) with
  | Some _, _ =>
      upload_settled r = true
      /\ images (upload_world r) = images w0
      /\ toasts (upload_world r) = toasts w0 ++ [toast_upload_failed]
  | None, Some newImages =>
      upload_settled r = true
      /\ images (upload_world r) = images w0 ++ newImages
      /\ Forall2 fresh_image validFiles newImages
      /\ toasts (upload_world r) = toasts w0 ++ [toast_upload_successful (length validFiles)]
  | None, None =>
      upload_settled r = false
      /\ images (upload_world r) = images w0
      /\ toasts (upload_world r) = toasts w0
  end.

(** Everything resolves. *)
Definition succeeding_env : Env :=
  mkEnv (fun _ _ => Resolved 7) (fun _ => []).

(** Scenario A: three valid images and one of 10 MB plus one byte. *)
Definition scenario_A_files : list File :=
  [mkFile "a.jpg" "image/jpeg" 2000000; mkFile "b.png" "image/png" 350000;
   mkFile "huge.png" "image/png" (10 * 1024 * 1024 + 1); mkFile "c.webp" "image/webp" 10485760].

Definition scenario_A_schedule : list (nat * outcome) :=
  [(1, Resolved 11); (0, Resolved 12); (2, Resolved 13)].

(** Two valid images; the compression of the second one fails. *)
Definition two_files : list File :=
  [mkFile "a.jpg" "image/jpeg" 2000000; mkFile "b.png" "image/png" 350000].

Definition compression_error : JsError := mkError "Error" "compression failed".

Definition second_compression_fails : list (nat * outcome) :=
  [(1, Rejected compression_error); (0, Resolved 12)].

(** The single image of [uploaded_world 1], processed once with success
    and then once more against a transform that always fails. *)
Definition processed_once : World :=
  (eval succeeding_env (handleSingleProcess (images (uploaded_world 1)) 0 false)
     (uploaded_world 1)).1.

Definition reprocessed_failing : World :=
  (eval failing_env (handleSingleProcess (images processed_once) 0 false) processed_once).1.

(** ** An abstract view of a batch run

    What a promise of a wave does to the state, and the transition system
    these effects generate; the concrete executor is shown to follow it. *)

(** [images.findIndex(x => x.original === img.original)] *)
Definition item_index (images_ : list ProcessedImage) (img : ProcessedImage) : option nat :=
  findIndex (same_original img) images_.

(** The effect of a promise of the wave that settles for the image at [j]:
    either a result is recorded, the counter is incremented and the new
    fraction is reported, or the image is marked failed and neither counter
    nor progress is touched. *)
Definition finishes (n j : nat) (w w' : World) : Prop :=
  isBulkProcessing w' = isBulkProcessing w /\ toasts w' = toasts w
  /\ ((exists u, images w' = map_at j (set_completed u) (images w))
      /\ processed_local w' = S (processed_local w)
      /\ batch_reports w' = batch_reports w ++ [percent (S (processed_local w)) n]
      /\ progress w' = percent (S (processed_local w)) n
      \/ images w' = map_at j (set_status failed) (images w)
         /\ processed_local w' = processed_local w
         /\ batch_reports w' = batch_reports w).

(** [finishing n j p]: [p] is the rest of the callback for the image at
    [j]: steps that leave the worklist and the counters alone, possibly
    across further awaits, and then a block that [finishes] and returns. *)
Inductive finishing (n j : nat) : prog unit -> Prop :=
| finishing_do (f : World -> World) (k : prog unit) :
    (forall w, process_frame w (f w)) -> finishing n j k -> finishing n j (Do f k)
| finishing_read (k : World -> prog unit) :
    (forall w, finishing n j (k w)) -> finishing n j (Read k)
| finishing_await (c : call) (cb : Q -> World -> World) (k : outcome -> prog unit) :
    (forall p w, process_frame w (cb p w)) -> (forall o, finishing n j (k o)) ->
    finishing n j (Await c cb k)
| finishing_end (p : prog unit) :
    (forall w, exists w', advance p w = (w', Finished (Returned tt)) /\ finishes n j w w') ->
    finishing n j p.

(** The abstract state of a batch run: the waves already over, the images
    of the current wave whose callback has started with a flag telling
    whether its promise is still pending, the images of the wave not yet
    started, and the waves to come. *)
Record Abs : Type := mkAbs {
  a_world : World;
  a_earlier : list (list ProcessedImage);
  a_batch : list ProcessedImage;
  a_active : list bool;
  a_tospawn : list ProcessedImage;
  a_later : list (list ProcessedImage);
  a_settled : bool
}.

Inductive abs_step (images_ : list ProcessedImage) (n : nat) : Abs -> Abs -> Prop :=
| abs_quiet (a : Abs) (i : nat) (w' : World) :
    a_active a !! i = Some true ->
    process_frame (a_world a) w' ->
    abs_step images_ n a
      (mkAbs w' (a_earlier a) (a_batch a) (a_active a) (a_tospawn a) (a_later a) (a_settled a))
| abs_finish (a : Abs) (i j : nat) (img : ProcessedImage) (w' : World) :
    a_batch a !! i = Some img -> a_active a !! i = Some true ->
    item_index images_ img = Some j ->
    finishes n j (a_world a) w' ->
    abs_step images_ n a
      (mkAbs w' (a_earlier a) (a_batch a) (<[i := false]> (a_active a)) (a_tospawn a)
         (a_later a) (a_settled a))
| abs_spawn_idle (a : Abs) (img : ProcessedImage) (rest : list ProcessedImage) :
    a_tospawn a = img :: rest -> item_index images_ img = None ->
    abs_step images_ n a
      (mkAbs (a_world a) (a_earlier a) (a_batch a ++ [img]) (a_active a ++ [false]) rest
         (a_later a) (a_settled a))
| abs_spawn_start (a : Abs) (img : ProcessedImage) (rest : list ProcessedImage) (j : nat) :
    a_tospawn a = img :: rest -> item_index images_ img = Some j ->
    abs_step images_ n a
      (mkAbs (setImages (map_at j (set_status processing)) (a_world a))
         (a_earlier a) (a_batch a ++ [img]) (a_active a ++ [true]) rest
         (a_later a) (a_settled a))
| abs_next_wave (a : Abs) (b : list ProcessedImage) (bs : list (list ProcessedImage)) :
    a_tospawn a = [] -> Forall (fun x => x = false) (a_active a) ->
    a_later a = b :: bs -> a_settled a = false ->
    abs_step images_ n a
      (mkAbs (a_world a) (a_earlier a ++ [a_batch a]) [] [] b bs false)
| abs_complete (a : Abs) :
    a_tospawn a = [] -> Forall (fun x => x = false) (a_active a) ->
    a_later a = [] -> a_settled a = false ->
    abs_step images_ n a
      (mkAbs (bulk_finally
                (with_toast (toast_bulk_complete (processed_local (a_world a)) n) (a_world a)))
         (a_earlier a) (a_batch a) (a_active a) [] [] true).

(** A promise of the wave and its abstract flag. *)
Definition task_abs (images_ : list ProcessedImage) (n : nat) (img : ProcessedImage)
    (t : task unit) (active : bool) : Prop :=
  match t with
  | Finished (Returned _) => active = false
  | Finished (Thrown _) => False
  | Suspended c cb k =>
      active = true
      /\ exists j, item_index images_ img = Some j
                   /\ (forall p w, process_frame w (cb p w))
                   /\ (forall o, finishing n j (k o))
  end.

Inductive tasks_abs (images_ : list ProcessedImage) (n : nat)
  : list ProcessedImage -> list (task unit) -> list bool -> Prop :=
| tasks_abs_nil : tasks_abs images_ n [] [] []
| tasks_abs_cons (img : ProcessedImage) (t : task unit) (active : bool)
    (imgs : list ProcessedImage) (ts : list (task unit)) (actives : list bool) :
    task_abs images_ n img t active -> tasks_abs images_ n imgs ts actives ->
    tasks_abs images_ n (img :: imgs) (t :: ts) (active :: actives).

(** The concrete run [r] is in the abstract state [a]. *)
Definition abstracts (images_ : list ProcessedImage) (n : nat) (r : BulkRun) (a : Abs) : Prop :=
  world r = a_world a /\ batch r = a_batch a /\ later r = a_later a
  /\ settled r = a_settled a /\ a_tospawn a = []
  /\ tasks_abs images_ n (batch r) (wave r) (a_active a).

(** ** What the batch claims are about *)

(** The positions of the worklist whose Job is in status [processing]. *)
Definition processing_indices (w : World) : list nat :=
  filter (fun j => status <$> images w !! j = Some processing) (seq 0 (length (images w))).

Definition terminal (img : ProcessedImage) : Prop :=
  status img = completed \/ status img = failed.

(** The Job of the selected image [img] has reached a terminal state in [w]. *)
Definition job_terminal (images_ : list ProcessedImage) (w : World) (img : ProcessedImage)
  : Prop :=
  exists j x, item_index images_ img = Some j /\ images w !! j = Some x
              /\ original x = original img /\ terminal x.

(** The shape of an abstract state: the waves partition the selection, the
    Jobs in status [processing] are Jobs of the current wave whose promise
    is pending, and the Jobs whose promise has settled are terminal. *)
Record abs_shape (images_ : list ProcessedImage) (batches0 : list (list ProcessedImage))
    (a : Abs) : Prop := mkAbsShape {
  shape_partition : a_earlier a ++ (a_batch a ++ a_tospawn a) :: a_later a = batches0;
  shape_lengths : length (a_active a) = length (a_batch a);
  shape_covered : forall j x,
    images (a_world a) !! j = Some x -> status x = processing ->
    exists i img, a_batch a !! i = Some img /\ a_active a !! i = Some true
                  /\ item_index images_ img = Some j;
  shape_originals : original <$> images (a_world a) = original <$> images_;
  shape_done : forall img j,
    (img ∈ concat (a_earlier a)
     \/ exists i, a_batch a !! i = Some img /\ a_active a !! i = Some false) ->
    item_index images_ img = Some j ->
    exists x, images (a_world a) !! j = Some x /\ terminal x
}.

(** What an abstract state has reported: the batch has reported the rounded
    fractions [1/n], [2/n], ... up to its counter; once the handler has
    ended, progress has been reset to 0 and the summary toast raised. *)
Record abs_reported (w0 : World) (n : nat) (a : Abs) : Prop := mkAbsReported {
  reported_fractions :
    batch_reports (a_world a)
    = batch_reports w0 ++ map (fun k => percent k n) (seq 1 (processed_local (a_world a)));
  reported_settled : a_settled a = true ->
    Forall (fun x => x = false) (a_active a) /\ a_tospawn a = []
    /\ progress (a_world a) = 0%Z
    /\ last (progress_log (a_world a)) = Some (site_reset, 0%Z)
    /\ toasts (a_world a)
       = toasts w0 ++ [toast_bulk_complete (processed_local (a_world a)) n];
  reported_running : a_settled a = false ->
    toasts (a_world a) = toasts w0 /\ isBulkProcessing (a_world a) = true
}.

(** *** Schedules of the batch scenarios *)

Definition resolves : event := Settle (Resolved 7).
Definition rejects : event := Settle (Rejected transform_error).

(** Promise [i] goes through one successful attempt: fetch, blob, a
    progress report of one half, transform. *)
Definition succeeds (i : nat) : list (nat * event) :=
  [(i, resolves); (i, resolves); (i, Progress (1 # 2)); (i, resolves)].

(** Promise [i] goes through one failed attempt and its backoff delay. *)
Definition fails_once (i : nat) : list (nat * event) :=
  [(i, resolves); (i, resolves); (i, rejects); (i, resolves)].

(** Scenario E: five Jobs, all succeed, in three waves. *)
Definition scenario_E_schedule : list (nat * event) :=
  succeeds 1 ++ succeeds 0 ++ succeeds 0 ++ succeeds 1 ++ succeeds 0.

(** Two Jobs in one wave: the first succeeds, the second exhausts its
    retries. *)
Definition mixed_schedule : list (nat * event) :=
  fails_once 1 ++ succeeds 0 ++ fails_once 1 ++ fails_once 1.

(** Non-decreasing lists of reported values. *)
Definition non_decreasing (l : list Z) : Prop :=
  forall i j x y, i <= j -> l !! i = Some x -> l !! j = Some y -> (x <= y)%Z.

(** ** Auxiliary notions of the proofs *)

(** What the progress reports of a transform leave untouched. *)
Definition reports_frame (w w' : World) : Prop :=
  calls w' = calls w /\ next_url w' = next_url w /\ controllers w' = controllers w
  /\ abortController w' = abortController w.

(** The promises of an intake, one per valid file. *)
Definition upload_task_ok (file : File) (t : task ProcessedImage) : Prop :=
  task_returns (fresh_image file) t /\ task_steps_in upload_frame t.

(** What [advance] does on the rest of a callback. *)
Definition advanced_ok (n j : nat) (w : World) (wt : World * task unit) : Prop :=
  match wt.2 with
  | Suspended c cb k =>
      process_frame w wt.1 /\ (forall p w, process_frame w (cb p w))
      /\ (forall o, finishing n j (k o))
  | Finished (Returned _) => finishes n j w wt.1
  | Finished (Thrown _) => False
  end.

(** The callback of [bulk_item] after it has marked its image. *)
Definition bulk_item_rest (n index : nat) (img : ProcessedImage) : prog unit :=
  try_catch
    (processedUrl ← processImage (original img) 0 ;
     exec (record_completed index processedUrl) ;;
     exec (fun w => with_processed_local (S (processed_local w)) w) ;;
     exec (fun w => setProgress site_batch (percent (processed_local w) n) w))
    (fun error =>
       exec (with_console error) ;;
       exec (record_failed index)).

(** The abstract state in which a batch run over the rendered state [w]
    begins: the flag is set, the counter is 0, and the first batch is about
    to be started. *)
Definition abs_start (w : World) : Abs :=
  let batches := for_batches (filter (fun img => processed img = None) (images w)) 0 in
  mkAbs (with_processed_local 0 (with_isBulkProcessing true w)) [] [] []
    (hd [] batches) (tl batches) false.

(** ** Further notions: single processing *)

(** The state in which [handleSingleProcess] ends, from the state [w1] in
    which its episode has ended. *)
Definition single_final (i : nat) (img : ProcessedImage) (fresh : nat) (r : episode_end)
    (w1 : World) : World :=
  setProgress site_reset 0%Z
    (with_isProcessing false
       match r with
       | ended_transformed =>
           with_toast toast_success (record_completed i (BlobUrl fresh) w1)
       | ended_aborted =>
           with_toast toast_success (record_completed i (original img) w1)
       | ended_exhausted =>
           with_toast toast_processing_failed
             (record_failed i (with_console max_retries_exceeded w1))
       end).

(** What [cleanup] revokes. *)
Definition released (url : option Url) : list Url :=
  match url with
  | Some u => if startsWith_blob u then [u] else []
  | None => []
  end.

(** What processing never changes in a Job. *)
Definition identity (img : ProcessedImage) : Url * Url * string * nat :=
  (original img, preview img, name img, retries img).

(** ** Further notions: batch runs *)

(** What a batch run leaves alone: the waves partition the selection, and
    the positions that are not the index of a selected image hold what they
    held when the run began; once the handler has ended no wave is left and
    no promise is pending. *)
Record abs_scope (images_ : list ProcessedImage) (w0 : World)
    (batches0 : list (list ProcessedImage)) (a : Abs) : Prop := mkAbsScope {
  scope_partition : a_earlier a ++ (a_batch a ++ a_tospawn a) :: a_later a = batches0;
  scope_untouched : forall j,
    (forall img, img ∈ concat batches0 -> item_index images_ img <> Some j) ->
    images (a_world a) !! j = images w0 !! j;
  scope_ended : a_settled a = true ->
    a_later a = [] /\ a_tospawn a = [] /\ Forall (fun x => x = false) (a_active a)
}.

(** ** Further notions: the worker's messages *)

(** The call the worker makes to the transform. *)
Definition worker_transform_call (imageBlob : nat) (model format : string) (quality : Q) : call :=
  RemoveBackground imageBlob model format quality.

(** The progress callback of the worker. *)
Definition worker_progress (p : Q) : World -> World := with_posted (msg_progress p).

(** ** Further notions: the gallery *)

(** [const currentImage = images[currentImageIndex] || null] *)
Definition currentImage (w : World) : option ProcessedImage :=
  images w !! currentImageIndex w.

(** The Previous button:
    [setCurrentImageIndex(prev => Math.max(0, prev - 1))]. *)
Definition handlePrevious (w : World) : World :=
  with_currentImageIndex
    (Z.to_nat (Z.max 0 (Z.of_nat (currentImageIndex w) - 1))) w.

(** The Next button, closed over the [images] of the render that created it:
    [setCurrentImageIndex(prev => Math.min(images.length - 1, prev + 1))].
    The index is a natural number in the model; the button is only rendered
    when the gallery is not empty, and with an empty closure the source
    would store [-1]. *)
Definition handleNext (images_ : list ProcessedImage) (w : World) : option World :=
  let v := Z.min (Z.of_nat (length images_) - 1) (Z.of_nat (currentImageIndex w) + 1) in
  if (v <? 0)%Z then None else Some (with_currentImageIndex (Z.to_nat v) w).

(** A thumbnail: [onClick={() => setCurrentImageIndex(idx)}]. *)
Definition handleSelect (idx : nat) (w : World) : World :=
  with_currentImageIndex idx w.

(** The cleanup of the effect on [images] (it runs when the component
    unmounts and after every commit that has changed the list), closed over
    the [images] of the render that created it: every handle of every Job
    is passed to [cleanup], then the current controller, if any, is
    aborted. *)
Definition unmount_cleanup (images_ : list ProcessedImage) (w : World) : World :=
  abort_current
    (foldl (fun w img =>
              cleanup (processed img)
                (cleanup (Some (preview img)) (cleanup (Some (original img)) w)))
       w images_).

(** The handles of a Job, in the order in which they are released. *)
Definition handles (img : ProcessedImage) : list Url :=
  released (Some (original img)) ++ released (Some (preview img))
  ++ released (processed img).

(** ** Further notions: the name of a download *)

(** The characters [.] and [/]. *)
Definition dot : Ascii.ascii := Ascii.ascii_of_nat 46.
Definition slash : Ascii.ascii := Ascii.ascii_of_nat 47.

(** [s.replace(/\.[^/.]+$/, '')] on the reversed characters of [s]: the
    reversed extension and the reversed rest, when the scan from the end
    meets a dot before any slash. *)
Fixpoint split_extension (r : list Ascii.ascii) : option (list Ascii.ascii * list Ascii.ascii) :=
  match r with
  | [] => None
  | c :: r' =>
      if Ascii.eqb c dot then Some ([], r')
      else if Ascii.eqb c slash then None
      else match split_extension r' with
           | Some (e, b) => Some (c :: e, b)
           | None => None
           end
  end.

Definition strip_extension (s : string) : string :=
  match split_extension (rev (String.list_ascii_of_string s)) with
  | Some (_ :: _, b) => String.string_of_list_ascii (rev b)
  | _ => s
  end.

(** [`${currentImage.name.replace(/\.[^/.]+$/, '')}_processed.png`] *)
Definition download_name (name_ : string) : string :=
  (strip_extension name_ ++ "_processed.png")%string.

(** A character the class [[^/.]] matches. *)
Definition extension_char (c : Ascii.ascii) : bool :=
  negb (Ascii.eqb c dot) && negb (Ascii.eqb c slash).

(** ** Further notions: the object URLs of an intake *)

(** The compression the intake requests for [file]. *)
Definition compression_call (file : File) : call :=
  ImageCompression file
    (inject_Z SETTINGS.upload.maxSize / inject_Z (1024 * 1024))%Q
    (Z.max SETTINGS.upload.maxWidth SETTINGS.upload.maxHeight)
    true (file_type file).

(** The Job the callback returns for [file], with the preview URL [p] and
    the URL [o] of the compressed file. *)
Definition upload_image (file : File) (p o : nat) : ProcessedImage :=
  mkImage (BlobUrl o) (BlobUrl p) None (file_name file) pending 0.

(** Where the promise of one file stands, with the object URLs minted for
    it: waiting for the compression, returned, or rejected. *)
Inductive slot : Type :=
| slot_pending (p : nat)
| slot_returned (p o : nat)
| slot_thrown (p : nat).

Definition minted (s : slot) : list nat :=
  match s with
  | slot_pending p => [p]
  | slot_returned p o => [p; o]
  | slot_thrown p => [p]
  end.

Definition slot_task (file : File) (s : slot) (t : task ProcessedImage) : Prop :=
  match s with
  | slot_pending p =>
      exists k, t = Suspended (compression_call file) no_callback k
        /\ forall o w,
             advance (k o) w
             = match o with
               | Resolved _ =>
                   (with_next_url (S (next_url w)) w,
                    Finished (Returned (upload_image file p (next_url w))))
               | Rejected e => (cleanup (Some (BlobUrl p)) w, Finished (Thrown e))
               end
  | slot_returned p o => t = Finished (Returned (upload_image file p o))
  | slot_thrown p => exists e, t = Finished (Thrown e)
  end.

(** The object URLs of a running intake of [validFiles] begun in [w0]:
    every URL minted since is accounted for by the slot of a file, no URL
    was minted twice, and the intake has revoked exactly the previews of
    the files whose compression was rejected. *)
Record upload_urls (w0 : World) (validFiles : list File) (slots : list slot)
    (r : UploadRun) : Prop := mkUploadUrls {
  urls_tasks : Forall3 slot_task validFiles slots (upload_wave r);
  urls_nodup : NoDup (concat (minted <$> slots));
  urls_range : forall n, n ∈ concat (minted <$> slots) ->
                         next_url w0 <= n < next_url (upload_world r);
  urls_count : next_url (upload_world r) = next_url w0 + length (concat (minted <$> slots));
  urls_revoked : exists ps,
    revoked (upload_world r) = revoked w0 ++ (BlobUrl <$> ps)
    /\ forall p, p ∈ ps <-> slot_thrown p ∈ slots
}.

(** The object URLs a Job holds from its intake. *)
Definition intake_urls (img : ProcessedImage) : list Url := [preview img; original img].

(** ** Further notions: steps from a state *)

(** [steps_from R p w]: started in the state [w], every state change [p]
    makes relates the state before to the state after by [R].  Unlike
    [steps_in] it follows the state through the synchronous statements, so
    it covers statements whose effect depends on what they have just read;
    after an [await] the state is arbitrary. *)
Fixpoint steps_from {A : Type} (R : World -> World -> Prop) (p : prog A) (w : World) : Prop :=
  match p with
  | Ret _ => True
  | Throw _ => True
  | Do f k => R w (f w) /\ steps_from R k (f w)
  | Read k => steps_from R (k w) w
  | Await c cb k => (forall q w', R w' (cb q w')) /\ forall o w', steps_from R (k o) w'
  end.

Definition task_steps_from (R : World -> World -> Prop) {A : Type} (t : task A) : Prop :=
  match t with
  | Finished _ => True
  | Suspended c cb k => (forall q w, R w (cb q w)) /\ forall o w, steps_from R (k o) w
  end.

(** Object URLs are numbered in the order in which they are minted. *)
Definition mints_only (w w' : World) : Prop := next_url w <= next_url w'.

(** The originals of the Jobs are pairwise distinct, and each of them that
    is an object URL has been minted. *)
Definition originals_distinct (w : World) : Prop :=
  NoDup (original <$> images w)
  /\ forall n, BlobUrl n ∈ original <$> images w -> n < next_url w.


(** Of the controllers the component has created, only the current one --
    the one created last -- may not have been aborted. *)
Definition controllers_ok (w : World) : Prop :=
  match abortController w with
  | None => controllers w = []
  | Some c =>
      length (controllers w) = S c
      /\ forall i, i < c -> controllers w !! i = Some true
  end.

Definition keeps_controllers (w w' : World) : Prop :=
  controllers_ok w -> controllers_ok w'.

(** ** Further notions: other handlers during a batch run *)

(** A synchronous handler of the component runs while the promises of the
    wave are pending. *)
Definition bulk_interleave (f : World -> World) (r : BulkRun) : BulkRun :=
  mkBulk (f (world r)) (batch r) (wave r) (later r) (settled r).

(** A click on the Delete button of the current render. *)
Definition click_delete (w : World) : World :=
  handleDelete (images w) (currentImageIndex w) w.

(** ** Further notions: what a batch run has completed *)

(** The number of Jobs in status [completed]. *)
Definition completed_count (w : World) : nat :=
  length (filter (fun x => status x = completed) (images w)).

(** The counter of a batch run begun in [w0] counts the Jobs the run has
    completed; the Job of a pending promise is in status [processing], and
    the Jobs of the callbacks not yet started are not [completed]. *)
Record abs_counted (images_ : list ProcessedImage) (w0 : World) (a : Abs) : Prop :=
  mkAbsCounted {
  counted_completed :
    completed_count (a_world a) = completed_count w0 + processed_local (a_world a);
  counted_active : forall i img j,
    a_batch a !! i = Some img -> a_active a !! i = Some true ->
    item_index images_ img = Some j ->
    status <$> images (a_world a) !! j = Some processing;
  counted_waiting : forall img j x,
    img ∈ a_tospawn a ++ concat (a_later a) ->
    item_index images_ img = Some j ->
    images (a_world a) !! j = Some x -> status x <> completed
}.


(** Three uploaded images of which the first has been processed with
    success on its own. *)
Definition one_of_three_processed : World :=
  (eval succeeding_env (handleSingleProcess (images (uploaded_world 3)) 0 false)
     (uploaded_world 3)).1.

(** * Properties *)

(** Reduce projections of updated states, and nothing else. *)
Ltac world_simpl :=
  cbn [images currentImageIndex isProcessing isBulkProcessing progress abortController
       controllers processed_local next_url revoked toasts console progress_log calls posted
       with_images with_currentImageIndex with_isProcessing with_isBulkProcessing
       with_progress with_controller with_processed_local with_next_url with_revoked
       with_toast with_console with_call with_posted setProgress setImages record_failed
       new_controller fst snd].

Tactic Notation "world_simpl" "in" hyp(H) :=
  cbn [images currentImageIndex isProcessing isBulkProcessing progress abortController
       controllers processed_local next_url revoked toasts console progress_log calls posted
       with_images with_currentImageIndex with_isProcessing with_isBulkProcessing
       with_progress with_controller with_processed_local with_next_url with_revoked
       with_toast with_console with_call with_posted setProgress setImages record_failed
       new_controller fst snd] in H.

(** ** Facts about the executors *)

Lemma eval_bind {A B : Type} (env : Env) (p : prog A) (f : A -> prog B) (w : World) :
  eval env (bind p f) w =
  match eval env p w with
  | (w', Returned a) => eval env (f a) w'
  | (w', Thrown e) => (w', Thrown e)
  end.
Proof.
  revert w; induction p as [a|e|g k IH|k IH|c cb k IH]; intros w; simpl; auto.
Qed.

Lemma eval_mbind {A B : Type} (env : Env) (p : prog A) (f : A -> prog B) (w : World) :
  eval env (p ≫= f) w =
  match eval env p w with
  | (w', Returned a) => eval env (f a) w'
  | (w', Thrown e) => (w', Thrown e)
  end.
Proof. apply eval_bind. Qed.

Lemma eval_try_catch {A : Type} (env : Env) (p : prog A) (h : JsError -> prog A) (w : World) :
  eval env (try_catch p h) w =
  match eval env p w with
  | (w', Returned a) => (w', Returned a)
  | (w', Thrown e) => eval env (h e) w'
  end.
Proof.
  revert w; induction p as [a|e|g k IH|k IH|c cb k IH]; intros w; simpl; auto.
Qed.

Lemma eval_try_finally {A : Type} (env : Env) (p : prog A) (fin : World -> World) (w : World) :
  eval env (try_finally p fin) w =
  match eval env p w with
  | (w', r) => (fin w', r)
  end.
Proof.
  revert w; induction p as [a|e|g k IH|k IH|c cb k IH]; intros w; simpl; auto.
Qed.

(** ** Soundness of the step logic *)

Create HintDb steps.
#[local] Hint Constructors steps_in : steps.

Lemma steps_in_bind (R : World -> World -> Prop) {A B : Type} (p : prog A) (f : A -> prog B) :
  steps_in R p -> (forall a, steps_in R (f a)) -> steps_in R (bind p f).
Proof. induction 1; intros Hf; simpl; auto with steps. Qed.

Lemma steps_in_mbind (R : World -> World -> Prop) {A B : Type} (p : prog A) (f : A -> prog B) :
  steps_in R p -> (forall a, steps_in R (f a)) -> steps_in R (p ≫= f).
Proof. apply steps_in_bind. Qed.

Lemma steps_in_try_catch (R : World -> World -> Prop) {A : Type} (p : prog A)
    (h : JsError -> prog A) :
  steps_in R p -> (forall e, steps_in R (h e)) -> steps_in R (try_catch p h).
Proof. induction 1; intros Hh; simpl; auto with steps. Qed.

Lemma steps_in_try_finally (R : World -> World -> Prop) {A : Type} (p : prog A)
    (fin : World -> World) :
  steps_in R p -> (forall w, R w (fin w)) -> steps_in R (try_finally p fin).
Proof. induction 1; intros Hf; simpl; auto with steps. Qed.

Lemma steps_in_exec (R : World -> World -> Prop) (f : World -> World) :
  (forall w, R w (f w)) -> steps_in R (exec f).
Proof. intros; unfold exec; auto with steps. Qed.

Lemma steps_in_await_with (R : World -> World -> Prop) (c : call) (cb : Q -> World -> World) :
  (forall p w, R w (cb p w)) -> steps_in R (await_with c cb).
Proof. intros; unfold await_with; constructor; auto. intros []; auto with steps. Qed.

Section StepsSound.
Variable R : World -> World -> Prop.
Hypothesis R_refl : forall w, R w w.
Hypothesis R_trans : forall w1 w2 w3, R w1 w2 -> R w2 w3 -> R w1 w3.
Hypothesis R_call : forall c w, R w (with_call c w).

Lemma steps_in_await : forall c, steps_in R (await c).
Proof. intros; apply steps_in_await_with; unfold no_callback; auto. Qed.

Lemma reports_sound (c : call) (cb : Q -> World -> World) (ps : list Q) (w : World) :
  (forall p w, R w (cb p w)) -> R w (foldl (fun w p => report w c cb p) w ps).
Proof.
  intros Hcb; revert w; induction ps as [|p ps IH]; intros w; simpl; auto.
  eapply R_trans; [|apply IH]. unfold report; destruct (is_transform c); auto.
Qed.

Lemma report_sound (c : call) (cb : Q -> World -> World) (p : Q) (w : World) :
  (forall p w, R w (cb p w)) -> R w (report w c cb p).
Proof. intros Hcb; unfold report; destruct (is_transform c); auto. Qed.

Lemma reported_sound (env : Env) (c : call) (cb : Q -> World -> World) (w : World) :
  (forall p w, R w (cb p w)) -> R w (reported env c cb w).
Proof.
  intros Hcb. eapply R_trans; [apply (R_call c)|]. apply reports_sound; auto.
Qed.

Lemma advance_sound {A : Type} (p : prog A) (w : World) :
  steps_in R p -> R w (advance p w).1.
Proof.
  intros Hp; revert w; induction Hp; intros w; simpl; eauto.
Qed.

Lemma eval_sound {A : Type} (env : Env) (p : prog A) (w : World) :
  steps_in R p -> R w (eval env p w).1.
Proof.
  intros Hp; revert w; induction Hp as [| |f k Hf Hk IH|k Hk IH|c cb k Hcb Hk IH];
    intros w; simpl; eauto.
  eapply R_trans; [|apply IH]. apply reported_sound; auto.
Qed.
End StepsSound.

Lemma advance_task_steps (R : World -> World -> Prop) {A : Type} (p : prog A) (w : World) :
  steps_in R p -> task_steps_in R (advance p w).2.
Proof. intros Hp; revert w; induction Hp; intros w; simpl; auto. Qed.

(** ** processImage against an arbitrary environment *)

Lemma process_frame_refl (w : World) : process_frame w w.
Proof. split; auto. Qed.

Lemma process_frame_trans (w1 w2 w3 : World) :
  process_frame w1 w2 -> process_frame w2 w3 -> process_frame w1 w3.
Proof. intros [] []; split; congruence. Qed.

Lemma process_frame_call (c : call) (w : World) : process_frame w (with_call c w).
Proof. split; auto. Qed.

Lemma batch_reports_transform (v : Z) (w : World) :
  batch_reports (with_progress site_transform v w) = batch_reports w.
Proof. unfold batch_reports; simpl. rewrite omap_app; simpl. apply app_nil_r. Qed.

Lemma process_frame_progress (p : Q) (w : World) : process_frame w (on_transform_progress p w).
Proof. split; auto. apply batch_reports_transform. Qed.

Lemma process_frame_abort (w : World) : process_frame w (abort_current w).
Proof. unfold abort_current; destruct (abortController w); split; auto. Qed.

#[local] Hint Resolve process_frame_refl process_frame_call process_frame_progress
  process_frame_abort : steps.
#[local] Hint Resolve steps_in_mbind steps_in_exec steps_in_await_with steps_in_await
  steps_in_try_catch steps_in_try_finally : steps.

Lemma processImage_try_frame (imageUrl : Url) :
  steps_in process_frame (processImage_try imageUrl).
Proof.
  unfold processImage_try.
  repeat (apply steps_in_mbind; [|intros]); auto with steps.
  - apply steps_in_exec; intros; split; auto.
  - unfold createObjectURL. constructor; intros. constructor; auto with steps.
    intros; split; auto.
Qed.

Lemma processImage_frame (imageUrl : Url) (retryCount : nat) :
  steps_in process_frame (processImage imageUrl retryCount).
Proof.
  funelim (processImage imageUrl retryCount); [constructor|].
  apply steps_in_try_catch; [apply processImage_try_frame|].
  intros e. destruct (is_AbortError e); [constructor|].
  apply steps_in_mbind; [apply steps_in_exec; intros; split; auto|intros _].
  destruct (retryCount <? SETTINGS.processing.maxRetries); [|constructor].
  apply steps_in_mbind; [auto with steps|intros v].
  match goal with IH : JsError -> _ |- _ => exact (IH e tt v) end.
Qed.

(** *** One pass through the [try] block *)

Lemma eval_exec_bind {A : Type} (env : Env) (f : World -> World) (k : unit -> prog A)
    (w : World) :
  eval env (exec f ≫= k) w = eval env (k tt) (f w).
Proof. reflexivity. Qed.

Lemma eval_exec (env : Env) (f : World -> World) (w : World) :
  eval env (exec f) w = (f w, Returned tt).
Proof. reflexivity. Qed.

Lemma eval_await_bind {A : Type} (env : Env) (c : call) (cb : Q -> World -> World)
    (k : nat -> prog A) (w : World) :
  eval env (await_with c cb ≫= k) w =
  match observe (reported env c cb w) c (respond env (calls w) c) with
  | Resolved v => eval env (k v) (reported env c cb w)
  | Rejected e => (reported env c cb w, Thrown e)
  end.
Proof.
  unfold await_with; simpl.
  destruct (observe (reported env c cb w) c (respond env (calls w) c)); reflexivity.
Qed.

Lemma reported_plain (env : Env) (c : call) (cb : Q -> World -> World) (w : World) :
  is_transform c = false -> reported env c cb w = with_call c w.
Proof.
  intros Hc; unfold reported. generalize (with_call c w).
  induction (reports env (calls w)) as [|p ps IH]; intros w0; simpl; auto.
  unfold report at 2; rewrite Hc; auto.
Qed.

Lemma reported_transform (env : Env) (c : call) (w : World) :
  calls (reported env c on_transform_progress w) = calls w ++ [c]
  /\ next_url (reported env c on_transform_progress w) = next_url w.
Proof.
  unfold reported.
  assert (H : reports_frame (with_call c w)
            (foldl (fun w p => report w c on_transform_progress p) (with_call c w)
               (reports env (calls w)))).
  { apply reports_sound; unfold reports_frame.
    - intros; auto.
    - intros ??? (?&?&?&?) (?&?&?&?); repeat split; congruence.
    - intros; auto. }
  destruct H as (-> & -> & _); auto.
Qed.

Lemma observe_unsignalled (w : World) (c : call) (o : outcome) :
  call_signal c = None -> is_timer c = false -> observe w c o = o.
Proof.
  intros Hs Ht; unfold observe, interrupted; rewrite Hs. destruct c; simpl in *; congruence.
Qed.

Lemma observe_timer (w : World) (ms : Z) (o : outcome) :
  observe w (SetTimeout ms) o = Resolved 0.
Proof. reflexivity. Qed.

Lemma calls_abort_current (w : World) : calls (abort_current w) = calls w.
Proof. unfold abort_current; destruct (abortController w); reflexivity. Qed.

Lemma next_url_abort_current (w : World) : next_url (abort_current w) = next_url w.
Proof. unfold abort_current; destruct (abortController w); reflexivity. Qed.

(** The [try] block makes the calls of one [attempt]; it returns the next
    fresh object URL when the transform resolves and throws what was
    rejected otherwise, without minting a URL. *)
Lemma eval_processImage_try (env : Env) (imageUrl : Url) (w : World) :
  exists a r,
    attempt env (calls w) imageUrl a r
    /\ calls (eval env (processImage_try imageUrl) w).1 = calls w ++ a
    /\ match r with
       | Returned _ =>
           (eval env (processImage_try imageUrl) w).2 = Returned (BlobUrl (next_url w))
       | Thrown e =>
           (eval env (processImage_try imageUrl) w).2 = Thrown e
           /\ next_url (eval env (processImage_try imageUrl) w).1 = next_url w
       end.
Proof.
  destruct (eval env (processImage_try imageUrl) w) as [w' r'] eqn:E; simpl.
  unfold processImage_try, await in E.
  rewrite !eval_exec_bind, eval_await_bind in E.
  rewrite observe_unsignalled, reported_plain in E by reflexivity.
  change (calls (new_controller (abort_current w))) with (calls (abort_current w)) in E.
  rewrite calls_abort_current in E.
  destruct (respond env (calls w) (Fetch imageUrl None)) as [response|e] eqn:Hfetch.
  2:{ injection E as <- <-.
      exists [Fetch imageUrl None], (Thrown e); repeat split; simpl.
      - by constructor.
      - by rewrite calls_abort_current.
      - apply next_url_abort_current. }
  rewrite eval_await_bind in E.
  rewrite observe_unsignalled, reported_plain in E by reflexivity.
  change (calls (with_call ?c (new_controller (abort_current w))))
    with (calls (abort_current w) ++ [c]) in E.
  rewrite calls_abort_current in E.
  destruct (respond env (calls w ++ [Fetch imageUrl None]) (ResponseBlob response))
    as [imageBlob|e] eqn:Hblob.
  2:{ injection E as <- <-.
      exists [Fetch imageUrl None; ResponseBlob response], (Thrown e); repeat split; simpl.
      - by econstructor.
      - by rewrite calls_abort_current, <- app_assoc.
      - apply next_url_abort_current. }
  rewrite eval_await_bind in E.
  rewrite observe_unsignalled in E by reflexivity.
  fold (transform_call imageBlob) in E.
  match type of E with context [reported env ?c ?cb ?w0] =>
    destruct (reported_transform env c w0) as [Hcalls Hnext]; revert E Hcalls Hnext;
    generalize (reported env c cb w0) end.
  intros w3 E.
  change (calls (with_call ?c2 (with_call ?c1 (new_controller (abort_current w)))))
    with ((calls (abort_current w) ++ [c1]) ++ [c2]).
  change (next_url (with_call ?c2 (with_call ?c1 (new_controller (abort_current w)))))
    with (next_url (abort_current w)).
  change (calls (with_call ?c2 (with_call ?c1 (new_controller (abort_current w)))))
    with ((calls (abort_current w) ++ [c1]) ++ [c2]) in E.
  rewrite calls_abort_current, next_url_abort_current, <- !app_assoc.
  rewrite calls_abort_current, <- !app_assoc in E. simpl in E |- *.
  intros Hcalls Hnext.
  eexists _, _; split; [eapply attempt_transform_settled; eauto|].
  destruct (respond env _ (transform_call imageBlob)) as [v|e].
  - simpl in E. injection E as <- <-. simpl. by rewrite Hnext.
  - injection E as <- <-. auto.
Qed.

(** *** The whole episode *)

(** [processImage] makes the calls of an [episode] and settles with the
    result of its end. *)
Lemma eval_processImage (env : Env) (imageUrl : Url) (retryCount : nat) :
  forall w, exists l r,
    episode env imageUrl retryCount (calls w) l r
    /\ calls (eval env (processImage imageUrl retryCount) w).1 = calls w ++ l
    /\ (eval env (processImage imageUrl retryCount) w).2
       = episode_result imageUrl (next_url w) r.
Proof.
  funelim (processImage imageUrl retryCount); intros w.
  { exists [], ended_exhausted; simpl; rewrite app_nil_r; repeat split; by constructor. }
  clear Heqcall Heq.
  rename l0 into Hlt.
  rewrite eval_try_catch.
  destruct (eval_processImage_try env imageUrl w) as (a & r & Hatt & Hcalls & Hres).
  destruct (eval env (processImage_try imageUrl) w) as [w1 r1]; cbn [fst snd] in Hcalls, Hres.
  destruct r as [v|e].
  { subst r1. exists a, ended_transformed; repeat split; auto. by econstructor. }
  destruct Hres as [-> Hnext]. cbv beta iota.
  destruct (is_AbortError e) eqn:Habort.
  { exists a, ended_aborted; repeat split; auto. by econstructor. }
  rewrite eval_exec_bind.
  apply Nat.ltb_lt in Hlt as Hltb; rewrite Hltb.
  unfold await; rewrite eval_await_bind.
  rewrite reported_plain, observe_timer by reflexivity.
  match goal with IH : JsError -> _ |- _ =>
    destruct (IH e tt 0 env (with_call (SetTimeout (backoff retryCount)) (with_console e w1)))
      as (l & r & Hep & Hcalls' & Hres') end.
  simpl in Hep, Hcalls', Hres'. rewrite Hcalls in Hep, Hcalls'. rewrite Hnext in Hres'.
  rewrite <- !app_assoc in Hep.
  exists (a ++ SetTimeout (backoff retryCount) :: l), r; repeat split; auto.
  - eapply episode_retried; eauto.
    replace (S retryCount) with (retryCount + 1) by lia. exact Hep.
  - by rewrite Hcalls', <- !app_assoc.
Qed.

(** ** Shape of an episode's trace *)

Lemma attempt_shape (env : Env) (h : list call) (imageUrl : Url) (a : list call)
    (r : result nat) :
  attempt env h imageUrl a r ->
  delays a = [] /\ length (filter is_fetch a) = 1
  /\ (forall i ms, a !! i <> Some (SetTimeout ms)).
Proof.
  destruct 1; repeat split; try reflexivity;
    intros [|[|[|i]]] ms; unfold transform_call; simpl; try congruence;
    rewrite lookup_nil; congruence.
Qed.

Lemma attempt_functional (env : Env) (h : list call) (imageUrl : Url) (a1 a2 : list call)
    (r1 r2 : result nat) :
  attempt env h imageUrl a1 r1 -> attempt env h imageUrl a2 r2 -> a1 = a2 /\ r1 = r2.
Proof.
  intros H1 H2; destruct H1; inversion H2; subst; try congruence.
  - split; congruence.
  - assert (response0 = response) by congruence; subst. split; congruence.
  - assert (response0 = response) by congruence; subst.
    assert (imageBlob0 = imageBlob) by congruence; subst. auto.
Qed.

Lemma delays_app (l1 l2 : list call) : delays (l1 ++ l2) = delays l1 ++ delays l2.
Proof. unfold delays; apply omap_app. Qed.

Lemma episode_delays (env : Env) (imageUrl : Url) (retryCount : nat) (h l : list call)
    (r : episode_end) :
  episode env imageUrl retryCount h l r ->
  exists n, n <= SETTINGS.processing.maxRetries - retryCount
            /\ delays l = map backoff (seq retryCount n).
Proof.
  induction 1 as [rc h Hge|rc h a v Hlt Ha|rc h a e Hlt Ha Hab|rc h a l e r Hlt Ha Hab Hep IH].
  - exists 0; split; [lia|reflexivity].
  - exists 0; split; [lia|]. by destruct (attempt_shape _ _ _ _ _ Ha) as (-> & _).
  - exists 0; split; [lia|]. by destruct (attempt_shape _ _ _ _ _ Ha) as (-> & _).
  - destruct IH as (n & Hn & Hd). exists (S n); split; [lia|].
    rewrite delays_app. destruct (attempt_shape _ _ _ _ _ Ha) as (-> & _).
    simpl. by rewrite Hd.
Qed.

Lemma episode_timer_position (env : Env) (imageUrl : Url) (retryCount : nat)
    (h l : list call) (r : episode_end) :
  episode env imageUrl retryCount h l r ->
  forall i ms, l !! i = Some (SetTimeout ms) ->
    length (filter is_fetch (take i l)) = S (length (delays (take i l))).
Proof.
  induction 1 as [rc h Hge|rc h a v Hlt Ha|rc h a e Hlt Ha Hab|rc h a l e r Hlt Ha Hab Hep IH];
    intros i ms Hi.
  - done.
  - by destruct (attempt_shape _ _ _ _ _ Ha) as (_ & _ & Hno); apply Hno in Hi.
  - by destruct (attempt_shape _ _ _ _ _ Ha) as (_ & _ & Hno); apply Hno in Hi.
  - destruct (attempt_shape _ _ _ _ _ Ha) as (Hd & Hf & Hno).
    destruct (decide (i < length a)) as [Hlt'|Hge].
    { rewrite lookup_app_l in Hi by done. by apply Hno in Hi. }
    rewrite lookup_app_r in Hi by lia.
    rewrite take_app_ge by lia.
    rewrite filter_app, delays_app, !length_app, Hf, Hd.
    destruct (i - length a) as [|i'] eqn:Hi'; simpl in *; [done|].
    rewrite filter_cons_False by (simpl; auto).
    apply IH in Hi. rewrite Hi. done.
Qed.

Lemma attempt_head (env : Env) (h : list call) (imageUrl : Url) (a : list call)
    (r : result nat) :
  attempt env h imageUrl a r ->
  exists a', a = Fetch imageUrl None :: a' /\ Forall (fun c => is_fetch c = false) a'.
Proof.
  destruct 1; eexists; (split; [reflexivity|]); repeat constructor.
Qed.

(** Every attempt of an episode but the first begins right after a timer,
    and that timer is the backoff of the attempts made before it. *)
Lemma episode_fetch_after_delay (env : Env) (imageUrl : Url) (retryCount : nat)
    (h l : list call) (r : episode_end) :
  episode env imageUrl retryCount h l r ->
  forall i c, l !! i = Some c -> is_fetch c = true ->
    i = 0 /\ filter is_fetch (take i l) = []
    \/ exists k i', length (filter is_fetch (take i l)) = S k /\ i = S i'
                    /\ l !! i' = Some (SetTimeout (backoff (retryCount + k))).
Proof.
  assert (Hatt : forall h a r0 i c, attempt env h imageUrl a r0 ->
                   a !! i = Some c -> is_fetch c = true -> i = 0).
  { intros h0 a r0 i c Ha Hi Hc. destruct (attempt_head _ _ _ _ _ Ha) as (a' & -> & Hno).
    destruct i as [|i]; [done|]. simpl in Hi.
    pose proof (Forall_lookup_1 _ _ _ _ Hno Hi) as Hf. simpl in Hf. congruence. }
  induction 1 as [rc h Hge|rc h a v Hlt Ha|rc h a e Hlt Ha Hab|rc h a l e r Hlt Ha Hab Hep IH];
    intros i c Hi Hc.
  - done.
  - left. by rewrite (Hatt _ _ _ _ _ Ha Hi Hc).
  - left. by rewrite (Hatt _ _ _ _ _ Ha Hi Hc).
  - destruct (decide (i < length a)) as [Hlt'|Hge].
    { rewrite lookup_app_l in Hi by done. left. by rewrite (Hatt _ _ _ _ _ Ha Hi Hc). }
    rewrite lookup_app_r in Hi by lia. right.
    destruct (attempt_shape _ _ _ _ _ Ha) as (_ & Hf & _).
    destruct (i - length a) as [|j] eqn:Hj; simpl in Hi; [by simplify_eq|].
    assert (Hi' : i = S (length a + j)) by lia. subst i.
    assert (Htake : take (S (length a + j)) (a ++ SetTimeout (backoff rc) :: l)
                    = a ++ SetTimeout (backoff rc) :: take j l).
    { rewrite take_app_ge by lia.
      by replace (S (length a + j) - length a) with (S j) by lia. }
    rewrite Htake, filter_app, filter_cons_False by (simpl; auto).
    rewrite length_app, Hf.
    destruct (IH j c Hi Hc) as [[-> Hnil]|(k & j' & Hk & -> & Hprev)].
    + exists 0, (length a). rewrite Hnil. simpl. split; [done|]. split; [lia|].
      rewrite lookup_app_r by lia. rewrite Nat.sub_diag. simpl.
      by rewrite Nat.add_0_r.
    + exists (S k), (length a + S j'). rewrite Hk. split; [done|]. split; [lia|].
      rewrite lookup_app_r by lia.
      replace (length a + S j' - length a) with (S j') by lia. simpl.
      rewrite Hprev. by rewrite Nat.add_succ_r.
Qed.

(** Every failed attempt is followed by its delay: an episode that returns
    has made one attempt more than it has awaited delays; an episode that
    throws has awaited a delay after each of its attempts. *)
Lemma episode_counts (env : Env) (imageUrl : Url) (retryCount : nat)
    (h l : list call) (r : episode_end) :
  episode env imageUrl retryCount h l r ->
  match r with
  | ended_exhausted =>
      length (filter is_fetch l) = length (delays l)
      /\ delays l = map backoff (seq retryCount (SETTINGS.processing.maxRetries - retryCount))
  | _ => length (filter is_fetch l) = S (length (delays l))
  end.
Proof.
  induction 1 as [rc h Hge|rc h a v Hlt Ha|rc h a e Hlt Ha Hab|rc h a l e r Hlt Ha Hab Hep IH].
  - replace (SETTINGS.processing.maxRetries - rc) with 0 by lia. by split.
  - destruct (attempt_shape _ _ _ _ _ Ha) as (-> & -> & _). done.
  - destruct (attempt_shape _ _ _ _ _ Ha) as (-> & -> & _). done.
  - destruct (attempt_shape _ _ _ _ _ Ha) as (Hd & Hf & _).
    rewrite filter_app, filter_cons_False by (simpl; auto).
    rewrite delays_app, Hd, length_app, Hf. simpl.
    destruct r; try (by rewrite IH).
    destruct IH as [IH1 IH2]. split; [by rewrite IH1|]. rewrite IH2.
    replace (SETTINGS.processing.maxRetries - rc)
      with (S (SETTINGS.processing.maxRetries - S rc)) by lia.
    done.
Qed.

Lemma attempt_rejection (env : Env) (h : list call) (imageUrl : Url) (a : list call)
    (r : result nat) (i : nat) (c : call) (e : JsError) :
  attempt env h imageUrl a r ->
  a !! i = Some c -> respond env (h ++ take i a) c = Rejected e ->
  S i = length a /\ r = Thrown e.
Proof.
  intros Ha Hi Hrej.
  destruct Ha as [e0 Hf|response e0 Hf Hb|response imageBlob o Hf Hb Ht].
  - destruct i as [|i]; simpl in Hi; [|by rewrite lookup_nil in Hi].
    injection Hi as <-. simpl in Hrej. rewrite app_nil_r in Hrej. split; [done|congruence].
  - destruct i as [|[|i]]; simpl in Hi; [| |by rewrite lookup_nil in Hi];
      injection Hi as <-; simpl in Hrej.
    + rewrite app_nil_r in Hrej. congruence.
    + split; [done|congruence].
  - destruct i as [|[|[|i]]]; simpl in Hi; [| | |by rewrite lookup_nil in Hi];
      injection Hi as <-; simpl in Hrej.
    + rewrite app_nil_r in Hrej. congruence.
    + congruence.
    + rewrite Hrej in Ht. subst o. done.
Qed.

(** A call of an attempt that is rejected with an error other than an
    [AbortError] is followed at once by the backoff timer. *)
Lemma episode_delay_after_failure (env : Env) (imageUrl : Url) (retryCount : nat)
    (h l : list call) (r : episode_end) :
  episode env imageUrl retryCount h l r ->
  forall i c e, l !! i = Some c -> is_timer c = false ->
    respond env (h ++ take i l) c = Rejected e -> is_AbortError e = false ->
    l !! S i = Some (SetTimeout (backoff (retryCount + length (delays (take i l))))).
Proof.
  induction 1 as [rc h Hge|rc h a v Hlt Ha|rc h a e0 Hlt Ha Hab|rc h a l e0 r Hlt Ha Hab Hep IH];
    intros i c e Hi Hc Hrej Hne.
  - done.
  - by destruct (attempt_rejection _ _ _ _ _ _ _ _ Ha Hi Hrej) as [_ ?].
  - destruct (attempt_rejection _ _ _ _ _ _ _ _ Ha Hi Hrej) as [_ [= ->]]. congruence.
  - destruct (attempt_shape _ _ _ _ _ Ha) as (Hd & _ & _).
    destruct (decide (i < length a)) as [Hlt'|Hge].
    + rewrite lookup_app_l in Hi by done.
      rewrite take_app_le in Hrej |- * by lia.
      destruct (attempt_rejection _ _ _ _ _ _ _ _ Ha Hi Hrej) as [Hlast _].
      rewrite lookup_app_r by lia. rewrite Hlast, Nat.sub_diag. simpl.
      assert (Hdt : delays (take i a) = []).
      { assert (E : delays a = delays (take i a) ++ delays (drop i a))
          by (by rewrite <- delays_app, take_drop).
        rewrite Hd in E. symmetry in E. by apply app_eq_nil in E as [? _]. }
      by rewrite Hdt, Nat.add_0_r.
    + rewrite lookup_app_r in Hi by lia.
      destruct (i - length a) as [|j] eqn:Hj; simpl in Hi.
      { injection Hi as <-. done. }
      assert (Hi' : i = S (length a + j)) by lia. subst i.
      assert (Htake : take (S (length a + j)) (a ++ SetTimeout (backoff rc) :: l)
                      = a ++ SetTimeout (backoff rc) :: take j l).
      { rewrite take_app_ge by lia.
        by replace (S (length a + j) - length a) with (S j) by lia. }
      rewrite Htake in Hrej |- *.
      rewrite delays_app, Hd. simpl.
      assert (Hrej' : respond env ((h ++ a ++ [SetTimeout (backoff rc)]) ++ take j l) c
                      = Rejected e).
      { rewrite <- Hrej. f_equal. by rewrite <- !app_assoc. }
      pose proof (IH j c e Hi Hc Hrej' Hne) as Hnext.
      rewrite lookup_app_r by lia.
      replace (S (S (length a + j)) - length a) with (S (S j)) by lia. simpl.
      rewrite Hnext. by rewrite Nat.add_succ_r.
Qed.

(** C7.  In every processing episode each attempt after the first begins
    right after a timer, and the timer awaited before attempt [k + 1] --
    that is, after [k + 1] attempts have begun, [k] from 0 -- is
    [retryDelay * 2^k] with [retryDelay] = 1000: the call just before the
    fetch that opens attempt [k + 1] is that timer.  A delay follows every
    failed attempt: an episode that returns has made one attempt more than
    it has awaited delays, and an episode that ends with 'Max retries
    exceeded' has awaited 1000, 2000 and 4000, the last one before the
    attempt that is refused.  The timers awaited are, in order,
    [retryDelay * 2^0], [retryDelay * 2^1], ..., at most [maxRetries] of
    them, and there are no others.  Whenever a call of an attempt is
    rejected with an error that is not an [AbortError], the very next call
    is the timer [retryDelay * 2^k], [k] being the number of delays awaited
    before.  Against a transform that fails twice and then succeeds the
    calls are three attempts separated by the delays 1000 and 2000. *)
Theorem backoff_delay_doubles (env : Env) (imageUrl : Url) (w : World) :
  (exists n, n <= SETTINGS.processing.maxRetries
             /\ delays (episode_calls env imageUrl w)
                = map (fun k => (1000 * 2 ^ Z.of_nat k)%Z) (seq 0 n))
  /\ (forall i ms, episode_calls env imageUrl w !! i = Some (SetTimeout ms) ->
        exists k, length (delays (take i (episode_calls env imageUrl w))) = k
                  /\ length (filter is_fetch (take i (episode_calls env imageUrl w))) = k + 1
                  /\ k < SETTINGS.processing.maxRetries
                  /\ ms = (SETTINGS.processing.retryDelay * 2 ^ Z.of_nat k)%Z)
  /\ (forall i c, episode_calls env imageUrl w !! i = Some c -> is_fetch c = true ->
        i = 0 /\ filter is_fetch (take i (episode_calls env imageUrl w)) = []
        \/ exists k i',
             length (filter is_fetch (take i (episode_calls env imageUrl w))) = S k
             /\ i = S i'
             /\ episode_calls env imageUrl w !! i'
                = Some (SetTimeout (SETTINGS.processing.retryDelay * 2 ^ Z.of_nat k)%Z))
  /\ match (eval env (processImage imageUrl 0) w).2 with
     | Returned _ =>
         length (filter is_fetch (episode_calls env imageUrl w))
         = S (length (delays (episode_calls env imageUrl w)))
     | Thrown e =>
         e = max_retries_exceeded ->
         delays (episode_calls env imageUrl w) = [1000; 2000; 4000]%Z
         /\ length (filter is_fetch (episode_calls env imageUrl w)) = 3
     end
  /\ (forall i c e,
        episode_calls env imageUrl w !! i = Some c -> is_timer c = false ->
        respond env (calls w ++ take i (episode_calls env imageUrl w)) c = Rejected e ->
        is_AbortError e = false ->
        episode_calls env imageUrl w !! S i
        = Some (SetTimeout
                  (SETTINGS.processing.retryDelay
                   * 2 ^ Z.of_nat (length (delays (take i (episode_calls env imageUrl w)))))%Z))
  /\ episode_calls flaky_env (BlobUrl 0) (uploaded_world 1)
     = [Fetch (BlobUrl 0) None; ResponseBlob 7; transform_call 7; SetTimeout 1000;
        Fetch (BlobUrl 0) None; ResponseBlob 7; transform_call 7; SetTimeout 2000;
        Fetch (BlobUrl 0) None; ResponseBlob 7; transform_call 7].
Proof.
  destruct (eval_processImage env imageUrl 0 w) as (l & r & Hep & Hcalls & Hres).
  assert (Hl : episode_calls env imageUrl w = l).
  { unfold episode_calls. rewrite Hcalls. apply drop_app_length. }
  rewrite Hl.
  destruct (episode_delays _ _ _ _ _ _ Hep) as (n & Hn & Hd).
  split.
  { exists n; split; [lia|]. exact Hd. }
  split.
  { intros i ms Hi.
    pose proof (episode_timer_position _ _ _ _ _ _ Hep i ms Hi) as Hpos.
    assert (Hsplit : delays l = delays (take i l) ++ ms :: delays (drop (S i) l)).
    { rewrite <- (take_drop_middle l i _ Hi) at 1. by rewrite delays_app. }
    exists (length (delays (take i l))); repeat split; [lia| |].
    - assert (Hle : S (length (delays (take i l))) <= length (delays l)).
      { rewrite Hsplit, length_app. simpl. lia. }
      rewrite Hd, length_map, length_seq in Hle. lia.
    - assert (Hk : delays l !! length (delays (take i l)) = Some ms).
      { rewrite Hsplit, lookup_app_r by lia. by rewrite Nat.sub_diag. }
      rewrite Hd in Hk. rewrite list_lookup_fmap in Hk.
      destruct (seq 0 n !! length (delays (take i l))) as [k|] eqn:Hseq; [|done].
      apply lookup_seq in Hseq as [-> _]. simpl in Hk. by injection Hk as <-. }
  split.
  { intros i c Hi Hc. exact (episode_fetch_after_delay _ _ _ _ _ _ Hep i c Hi Hc). }
  split.
  { rewrite Hres. pose proof (episode_counts _ _ _ _ _ _ Hep) as Hcount.
    destruct r; simpl; try done.
    intros _. destruct Hcount as [Hf Hdel]. rewrite Hf, Hdel. by vm_compute. }
  split; [|by vm_compute].
  intros i c e Hi Hc Hrej Hne.
  exact (episode_delay_after_failure _ _ _ _ _ _ Hep i c e Hi Hc Hrej Hne).
Qed.

(** ** handleSingleProcess against an arbitrary environment *)

Lemma images_record_completed (i : nat) (u : Url) (w : World) :
  images (record_completed i u w) = map_at i (set_completed u) (images w).
Proof.
  unfold record_completed. destruct (images w !! i) as [img|]; [|reflexivity].
  unfold cleanup. destruct (processed img) as [p|]; [|reflexivity].
  destruct (startsWith_blob p); reflexivity.
Qed.

Lemma calls_record_completed (i : nat) (u : Url) (w : World) :
  calls (record_completed i u w) = calls w.
Proof.
  unfold record_completed. destruct (images w !! i) as [img|]; [|reflexivity].
  unfold cleanup. destruct (processed img) as [p|]; [|reflexivity].
  destruct (startsWith_blob p); reflexivity.
Qed.

#[local] Arguments record_completed : simpl never.
#[local] Arguments cleanup : simpl never.

(** [handleSingleProcess] runs one episode on the current image and always
    returns; it records the result of the episode's end. *)
Lemma eval_handleSingleProcess (env : Env) (w : World) (i : nat) (img : ProcessedImage) :
  images w !! i = Some img ->
  exists l r,
    episode env (original img) 0 (calls w) l r
    /\ (eval env (handleSingleProcess (images w) i false) w).2 = Returned tt
    /\ calls (eval env (handleSingleProcess (images w) i false) w).1 = calls w ++ l
    /\ images (eval env (handleSingleProcess (images w) i false) w).1
       = single_outcome i img (next_url w) r (images w).
Proof.
  intros Himg. unfold handleSingleProcess. rewrite Himg.
  rewrite !eval_exec_bind, eval_try_finally, eval_try_catch, eval_mbind.
  set (w0 := setProgress site_reset 0%Z (with_isProcessing true w)).
  destruct (eval_processImage env (original img) 0 w0) as (l & r & Hep & Hcalls & Hres).
  pose proof (eval_sound process_frame process_frame_refl process_frame_trans
                process_frame_call env _ w0 (processImage_frame (original img) 0)) as Hfr.
  destruct (eval env (processImage (original img) 0) w0) as [w1 r1].
  cbn [fst snd] in Hcalls, Hres, Hfr. subst r1.
  change (calls w0) with (calls w) in Hep, Hcalls.
  change (next_url w0) with (next_url w) in *.
  pose proof (frame_images _ _ Hfr) as Himgs. change (images w0) with (images w) in Himgs.
  exists l, r; split; [exact Hep|].
  destruct r; cbn [episode_result single_outcome]; cbv beta iota;
    rewrite ?eval_exec_bind, ?eval_exec; world_simpl;
    rewrite ?images_record_completed, ?calls_record_completed, ?Himgs; auto.
Qed.

Lemma transform_calls_app (l1 l2 : list call) :
  transform_calls (l1 ++ l2) = transform_calls l1 + transform_calls l2.
Proof. unfold transform_calls. by rewrite filter_app, length_app. Qed.

Lemma transform_calls_timer (ms : Z) (l : list call) :
  transform_calls (SetTimeout ms :: l) = transform_calls l.
Proof. unfold transform_calls. by rewrite filter_cons_False by (simpl; auto). Qed.

Lemma lookup_map_at (i : nat) (f : ProcessedImage -> ProcessedImage)
    (l : list ProcessedImage) (j : nat) :
  map_at i f l !! j = (if Nat.eqb j i then f else id) <$> l !! j.
Proof.
  unfold map_at. rewrite list_lookup_imap.
  destruct (l !! j); simpl; [|done]. by destruct (Nat.eqb j i).
Qed.

Lemma lookup_map_at_eq (i : nat) (f : ProcessedImage -> ProcessedImage)
    (l : list ProcessedImage) :
  map_at i f l !! i = f <$> l !! i.
Proof. by rewrite lookup_map_at, Nat.eqb_refl. Qed.

Lemma length_map_at (i : nat) (f : ProcessedImage -> ProcessedImage)
    (l : list ProcessedImage) :
  length (map_at i f l) = length l.
Proof. apply length_imap. Qed.

(** ** Scenario C: the transform always fails *)

Lemma attempt_always_fails (env : Env) (h : list call) (imageUrl : Url) (a : list call)
    (r : result nat) :
  source_readable env -> transform_always_fails env ->
  attempt env h imageUrl a r ->
  transform_calls a = 1 /\ exists e, r = Thrown e /\ is_AbortError e = false.
Proof.
  intros [Hfetch Hblob] Hfail Ha. destruct Ha as [e He|response e Hr He|response b o Hr Hb Ho].
  - destruct (Hfetch h imageUrl None) as [v Hv]. congruence.
  - destruct (Hblob (h ++ [Fetch imageUrl None]) response) as [v Hv]. congruence.
  - split; [reflexivity|].
    destruct (Hfail (h ++ [Fetch imageUrl None; ResponseBlob response]) b) as (e & He & Hab).
    exists e. rewrite He in Ho; subst o. split; done.
Qed.

Lemma episode_always_fails (env : Env) (imageUrl : Url) (retryCount : nat) (h l : list call)
    (r : episode_end) :
  source_readable env -> transform_always_fails env ->
  episode env imageUrl retryCount h l r ->
  r = ended_exhausted
  /\ transform_calls l = SETTINGS.processing.maxRetries - retryCount.
Proof.
  intros Hread Hfail.
  induction 1 as [rc h Hge|rc h a v Hlt Ha|rc h a e Hlt Ha Hab|rc h a l e r Hlt Ha Hab Hep IH].
  - split; [done|]. unfold transform_calls; simpl. lia.
  - destruct (attempt_always_fails _ _ _ _ _ Hread Hfail Ha) as (_ & e & ? & _). done.
  - destruct (attempt_always_fails _ _ _ _ _ Hread Hfail Ha) as (_ & e' & ? & ?). congruence.
  - destruct (attempt_always_fails _ _ _ _ _ Hread Hfail Ha) as (Hone & _).
    destruct IH as [-> Hn]. split; [done|].
    rewrite transform_calls_app, Hone, transform_calls_timer, Hn. lia.
Qed.

(** C3. When the source can be read and the transform always fails with a
    retryable error, [handleSingleProcess] returns after an episode of
    exactly [maxRetries] = 3 transform calls (so there is no 4th) and leaves
    the Job in status [failed]. *)
Theorem always_failing_transform_fails_after_three_calls (env : Env) (w : World) (i : nat)
    (img : ProcessedImage) :
  source_readable env ->
  transform_always_fails env ->
  images w !! i = Some img ->
  exists l,
    eval env (handleSingleProcess (images w) i false) w
      = ((eval env (handleSingleProcess (images w) i false) w).1, Returned tt)
    /\ calls (eval env (handleSingleProcess (images w) i false) w).1 = calls w ++ l
    /\ transform_calls l = 3
    /\ status <$> images (eval env (handleSingleProcess (images w) i false) w).1 !! i
       = Some failed.
Proof.
  intros Hread Hfail Himg.
  destruct (eval_handleSingleProcess env w i img Himg) as (l & r & Hep & Hret & Hcalls & Himgs).
  destruct (episode_always_fails _ _ _ _ _ _ Hread Hfail Hep) as [-> Hn].
  exists l. repeat split; auto.
  - destruct (eval env (handleSingleProcess (images w) i false) w); simpl in *; congruence.
  - rewrite Himgs. simpl. by rewrite lookup_map_at_eq, Himg.
Qed.

Lemma always_failing_transform_witness :
  exists l,
    eval failing_env (handleSingleProcess (images (uploaded_world 1)) 0 false) (uploaded_world 1)
      = ((eval failing_env (handleSingleProcess (images (uploaded_world 1)) 0 false)
            (uploaded_world 1)).1, Returned tt)
    /\ calls (eval failing_env (handleSingleProcess (images (uploaded_world 1)) 0 false)
                (uploaded_world 1)).1 = calls (uploaded_world 1) ++ l
    /\ transform_calls l = 3
    /\ status <$> images (eval failing_env
                            (handleSingleProcess (images (uploaded_world 1)) 0 false)
                            (uploaded_world 1)).1 !! 0
       = Some failed.
Proof.
  apply (always_failing_transform_fails_after_three_calls failing_env (uploaded_world 1) 0
           (uploaded_image 0)).
  - split; intros; eexists; reflexivity.
  - intros h b; exists transform_error; split; reflexivity.
  - reflexivity.
Defined.

(** ** Determinism of episodes *)

Lemma episode_functional (env : Env) (imageUrl : Url) (retryCount : nat) (h l1 l2 : list call)
    (r1 r2 : episode_end) :
  episode env imageUrl retryCount h l1 r1 ->
  episode env imageUrl retryCount h l2 r2 ->
  l1 = l2 /\ r1 = r2.
Proof.
  intros H1; revert l2 r2.
  induction H1 as [rc h Hge|rc h a v Hlt Ha|rc h a e Hlt Ha Hab|rc h a l e r Hlt Ha Hab Hep IH];
    intros l2 r2 H2; inversion H2; subst; try lia;
    try (match goal with
         | Ha' : attempt _ _ _ ?a' _ |- _ =>
             destruct (attempt_functional _ _ _ _ _ _ _ Ha Ha') as [? Heq]; subst a'
         end; try congruence).
  all: try done.
  match goal with Hep' : episode _ _ (S _) _ ?l0 _ |- _ = _ ++ _ :: ?l0 /\ _ =>
    apply IH in Hep' as [-> ->] end.
  done.
Qed.

(** When the source can be read, every attempt reaches the transform. *)
Lemma attempt_readable (env : Env) (h : list call) (imageUrl : Url) (a : list call)
    (r : result nat) :
  source_readable env ->
  attempt env h imageUrl a r ->
  exists response imageBlob,
    a = [Fetch imageUrl None; ResponseBlob response; transform_call imageBlob]
    /\ r = match respond env (h ++ [Fetch imageUrl None; ResponseBlob response])
                   (transform_call imageBlob) with
           | Resolved v => Returned v
           | Rejected e => Thrown e
           end.
Proof.
  intros [Hfetch Hblob] Ha. destruct Ha as [e He|response e Hr He|response b o Hr Hb Ho].
  - destruct (Hfetch h imageUrl None) as [v Hv]. congruence.
  - destruct (Hblob (h ++ [Fetch imageUrl None]) response) as [v Hv]. congruence.
  - exists response, b. by subst o.
Qed.

(** ** Scenario B: the transform fails twice, then succeeds *)

Lemma episode_fails_twice_then_succeeds (env : Env) (imageUrl : Url) (h0 : list call)
    (retryCount : nat) (h l : list call) (r : episode_end) :
  source_readable env ->
  transform_fails_twice_then_succeeds env h0 ->
  episode env imageUrl retryCount h l r ->
  forall h', h = h0 ++ h' -> transform_calls h' = retryCount -> retryCount <= 2 ->
    r = ended_transformed
    /\ transform_calls l = 3 - retryCount
    /\ delays l = map backoff (seq retryCount (2 - retryCount)).
Proof.
  intros Hread [Hfail Hok].
  induction 1 as [rc h Hge|rc h a v Hlt Ha|rc h a e Hlt Ha Hab|rc h a l e r Hlt Ha Hab Hep IH];
    intros h' -> Hcount Hle.
  - unfold SETTINGS.processing.maxRetries in Hge. lia.
  - destruct (attempt_readable _ _ _ _ _ Hread Ha) as (response & b & -> & Hr).
    rewrite <- app_assoc in Hr.
    destruct (decide (rc = 2)) as [->|Hne].
    + done.
    + destruct (Hfail (h' ++ [Fetch imageUrl None; ResponseBlob response]) b) as (e & He & _).
      { rewrite transform_calls_app. unfold transform_calls at 2; simpl. lia. }
      rewrite He in Hr. done.
  - destruct (attempt_readable _ _ _ _ _ Hread Ha) as (response & b & -> & Hr).
    rewrite <- app_assoc in Hr.
    destruct (decide (rc = 2)) as [->|Hne].
    + destruct (Hok (h' ++ [Fetch imageUrl None; ResponseBlob response]) b) as (v & Hv).
      { rewrite transform_calls_app. unfold transform_calls at 2; simpl. lia. }
      rewrite Hv in Hr. done.
    + destruct (Hfail (h' ++ [Fetch imageUrl None; ResponseBlob response]) b) as (e' & He & Hab').
      { rewrite transform_calls_app. unfold transform_calls at 2; simpl. lia. }
      rewrite He in Hr. congruence.
  - destruct (attempt_readable _ _ _ _ _ Hread Ha) as (response & b & -> & Hr).
    rewrite <- app_assoc in Hr.
    destruct (decide (rc = 2)) as [->|Hne].
    { destruct (Hok (h' ++ [Fetch imageUrl None; ResponseBlob response]) b) as (v & Hv).
      { rewrite transform_calls_app. unfold transform_calls at 2; simpl. lia. }
      rewrite Hv in Hr. done. }
    destruct (IH (h' ++ [Fetch imageUrl None; ResponseBlob response; transform_call b]
                  ++ [SetTimeout (backoff rc)])) as (-> & Hn & Hd).
    { by rewrite <- !app_assoc. }
    { rewrite transform_calls_app. unfold transform_calls at 2; simpl. lia. }
    { lia. }
    split; [done|]. split.
    + rewrite transform_calls_app, transform_calls_timer, Hn.
      unfold transform_calls at 1; simpl. lia.
    + rewrite delays_app. simpl. rewrite Hd.
      replace (2 - rc) with (S (2 - S rc)) by lia. reflexivity.
Qed.

(** C9, as the code has it.  When the source can be read and the transform
    fails twice and then succeeds, [handleSingleProcess] returns after an
    episode of exactly 3 transform calls, separated by the delays 1000 and
    2000, and records the Job as [completed] with the output of the third
    call; every other field of the Job, its [retries] counter among them,
    is left as it was. *)
Theorem flaky_transform_completes_on_third_call (env : Env) (w : World) (i : nat)
    (img : ProcessedImage) :
  source_readable env ->
  transform_fails_twice_then_succeeds env (calls w) ->
  images w !! i = Some img ->
  exists l,
    (eval env (handleSingleProcess (images w) i false) w).2 = Returned tt
    /\ calls (eval env (handleSingleProcess (images w) i false) w).1 = calls w ++ l
    /\ transform_calls l = 3
    /\ delays l = [1000; 2000]%Z
    /\ images (eval env (handleSingleProcess (images w) i false) w).1 !! i
       = Some (mkImage (original img) (preview img) (Some (BlobUrl (next_url w))) (name img)
                 completed (retries img)).
Proof.
  intros Hread Hflaky Himg.
  destruct (eval_handleSingleProcess env w i img Himg) as (l & r & Hep & Hret & Hcalls & Himgs).
  destruct (episode_fails_twice_then_succeeds _ _ _ _ _ _ _ Hread Hflaky Hep [])
    as (-> & Hn & Hd); [by rewrite app_nil_r|done|lia|].
  exists l. repeat split; auto.
  rewrite Himgs. simpl. by rewrite lookup_map_at_eq, Himg.
Qed.

Lemma flaky_transform_witness :
  exists l,
    (eval flaky_env (handleSingleProcess (images (uploaded_world 1)) 0 false)
       (uploaded_world 1)).2 = Returned tt
    /\ calls (eval flaky_env (handleSingleProcess (images (uploaded_world 1)) 0 false)
                (uploaded_world 1)).1 = calls (uploaded_world 1) ++ l
    /\ transform_calls l = 3
    /\ delays l = [1000; 2000]%Z
    /\ images (eval flaky_env (handleSingleProcess (images (uploaded_world 1)) 0 false)
                 (uploaded_world 1)).1 !! 0
       = Some (mkImage (original (uploaded_image 0)) (preview (uploaded_image 0))
                 (Some (BlobUrl (next_url (uploaded_world 1)))) (name (uploaded_image 0))
                 completed (retries (uploaded_image 0))).
Proof.
  apply (flaky_transform_completes_on_third_call flaky_env (uploaded_world 1) 0
           (uploaded_image 0)).
  - split; intros; eexists; reflexivity.
  - split; intros h b Hh.
    + exists transform_error. split; [|reflexivity].
      simpl. apply Nat.ltb_lt in Hh. by rewrite Hh.
    + exists 9. simpl. by rewrite Hh.
  - reflexivity.
Defined.

(** C9, as stated, fails: after the scenario (two failures, then success)
    the Job is [completed] after 3 transform calls, but its recorded
    [retries] counter is 0, not 2. *)
Lemma recorded_attempt_counter_stays_zero :
  ~ (transform_calls
       (calls (eval flaky_env (handleSingleProcess (images (uploaded_world 1)) 0 false)
                 (uploaded_world 1)).1) = 3
     /\ status <$> images (eval flaky_env
                             (handleSingleProcess (images (uploaded_world 1)) 0 false)
                             (uploaded_world 1)).1 !! 0 = Some completed
     /\ retries <$> images (eval flaky_env
                              (handleSingleProcess (images (uploaded_world 1)) 0 false)
                              (uploaded_world 1)).1 !! 0 = Some 2).
Proof. vm_compute. intros (_ & _ & H). discriminate H. Qed.

(** ** The cancellation path *)

(** C1, as the code has it.  When an episode ends because a call of an
    attempt is rejected with an [AbortError], [processImage] makes no
    further call and returns the original URL of the Job as its result;
    [handleSingleProcess] then returns normally, having recorded that URL as
    the Job's [processed] result and marked the Job [completed]. *)
Theorem aborted_episode_is_recorded_as_completed (env : Env) (w : World) (i : nat)
    (img : ProcessedImage) (l : list call) :
  images w !! i = Some img ->
  episode env (original img) 0 (calls w) l ended_aborted ->
  (eval env (processImage (original img) 0) w).2 = Returned (original img)
  /\ (eval env (handleSingleProcess (images w) i false) w).2 = Returned tt
  /\ calls (eval env (handleSingleProcess (images w) i false) w).1 = calls w ++ l
  /\ images (eval env (handleSingleProcess (images w) i false) w).1 !! i
     = Some (mkImage (original img) (preview img) (Some (original img)) (name img)
               completed (retries img)).
Proof.
  intros Himg Hab. split.
  { destruct (eval_processImage env (original img) 0 w) as (l' & r & Hep & _ & ->).
    by destruct (episode_functional _ _ _ _ _ _ _ _ Hab Hep) as [_ <-]. }
  destruct (eval_handleSingleProcess env w i img Himg) as (l' & r & Hep & Hret & Hcalls & Himgs).
  destruct (episode_functional _ _ _ _ _ _ _ _ Hab Hep) as [<- <-].
  repeat split; auto.
  rewrite Himgs. simpl. by rewrite lookup_map_at_eq, Himg.
Qed.

Lemma aborted_episode_witness :
  (eval aborting_env (processImage (original (uploaded_image 0)) 0) (uploaded_world 1)).2
    = Returned (original (uploaded_image 0))
  /\ (eval aborting_env (handleSingleProcess (images (uploaded_world 1)) 0 false)
        (uploaded_world 1)).2 = Returned tt
  /\ calls (eval aborting_env (handleSingleProcess (images (uploaded_world 1)) 0 false)
              (uploaded_world 1)).1
     = calls (uploaded_world 1) ++ [Fetch (BlobUrl 0) None; ResponseBlob 7; transform_call 7]
  /\ images (eval aborting_env (handleSingleProcess (images (uploaded_world 1)) 0 false)
               (uploaded_world 1)).1 !! 0
     = Some (mkImage (original (uploaded_image 0)) (preview (uploaded_image 0))
               (Some (original (uploaded_image 0))) (name (uploaded_image 0))
               completed (retries (uploaded_image 0))).
Proof.
  apply (aborted_episode_is_recorded_as_completed aborting_env (uploaded_world 1) 0
           (uploaded_image 0)).
  - reflexivity.
  - apply (episode_aborted aborting_env (BlobUrl 0) 0 [] _ abort_error).
    + unfold SETTINGS.processing.maxRetries. lia.
    + apply (attempt_transform_settled aborting_env [] (BlobUrl 0) 7 7 (Rejected abort_error));
        reflexivity.
    + reflexivity.
Defined.

(** C1, as stated, fails: when the transform call of a pending Job is
    rejected with an [AbortError], the Job does not stay [pending] without
    a result: it ends [completed], its result being its own original. *)
Lemma aborted_job_does_not_revert_to_pending :
  ~ (status <$> images (eval aborting_env
                          (handleSingleProcess (images (uploaded_world 1)) 0 false)
                          (uploaded_world 1)).1 !! 0 = Some pending
     /\ processed <$> images (eval aborting_env
                                (handleSingleProcess (images (uploaded_world 1)) 0 false)
                                (uploaded_world 1)).1 !! 0 = Some None).
Proof. vm_compute. intros [H _]. discriminate H. Qed.

(** ** Which calls a program makes *)

Create HintDb calls.
#[local] Hint Constructors calls_in : calls.

Lemma calls_in_bind (P : call -> Prop) {A B : Type} (p : prog A) (f : A -> prog B) :
  calls_in P p -> (forall a, calls_in P (f a)) -> calls_in P (bind p f).
Proof. induction 1; intros Hf; simpl; auto with calls. Qed.

Lemma calls_in_mbind (P : call -> Prop) {A B : Type} (p : prog A) (f : A -> prog B) :
  calls_in P p -> (forall a, calls_in P (f a)) -> calls_in P (p ≫= f).
Proof. apply calls_in_bind. Qed.

Lemma calls_in_try_catch (P : call -> Prop) {A : Type} (p : prog A) (h : JsError -> prog A) :
  calls_in P p -> (forall e, calls_in P (h e)) -> calls_in P (try_catch p h).
Proof. induction 1; intros Hh; simpl; auto with calls. Qed.

Lemma calls_in_try_finally (P : call -> Prop) {A : Type} (p : prog A) (fin : World -> World) :
  calls_in P p -> (forall w, calls (fin w) = calls w) -> calls_in P (try_finally p fin).
Proof. induction 1; intros Hf; simpl; auto with calls. Qed.

Lemma calls_in_exec (P : call -> Prop) (f : World -> World) :
  (forall w, calls (f w) = calls w) -> calls_in P (exec f).
Proof. intros; unfold exec; auto with calls. Qed.

Lemma calls_in_await_with (P : call -> Prop) (c : call) (cb : Q -> World -> World) :
  P c -> (forall p w, calls (cb p w) = calls w) -> calls_in P (await_with c cb).
Proof. intros; unfold await_with; constructor; auto. intros []; auto with calls. Qed.

Lemma calls_in_await (P : call -> Prop) (c : call) : P c -> calls_in P (await c).
Proof. intros; apply calls_in_await_with; auto. Qed.

Lemma calls_in_createObjectURL (P : call -> Prop) : calls_in P createObjectURL.
Proof. unfold createObjectURL; constructor; intros; constructor; auto with calls. Qed.

Lemma calls_cleanup (u : option Url) (w : World) : calls (cleanup u w) = calls w.
Proof. unfold cleanup. destruct u as [u|]; [|done]. by destruct (startsWith_blob u). Qed.

#[local] Hint Resolve calls_in_mbind calls_in_try_catch calls_in_try_finally calls_in_exec
  calls_in_await_with calls_in_await calls_in_createObjectURL calls_abort_current
  calls_record_completed calls_cleanup : calls.

Lemma calls_reports (c : call) (cb : Q -> World -> World) (ps : list Q) (w : World) :
  (forall p w, calls (cb p w) = calls w) ->
  calls (foldl (fun w p => report w c cb p) w ps) = calls w.
Proof.
  intros Hcb; revert w; induction ps as [|p ps IH]; intros w; simpl; [done|].
  rewrite IH. unfold report; destruct (is_transform c); auto.
Qed.

(** The calls made by a run are exactly the calls the program awaits. *)
Lemma eval_calls_in (P : call -> Prop) {A : Type} (env : Env) (p : prog A) (w : World) :
  calls_in P p ->
  exists l, calls (eval env p w).1 = calls w ++ l /\ Forall P l.
Proof.
  intros Hp; revert w.
  induction Hp as [a|e|f k Hf Hk IH|k Hk IH|c cb k Hc Hcb Hk IH]; intros w; simpl.
  - exists []; by rewrite app_nil_r.
  - exists []; by rewrite app_nil_r.
  - destruct (IH (f w)) as (l & Hl & HP). exists l. by rewrite Hl, Hf.
  - apply IH.
  - destruct (IH (observe (reported env c cb w) c (respond env (calls w) c))
                 (reported env c cb w)) as (l & Hl & HP).
    exists (c :: l). split; [|by constructor].
    rewrite Hl. unfold reported. rewrite calls_reports by done. simpl.
    by rewrite <- app_assoc.
Qed.

Lemma uninterruptible_unsignalled (c : call) : call_signal c = None -> uninterruptible c.
Proof. intros Hc; split; [done|]. intros w; unfold interrupted; by rewrite Hc. Qed.

Lemma processImage_try_uninterruptible (imageUrl : Url) :
  calls_in uninterruptible (processImage_try imageUrl).
Proof.
  unfold processImage_try.
  repeat (apply calls_in_mbind; [|intros]);
    auto using uninterruptible_unsignalled with calls.
Qed.

Lemma processImage_uninterruptible (imageUrl : Url) (retryCount : nat) :
  calls_in uninterruptible (processImage imageUrl retryCount).
Proof.
  funelim (processImage imageUrl retryCount); [constructor|].
  apply calls_in_try_catch; [apply processImage_try_uninterruptible|].
  intros e. destruct (is_AbortError e); [constructor|].
  apply calls_in_mbind; [auto with calls|intros _].
  destruct (retryCount <? SETTINGS.processing.maxRetries); [|constructor].
  apply calls_in_mbind; [auto using uninterruptible_unsignalled with calls|intros v].
  match goal with IH : JsError -> _ |- _ => exact (IH e tt v) end.
Qed.

Lemma worker_uninterruptible (imageData : Url) (model format : string) (quality : Q) :
  calls_in uninterruptible (worker_onmessage imageData model format quality).
Proof.
  unfold worker_onmessage.
  apply calls_in_try_catch; [|auto with calls].
  repeat (apply calls_in_mbind; [|intros]);
    auto using uninterruptible_unsignalled with calls.
Qed.

(** An attempt throws only what the environment rejected a call with. *)
Lemma attempt_thrown_by_environment (env : Env) (h : list call) (imageUrl : Url)
    (a : list call) (e : JsError) :
  attempt env h imageUrl a (Thrown e) ->
  exists h' c, respond env h' c = Rejected e /\ call_signal c = None.
Proof.
  inversion 1 as [e' He|response e' Hr He|response b o Hr Hb Ho]; subst.
  - by exists h, (Fetch imageUrl None).
  - by exists (h ++ [Fetch imageUrl None]), (ResponseBlob response).
  - exists (h ++ [Fetch imageUrl None; ResponseBlob response]), (transform_call b).
    match goal with Hm : match ?x with _ => _ end = _ |- _ =>
      destruct x; [discriminate Hm|injection Hm as ->] end.
    done.
Qed.

Lemma episode_aborted_by_environment (env : Env) (imageUrl : Url) (retryCount : nat)
    (h l : list call) (r : episode_end) :
  episode env imageUrl retryCount h l r -> r = ended_aborted ->
  exists h' c e, respond env h' c = Rejected e /\ is_AbortError e = true
                 /\ call_signal c = None.
Proof.
  induction 1 as [rc h Hge|rc h a v Hlt Ha|rc h a e Hlt Ha Hab|rc h a l e r Hlt Ha Hab Hep IH];
    intros Hr; try done; [|by apply IH].
  destruct (attempt_thrown_by_environment _ _ _ _ _ Ha) as (h' & c & Hc & Hs).
  by exists h', c, e.
Qed.



(** ** Properties of the worklist kept by every operation *)

Lemma steps_in_weaken (R1 R2 : World -> World -> Prop) {A : Type} (p : prog A) :
  (forall w w', R1 w w' -> R2 w w') -> steps_in R1 p -> steps_in R2 p.
Proof. intros HR; induction 1; constructor; auto. Qed.

Lemma spawn_length {A : Type} (ps : list (prog A)) (w : World) :
  length (spawn ps w).2 = length ps.
Proof.
  revert w; induction ps as [|p ps IH]; intros w; simpl; [done|].
  destruct (advance p w) as [w1 t]. specialize (IH w1).
  destruct (spawn ps w1) as [w2 ts]. simpl in *. by rewrite IH.
Qed.

Section Pool.
Variable R : World -> World -> Prop.
Hypothesis R_refl : forall w, R w w.
Hypothesis R_trans : forall w1 w2 w3, R w1 w2 -> R w2 w3 -> R w1 w3.
Hypothesis R_call : forall c w, R w (with_call c w).

Lemma spawn_sound {A : Type} (ps : list (prog A)) (w : World) :
  Forall (steps_in R) ps ->
  R w (spawn ps w).1 /\ Forall (task_steps_in R) (spawn ps w).2.
Proof.
  intros Hps; revert w; induction Hps as [|p ps Hp Hps IH]; intros w; simpl; [by split|].
  pose proof (advance_sound R R_refl R_trans R_call p w Hp) as Hw.
  pose proof (advance_task_steps R p w Hp) as Ht.
  destruct (advance p w) as [w1 t]. destruct (IH w1) as [Hw2 Hts].
  destruct (spawn ps w1) as [w2 ts]. simpl in *. split; eauto.
Qed.

Lemma settle_sound {A : Type} (w : World) (c : call) (cb : Q -> World -> World)
    (k : outcome -> prog A) (o : outcome) :
  task_steps_in R (Suspended c cb k) ->
  R w (settle w c k o).1 /\ task_steps_in R (settle w c k o).2.
Proof.
  intros [_ Hk]. unfold settle. split.
  - by apply advance_sound.
  - by apply advance_task_steps.
Qed.

Lemma insert_task_steps {A : Type} (ts : list (task A)) (i : nat) (t : task A) :
  Forall (task_steps_in R) ts -> task_steps_in R t ->
  Forall (task_steps_in R) (<[i := t]> ts).
Proof. intros. by apply Forall_insert. Qed.
End Pool.

Section WorklistInvariant.
Variable J : list ProcessedImage -> Prop.

Lemma keeps_refl (w : World) : keeps J w w.
Proof. by intros ?. Qed.

Lemma keeps_trans (w1 w2 w3 : World) : keeps J w1 w2 -> keeps J w2 w3 -> keeps J w1 w3.
Proof. unfold keeps; auto. Qed.

Lemma keeps_same_images (w w' : World) : images w' = images w -> keeps J w w'.
Proof. unfold keeps; by intros ->. Qed.

Lemma keeps_call (c : call) (w : World) : keeps J w (with_call c w).
Proof. by apply keeps_same_images. Qed.

Lemma images_cleanup (u : option Url) (w : World) : images (cleanup u w) = images w.
Proof. unfold cleanup. destruct u as [u|]; [|done]. by destruct (startsWith_blob u). Qed.

Lemma processImage_keeps (imageUrl : Url) (retryCount : nat) :
  steps_in (keeps J) (processImage imageUrl retryCount).
Proof.
  eapply steps_in_weaken; [|apply processImage_frame].
  intros w w' Hfr. apply keeps_same_images, Hfr.
Qed.

Lemma createObjectURL_keeps : steps_in (keeps J) createObjectURL.
Proof.
  unfold createObjectURL. constructor; intros. constructor; [|constructor].
  intros; by apply keeps_same_images.
Qed.

Hypothesis J_completed : forall i u l, J l -> J (map_at i (set_completed u) l).
Hypothesis J_status : forall i s l, s <> completed -> s <> pending -> J l ->
  J (map_at i (set_status s) l).

Lemma keeps_record_completed (i : nat) (u : Url) (w : World) :
  keeps J w (record_completed i u w).
Proof. unfold keeps. rewrite images_record_completed. apply J_completed. Qed.

Lemma keeps_record_failed (i : nat) (w : World) : keeps J w (record_failed i w).
Proof. unfold keeps, record_failed; simpl. by apply J_status. Qed.

Lemma handleSingleProcess_keeps (images_ : list ProcessedImage) (i : nat) (b : bool) :
  steps_in (keeps J) (handleSingleProcess images_ i b).
Proof.
  unfold handleSingleProcess.
  destruct (images_ !! i) as [current|]; [|constructor].
  destruct b; [constructor|].
  apply steps_in_mbind; [apply steps_in_exec; intros; by apply keeps_same_images|intros _].
  apply steps_in_mbind; [apply steps_in_exec; intros; by apply keeps_same_images|intros _].
  apply steps_in_try_finally; [|intros; by apply keeps_same_images].
  apply steps_in_try_catch.
  - apply steps_in_mbind; [apply processImage_keeps|intros u].
    apply steps_in_mbind; [apply steps_in_exec, keeps_record_completed|intros _].
    apply steps_in_exec; intros; by apply keeps_same_images.
  - intros e.
    apply steps_in_mbind; [apply steps_in_exec; intros; by apply keeps_same_images|intros _].
    apply steps_in_mbind; [apply steps_in_exec, keeps_record_failed|intros _].
    apply steps_in_exec; intros; by apply keeps_same_images.
Qed.

Lemma bulk_item_keeps (images_ : list ProcessedImage) (n : nat) (img : ProcessedImage) :
  steps_in (keeps J) (bulk_item images_ n img).
Proof.
  unfold bulk_item.
  destruct (findIndex (same_original img) images_) as [index|]; [|constructor].
  apply steps_in_try_catch.
  - apply steps_in_mbind; [apply steps_in_exec|intros _].
    { intros w. unfold keeps; simpl. by apply J_status. }
    apply steps_in_mbind; [apply processImage_keeps|intros u].
    apply steps_in_mbind; [apply steps_in_exec, keeps_record_completed|intros _].
    apply steps_in_mbind; [apply steps_in_exec; intros; by apply keeps_same_images|intros _].
    apply steps_in_exec; intros; by apply keeps_same_images.
  - intros e.
    apply steps_in_mbind; [apply steps_in_exec; intros; by apply keeps_same_images|intros _].
    apply steps_in_exec, keeps_record_failed.
Qed.

Lemma upload_item_keeps (file : File) : steps_in (keeps J) (upload_item file).
Proof.
  unfold upload_item.
  apply steps_in_mbind; [apply createObjectURL_keeps|intros preview_].
  apply steps_in_try_catch.
  - apply steps_in_mbind; [apply steps_in_await; auto using keeps_refl, keeps_call|].
    intros _. apply steps_in_mbind; [apply createObjectURL_keeps|intros u]. constructor.
  - intros e. apply steps_in_mbind; [|intros; constructor].
    apply steps_in_exec. intros w. apply keeps_same_images, images_cleanup.
Qed.

(** *** Batch runs *)

Lemma bulk_loop_keeps (images_ : list ProcessedImage) (n : nat)
    (batches : list (list ProcessedImage)) :
  forall w batch_ wave_,
    Forall (task_steps_in (keeps J)) wave_ ->
    keeps J w (world (bulk_loop images_ n batches w batch_ wave_))
    /\ Forall (task_steps_in (keeps J)) (wave (bulk_loop images_ n batches w batch_ wave_)).
Proof.
  induction batches as [|b batches IH]; intros w batch_ wave_ Hwave; simpl.
  - destruct (first_thrown wave_); [split; [by apply keeps_same_images|done]|].
    destruct (forallb is_returned wave_); (split; [by apply keeps_same_images|done]).
  - destruct (first_thrown wave_); [split; [by apply keeps_same_images|done]|].
    destruct (forallb is_returned wave_); [|split; [by apply keeps_same_images|done]].
    destruct (spawn_sound (keeps J) keeps_refl keeps_trans keeps_call
                (map (bulk_item images_ n) b) w) as [Hw Hts].
    { apply Forall_map, Forall_forall. intros; apply bulk_item_keeps. }
    destruct (spawn (map (bulk_item images_ n) b) w) as [w' wave'].
    destruct (IH w' b wave' Hts) as [Hw' Hts']. split; [|done].
    eapply keeps_trans; eauto.
Qed.

Lemma bulk_step_keeps (images_ : list ProcessedImage) (n : nat) (r r' : BulkRun) (i : nat)
    (ev : event) :
  bulk_step images_ n r i ev = Some r' ->
  Forall (task_steps_in (keeps J)) (wave r) ->
  keeps J (world r) (world r') /\ Forall (task_steps_in (keeps J)) (wave r').
Proof.
  unfold bulk_step. intros Hstep Hwave.
  destruct (wave r !! i) as [[|c cb k]|] eqn:Hi; try done.
  pose proof (Forall_lookup_1 _ _ _ _ Hwave Hi) as Ht.
  destruct ev as [o|p].
  - destruct (settle_sound (keeps J) keeps_refl keeps_trans keeps_call
                (world r) c cb k o Ht) as [Hw Ht'].
    destruct (settle (world r) c k o) as [w' t'].
    assert (Hwave' : Forall (task_steps_in (keeps J)) (<[i := t']> (wave r)))
      by (by apply Forall_insert).
    destruct (settled r); simplify_eq; simpl; [done|].
    destruct (bulk_loop_keeps images_ n (later r) w' (batch r) _ Hwave') as [Hw' Hts].
    split; [|done]. eapply keeps_trans; eauto.
  - destruct (is_transform c); simplify_eq; simpl. split; [|done]. apply Ht.
Qed.

Lemma bulk_exec_keeps (images_ : list ProcessedImage) (n : nat) (schedule : list (nat * event)) :
  forall r,
    Forall (task_steps_in (keeps J)) (wave r) ->
    keeps J (world r) (world (bulk_exec images_ n schedule r)).
Proof.
  induction schedule as [|[i ev] schedule IH]; intros r Hwave; simpl; [apply keeps_refl|].
  destruct (bulk_step images_ n r i ev) as [r'|] eqn:Hstep; simpl; [|by apply IH].
  destruct (bulk_step_keeps _ _ _ _ _ _ Hstep Hwave) as [Hw Hwave'].
  eapply keeps_trans; [exact Hw|]. by apply IH.
Qed.

Lemma handleBulkProcess_keeps (images_ : list ProcessedImage) (b : bool) (w : World) :
  keeps J w (world (handleBulkProcess images_ b w))
  /\ Forall (task_steps_in (keeps J)) (wave (handleBulkProcess images_ b w)).
Proof.
  unfold handleBulkProcess. destruct b; [split; [apply keeps_refl|done]|].
  destruct (length _ =? 0); [split; [apply keeps_refl|done]|].
  match goal with |- context [bulk_loop ?a ?n ?bs ?w0 ?b0 ?wv] =>
    destruct (bulk_loop_keeps a n bs w0 b0 wv) as [Hw Hts]; [done|] end.
  split; [|done]. intros HJ. by apply Hw.
Qed.
End WorklistInvariant.

(** ** Intake: handleImageUpload under every schedule *)

Lemma returns_bind {A B : Type} (P : B -> Prop) (p : prog A) (f : A -> prog B) :
  (forall a, returns P (f a)) -> returns P (bind p f).
Proof. intros Hf; induction p; simpl; try constructor; auto. Qed.

Lemma returns_mbind {A B : Type} (P : B -> Prop) (p : prog A) (f : A -> prog B) :
  (forall a, returns P (f a)) -> returns P (p ≫= f).
Proof. apply returns_bind. Qed.

Lemma returns_try_catch {A : Type} (P : A -> Prop) (p : prog A) (h : JsError -> prog A) :
  returns P p -> (forall e, returns P (h e)) -> returns P (try_catch p h).
Proof. induction 1; intros Hh; simpl; try constructor; auto. Qed.

Lemma advance_returns {A : Type} (P : A -> Prop) (p : prog A) (w : World) :
  returns P p -> task_returns P (advance p w).2.
Proof. intros Hp; revert w; induction Hp; intros w; simpl; auto. Qed.

Lemma upload_item_returns (file : File) : returns (fresh_image file) (upload_item file).
Proof.
  unfold upload_item. apply returns_mbind; intros preview_.
  apply returns_try_catch.
  - apply returns_mbind; intros _. apply returns_mbind; intros u.
    constructor. by repeat split.
  - intros e. apply returns_mbind; intros _. constructor.
Qed.

Lemma upload_frame_refl (w : World) : upload_frame w w.
Proof. by split. Qed.

Lemma upload_frame_trans (w1 w2 w3 : World) :
  upload_frame w1 w2 -> upload_frame w2 w3 -> upload_frame w1 w3.
Proof. intros [] []; split; congruence. Qed.

Lemma upload_frame_call (c : call) (w : World) : upload_frame w (with_call c w).
Proof. by split. Qed.

Lemma upload_frame_cleanup (u : option Url) (w : World) : upload_frame w (cleanup u w).
Proof.
  unfold cleanup. destruct u as [u|]; [|by split]. by destruct (startsWith_blob u); split.
Qed.

Lemma upload_item_frame (file : File) : steps_in upload_frame (upload_item file).
Proof.
  assert (Hurl : steps_in upload_frame createObjectURL).
  { unfold createObjectURL. constructor; intros. constructor; [|constructor]. by split. }
  unfold upload_item.
  apply steps_in_mbind; [exact Hurl|intros preview_].
  apply steps_in_try_catch.
  - apply steps_in_mbind;
      [apply steps_in_await; auto using upload_frame_refl, upload_frame_call|].
    intros _. apply steps_in_mbind; [exact Hurl|intros u]. constructor.
  - intros e. apply steps_in_mbind; [|intros; constructor].
    apply steps_in_exec, upload_frame_cleanup.
Qed.

Lemma spawn_upload (validFiles : list File) (w : World) :
  upload_frame w (spawn (map upload_item validFiles) w).1
  /\ Forall2 upload_task_ok validFiles (spawn (map upload_item validFiles) w).2.
Proof.
  revert w; induction validFiles as [|file files IH]; intros w; cbn [map spawn].
  { split; [apply upload_frame_refl|constructor]. }
  pose proof (advance_sound upload_frame upload_frame_refl upload_frame_trans
                upload_frame_call _ w (upload_item_frame file)) as Hw.
  pose proof (advance_task_steps upload_frame _ w (upload_item_frame file)) as Ht.
  pose proof (advance_returns _ _ w (upload_item_returns file)) as Hr.
  destruct (advance (upload_item file) w) as [w1 t]. destruct (IH w1) as [Hw2 Hts].
  destruct (spawn (map upload_item files) w1) as [w2 ts]. cbn [fst snd] in *.
  split; [by eapply upload_frame_trans|]. constructor; [by split|done].
Qed.

Lemma returned_values_fresh (validFiles : list File) (wave_ : list (task ProcessedImage))
    (newImages : list ProcessedImage) :
  Forall2 upload_task_ok validFiles wave_ ->
  returned_values wave_ = Some newImages ->
  Forall2 fresh_image validFiles newImages.
Proof.
  intros H; revert newImages.
  induction H as [|file t files ts [Hr _] Hts IH]; intros newImages; simpl.
  { intros [= <-]. constructor. }
  destruct t as [[img|e]|c cb k]; try done.
  destruct (returned_values ts) as [imgs|]; simpl; [|done].
  intros [= <-]. constructor; [exact Hr|by apply IH].
Qed.

(** [upload_join] establishes the intake state from a state in which
    nothing has been added yet. *)
Lemma upload_join_state (w0 w : World) (validFiles : list File)
    (wave_ : list (task ProcessedImage)) :
  Forall2 upload_task_ok validFiles wave_ ->
  upload_frame w0 w ->
  upload_state w0 validFiles (upload_join w wave_).
Proof.
  intros Hwave [Himgs Htoasts]. unfold upload_join, upload_state.
  destruct (first_thrown wave_) as [e|] eqn:Hthrown; simpl.
  { rewrite Hthrown. by rewrite Himgs, Htoasts. }
  destruct (returned_values wave_) as [newImages|] eqn:Hret; simpl.
  - rewrite Hthrown, Hret. rewrite Himgs, Htoasts.
    pose proof (returned_values_fresh _ _ _ Hwave Hret) as Hfresh.
    by rewrite (Forall2_length _ _ _ Hfresh).
  - by rewrite Hthrown, Hret.
Qed.

Lemma upload_wave_join (w : World) (wave_ : list (task ProcessedImage)) :
  upload_wave (upload_join w wave_) = wave_.
Proof.
  unfold upload_join. destruct (first_thrown wave_); [done|].
  by destruct (returned_values wave_).
Qed.

Lemma first_thrown_insert {A : Type} (ts : list (task A)) (i : nat) (t : task A)
    (c : call) (cb : Q -> World -> World) (k : outcome -> prog A) :
  ts !! i = Some (Suspended c cb k) ->
  is_Some (first_thrown ts) -> is_Some (first_thrown (<[i := t]> ts)).
Proof.
  revert i; induction ts as [|t0 ts IH]; intros i Hi Hsome; [done|].
  destruct i as [|i]; simpl in *.
  - simplify_eq. simpl in Hsome. destruct t as [[a|e]|c' cb' k']; simpl; eauto.
  - destruct t0 as [[a|e]|c' cb' k']; simpl in *; eauto.
Qed.

Lemma returned_values_suspended {A : Type} (ts : list (task A)) (i : nat)
    (c : call) (cb : Q -> World -> World) (k : outcome -> prog A) :
  ts !! i = Some (Suspended c cb k) -> returned_values ts = None.
Proof.
  revert i; induction ts as [|t0 ts IH]; intros i Hi; [done|].
  destruct i as [|i]; simpl in *.
  - by simplify_eq.
  - destruct t0 as [[a|e]|c' cb' k']; try done. by erewrite IH.
Qed.

Lemma upload_step_state (w0 : World) (validFiles : list File) (r r' : UploadRun) (i : nat)
    (o : outcome) :
  upload_step r i o = Some r' ->
  Forall2 upload_task_ok validFiles (upload_wave r) ->
  upload_state w0 validFiles r ->
  Forall2 upload_task_ok validFiles (upload_wave r') /\ upload_state w0 validFiles r'.
Proof.
  unfold upload_step. intros Hstep Hwave Hstate.
  destruct (upload_wave r !! i) as [[|c cb k]|] eqn:Hi; try done.
  destruct (Forall2_lookup_r _ _ _ _ _ Hwave Hi) as (file & Hfile & Hret & Hsteps).
  destruct (settle_sound upload_frame upload_frame_refl upload_frame_trans upload_frame_call
              (upload_world r) c cb k o Hsteps) as [Hw Hsteps'].
  pose proof (advance_returns _ (k (observe (upload_world r) c o)) (upload_world r)
                (Hret _)) as Hret'.
  fold (settle (upload_world r) c k o) in Hret'.
  destruct (settle (upload_world r) c k o) as [w' t']. cbn [fst snd] in Hw, Hsteps', Hret'.
  assert (Hwave' : Forall2 upload_task_ok validFiles (<[i := t']> (upload_wave r))).
  { rewrite <- (list_insert_id validFiles i file Hfile).
    apply Forall2_insert; [done|by split]. }
  unfold upload_state in Hstate.
  rewrite (returned_values_suspended _ _ _ _ _ Hi) in Hstate.
  destruct (first_thrown (upload_wave r)) as [e|] eqn:Hthrown.
  - destruct Hstate as (Hs & Himgs & Htoasts). rewrite Hs in Hstep. simplify_eq.
    split; [done|]. unfold upload_state; simpl.
    destruct (first_thrown_insert (upload_wave r) i t' c cb k Hi) as [e' ->]; [by eauto|].
    destruct Hw as [-> ->]. done.
  - destruct Hstate as (Hs & Himgs & Htoasts). rewrite Hs in Hstep. simplify_eq.
    assert (Hjoin : upload_state w0 validFiles (upload_join w' (<[i := t']> (upload_wave r)))).
    { apply upload_join_state; [done|]. destruct Hw as [Hw1 Hw2].
      unfold upload_frame. split; congruence. }
    split; [|done].
    by rewrite upload_wave_join.
Qed.

Lemma upload_exec_state (w0 : World) (validFiles : list File) (schedule : list (nat * outcome)) :
  forall r,
    Forall2 upload_task_ok validFiles (upload_wave r) ->
    upload_state w0 validFiles r ->
    upload_state w0 validFiles (upload_exec schedule r).
Proof.
  induction schedule as [|[i o] schedule IH]; intros r Hwave Hstate; simpl; [done|].
  destruct (upload_step r i o) as [r'|] eqn:Hstep; simpl; [|by apply IH].
  destruct (upload_step_state _ _ _ _ _ _ Hstep Hwave Hstate). by apply IH.
Qed.

Lemma handleImageUpload_state (files : list File) (w : World) :
  match filter (fun file => valid_file file = true) files with
  | [] => handleImageUpload files w = mkUpload (with_toast toast_invalid_files w) [] true
  | validFiles =>
      Forall2 upload_task_ok validFiles (upload_wave (handleImageUpload files w))
      /\ upload_state w validFiles (handleImageUpload files w)
  end.
Proof.
  unfold handleImageUpload.
  destruct (filter (fun file => valid_file file = true) files) as [|file validFiles] eqn:Hvalid;
    [done|].
  cbn [length Nat.eqb].
  destruct (spawn_upload (file :: validFiles) w) as [Hw Hwave].
  destruct (spawn (map upload_item (file :: validFiles)) w) as [w' wave_].
  cbn [fst snd] in Hw, Hwave. split.
  - by rewrite upload_wave_join.
  - by apply upload_join_state.
Qed.

Lemma filter_valid_idemp (files : list File) :
  filter (fun file => valid_file file = true)
    (filter (fun file => valid_file file = true) files)
  = filter (fun file => valid_file file = true) files.
Proof.
  induction files as [|file files IH]; [done|].
  rewrite filter_cons. destruct (decide (valid_file file = true)) as [Hv|Hv]; [|done].
  rewrite filter_cons. destruct (decide (valid_file file = true)); [|done]. by rewrite IH.
Qed.

Lemma upload_exec_idle (schedule : list (nat * outcome)) (r : UploadRun) :
  upload_wave r = [] -> upload_exec schedule r = r.
Proof.
  intros Hwave. induction schedule as [|[i o] schedule IH]; [done|].
  cbn [upload_exec foldl]. unfold upload_step. rewrite Hwave, lookup_nil. exact IH.
Qed.

Lemma upload_exec_handled (files : list File) (w : World) (schedule : list (nat * outcome)) :
  match filter (fun file => valid_file file = true) files with
  | [] => upload_exec schedule (handleImageUpload files w)
          = mkUpload (with_toast toast_invalid_files w) [] true
  | validFiles => upload_state w validFiles (upload_exec schedule (handleImageUpload files w))
  end.
Proof.
  pose proof (handleImageUpload_state files w) as H.
  destruct (filter (fun file => valid_file file = true) files) as [|file validFiles].
  - rewrite H. by apply upload_exec_idle.
  - destruct H as [Hwave Hstate]. by apply upload_exec_state.
Qed.

(** C6, as the code has it.  Inputs of an unsupported type or over 10 MB are
    dropped before anything else, without affecting the others and without
    being reported: the intake behaves as if only the valid files had been
    given.  When no file is valid the handler ends at once with the
    'Invalid files' toast.  Otherwise, under every schedule of the
    compressions, the intake is all-or-nothing ([upload_state]): nothing is
    added while compressions are pending; when all have resolved one Job per
    valid file is appended, pending and without result, and the toast counts
    them; once a compression is rejected the handler has ended with the
    'Upload failed' toast and nothing is added, then or later.  The handler
    always ends in a state: no error leaves it.  In Scenario A (3 valid
    images, 1 oversized, compressions resolving) the 3 valid Jobs are added
    and the only report is '3 images uploaded'. *)
Theorem intake_is_all_or_nothing (files : list File) (w : World)
    (schedule : list (nat * outcome)) :
  handleImageUpload files w
    = handleImageUpload (filter (fun file => valid_file file = true) files) w
  /\ match filter (fun file => valid_file file = true) files with
     | [] => upload_exec schedule (handleImageUpload files w)
             = mkUpload (with_toast toast_invalid_files w) [] true
     | validFiles => upload_state w validFiles (upload_exec schedule (handleImageUpload files w))
     end
  /\ map name (images (upload_world
                         (upload_exec scenario_A_schedule
                            (handleImageUpload scenario_A_files initial_world))))
     = ["a.jpg"; "b.png"; "c.webp"]%string
  /\ toasts (upload_world
               (upload_exec scenario_A_schedule
                  (handleImageUpload scenario_A_files initial_world)))
     = [toast_upload_successful 3].
Proof.
  split; [|split; [|split; reflexivity]].
  - unfold handleImageUpload. by rewrite filter_valid_idemp.
  - apply upload_exec_handled.
Qed.

(** C6, as stated, fails: of two valid inputs, the failure of the second
    one's compression aborts the first as well -- no Job is added, although
    one input succeeded. *)
Lemma one_failed_compression_aborts_the_others :
  ~ (length (images (upload_world
                       (upload_exec second_compression_fails
                          (handleImageUpload two_files initial_world)))) = 1).
Proof. vm_compute. discriminate. Qed.

(** ** Status and result *)

Lemma Forall_map_at (P : ProcessedImage -> Prop) (i : nat)
    (f : ProcessedImage -> ProcessedImage) (l : list ProcessedImage) :
  (forall x, P x -> P (f x)) -> Forall P l -> Forall P (map_at i f l).
Proof.
  intros Hf Hl. apply Forall_lookup. intros j x. rewrite lookup_map_at.
  destruct (l !! j) as [y|] eqn:Hj; simpl; [|done].
  intros [= <-]. pose proof (Forall_lookup_1 _ _ _ _ Hl Hj).
  destruct (Nat.eqb j i); auto.
Qed.

Lemma images_ok_completed (i : nat) (u : Url) (l : list ProcessedImage) :
  Forall image_ok l -> Forall image_ok (map_at i (set_completed u) l).
Proof. apply Forall_map_at. intros x _. by split. Qed.

Lemma images_ok_status (i : nat) (s : Status) (l : list ProcessedImage) :
  s <> completed -> s <> pending ->
  Forall image_ok l -> Forall image_ok (map_at i (set_status s) l).
Proof. intros Hc Hp. apply Forall_map_at. intros x _. by split. Qed.

Lemma images_ok_delete (i : nat) (l : list ProcessedImage) :
  Forall image_ok l -> Forall image_ok (delete i l).
Proof. apply Forall_delete. Qed.

Lemma fresh_image_ok (file : File) (img : ProcessedImage) : fresh_image file img -> image_ok img.
Proof. intros (_ & Hp & Hs & _). split; [congruence|done]. Qed.

Lemma images_ok_upload (files : list File) (w : World) (schedule : list (nat * outcome)) :
  images_ok w -> images_ok (upload_world (upload_exec schedule (handleImageUpload files w))).
Proof.
  intros Hok. pose proof (upload_exec_handled files w schedule) as H.
  destruct (filter (fun file => valid_file file = true) files) as [|file validFiles].
  { by rewrite H. }
  unfold upload_state in H. unfold images_ok.
  destruct (first_thrown _); [by destruct H as (_ & -> & _)|].
  destruct (returned_values _) as [newImages|]; [|by destruct H as (_ & -> & _)].
  destruct H as (_ & -> & Hfresh & _). apply Forall_app. split; [done|].
  clear -Hfresh. induction Hfresh; constructor; eauto using fresh_image_ok.
Qed.

Lemma images_ok_delete_handler (images_ : list ProcessedImage) (i : nat) (w : World) :
  images_ok w -> images_ok (handleDelete images_ i w).
Proof.
  intros Hok. unfold handleDelete, images_ok.
  destruct (images_ !! i) as [current|]; [|done].
  cbn [images with_toast]. rewrite !images_cleanup.
  destruct (_ <=? i); by apply images_ok_delete.
Qed.




(** ** The batch executor follows the abstract transition system *)

Lemma finishes_after_frame (n j : nat) (w w1 w' : World) :
  process_frame w w1 -> finishes n j w1 w' -> finishes n j w w'.
Proof.
  intros Hfr (Hb & Ht & H). destruct Hfr as [Himgs _ _ Hbulk Hloc _ Htoasts Hrep].
  unfold finishes. rewrite <- Himgs, <- Hbulk, <- Hloc, <- Htoasts, <- Hrep. auto.
Qed.

Lemma finishing_advance (n j : nat) (p : prog unit) :
  finishing n j p -> forall w, advanced_ok n j w (advance p w).
Proof.
  induction 1 as [f k Hf Hk IH|k Hk IH|c cb k Hcb Hk IH|p Hp]; intros w; simpl.
  - specialize (IH (f w)). unfold advanced_ok in *.
    destruct (advance k (f w)) as [w' [[[]|e]|c cb k']]; simpl in *; [|done|].
    + eapply finishes_after_frame; eauto.
    + destruct IH as (? & ? & ?). split; [|done].
      eapply process_frame_trans; eauto.
  - apply IH.
  - unfold advanced_ok; simpl. split; [apply process_frame_call|done].
  - destruct (Hp w) as (w' & -> & Hfin). exact Hfin.
Qed.

Lemma finishing_try_catch_bind (n j : nat) {A : Type} (p : prog A) (f : A -> prog unit)
    (h : JsError -> prog unit) :
  steps_in process_frame p ->
  (forall a, finishing n j (try_catch (f a) h)) ->
  (forall e, finishing n j (h e)) ->
  finishing n j (try_catch (bind p f) h).
Proof.
  induction 1 as [a|e|g k Hg Hk IH|k Hk IH|c cb k Hcb Hk IH]; intros Hf Hh; simpl; auto.
  - constructor; auto.
  - constructor; auto.
  - constructor; auto.
Qed.

Lemma processed_local_record_completed (i : nat) (u : Url) (w : World) :
  processed_local (record_completed i u w) = processed_local w
  /\ batch_reports (record_completed i u w) = batch_reports w
  /\ isBulkProcessing (record_completed i u w) = isBulkProcessing w
  /\ toasts (record_completed i u w) = toasts w.
Proof.
  unfold record_completed. destruct (images w !! i) as [img|]; [|done].
  unfold cleanup. destruct (processed img) as [p|]; [|done].
  by destruct (startsWith_blob p).
Qed.

Lemma batch_reports_batch (v : Z) (w : World) :
  batch_reports (with_progress site_batch v w) = batch_reports w ++ [v].
Proof. unfold batch_reports; simpl. by rewrite omap_app. Qed.

Lemma bulk_item_unfold (images_ : list ProcessedImage) (n : nat) (img : ProcessedImage) :
  bulk_item images_ n img
  = match item_index images_ img with
    | None => Ret tt
    | Some index =>
        Do (setImages (map_at index (set_status processing))) (bulk_item_rest n index img)
    end.
Proof. unfold bulk_item, item_index. by destruct (findIndex _ _). Qed.

Lemma bulk_item_rest_finishing (n index : nat) (img : ProcessedImage) :
  finishing n index (bulk_item_rest n index img).
Proof.
  unfold bulk_item_rest. apply finishing_try_catch_bind.
  - apply processImage_frame.
  - intros u. apply finishing_end. intros w. eexists; split; [reflexivity|].
    destruct (processed_local_record_completed index u w) as (Hloc & Hrep & Hbulk & Htoasts).
    unfold finishes. world_simpl. rewrite Hbulk, Htoasts. split; [done|]. split; [done|].
    left. rewrite images_record_completed, Hloc, batch_reports_batch.
    repeat split; eauto. unfold batch_reports in *. world_simpl. by rewrite Hrep.
  - intros e. apply finishing_end. intros w. eexists; split; [reflexivity|].
    unfold finishes. world_simpl. split; [done|]. split; [done|]. right. done.
Qed.

Lemma tasks_abs_length (images_ : list ProcessedImage) (n : nat) (imgs : list ProcessedImage)
    (ts : list (task unit)) (actives : list bool) :
  tasks_abs images_ n imgs ts actives ->
  length ts = length imgs /\ length actives = length imgs.
Proof. induction 1; simpl; [done|]. destruct IHtasks_abs. split; congruence. Qed.

Lemma tasks_abs_snoc (images_ : list ProcessedImage) (n : nat) (imgs : list ProcessedImage)
    (ts : list (task unit)) (actives : list bool) (img : ProcessedImage) (t : task unit)
    (active : bool) :
  tasks_abs images_ n imgs ts actives -> task_abs images_ n img t active ->
  tasks_abs images_ n (imgs ++ [img]) (ts ++ [t]) (actives ++ [active]).
Proof. induction 1; intros Ht; simpl; repeat constructor; auto. Qed.

Lemma tasks_abs_lookup (images_ : list ProcessedImage) (n : nat) (imgs : list ProcessedImage)
    (ts : list (task unit)) (actives : list bool) (i : nat) (t : task unit) :
  tasks_abs images_ n imgs ts actives -> ts !! i = Some t ->
  exists img active, imgs !! i = Some img /\ actives !! i = Some active
                     /\ task_abs images_ n img t active.
Proof.
  intros H; revert i. induction H as [|img t0 active imgs ts actives Ht Hts IH]; intros i Hi;
    [done|].
  destruct i as [|i]; simpl in *.
  - simplify_eq. eauto.
  - eauto.
Qed.

Lemma tasks_abs_insert (images_ : list ProcessedImage) (n : nat) (imgs : list ProcessedImage)
    (ts : list (task unit)) (actives : list bool) (i : nat) (img : ProcessedImage)
    (t : task unit) (active : bool) :
  tasks_abs images_ n imgs ts actives -> imgs !! i = Some img ->
  task_abs images_ n img t active ->
  tasks_abs images_ n imgs (<[i := t]> ts) (<[i := active]> actives).
Proof.
  intros H; revert i. induction H as [|img0 t0 active0 imgs ts actives Ht Hts IH];
    intros i Hi Hnew; [done|].
  destruct i as [|i]; simpl in *.
  - simplify_eq. by constructor.
  - constructor; auto.
Qed.

Lemma tasks_abs_first_thrown (images_ : list ProcessedImage) (n : nat)
    (imgs : list ProcessedImage) (ts : list (task unit)) (actives : list bool) :
  tasks_abs images_ n imgs ts actives -> first_thrown ts = None.
Proof.
  induction 1 as [|img t active imgs ts actives Ht Hts IH]; [done|].
  destruct t as [[[]|e]|c cb k]; simpl in *; done.
Qed.

Lemma tasks_abs_all_returned (images_ : list ProcessedImage) (n : nat)
    (imgs : list ProcessedImage) (ts : list (task unit)) (actives : list bool) :
  tasks_abs images_ n imgs ts actives ->
  forallb is_returned ts = true -> Forall (fun x => x = false) actives.
Proof.
  induction 1 as [|img t active imgs ts actives Ht Hts IH]; simpl; [constructor|].
  destruct t as [[[]|e]|c cb k]; simpl in *; try done. intros. constructor; auto.
Qed.

(** Starting the callbacks of the rest of the wave. *)
Lemma spawn_abs (images_ : list ProcessedImage) (n : nat) (b : list ProcessedImage) :
  forall (a : Abs) (ts0 : list (task unit)),
    a_tospawn a = b ->
    tasks_abs images_ n (a_batch a) ts0 (a_active a) ->
    exists a',
      rtc (abs_step images_ n) a a'
      /\ a_world a' = (spawn (map (bulk_item images_ n) b) (a_world a)).1
      /\ a_tospawn a' = []
      /\ a_batch a' = a_batch a ++ b
      /\ a_earlier a' = a_earlier a /\ a_later a' = a_later a /\ a_settled a' = a_settled a
      /\ tasks_abs images_ n (a_batch a')
           (ts0 ++ (spawn (map (bulk_item images_ n) b) (a_world a)).2) (a_active a').
Proof.
  induction b as [|img b IH]; intros a ts0 Hb Hts.
  { exists a. simpl. rewrite !app_nil_r. repeat split; auto. apply rtc_refl. }
  cbn [map spawn]. rewrite bulk_item_unfold.
  destruct (item_index images_ img) as [j|] eqn:Hj.
  - (* the callback marks its image and runs on *)
    pose proof (finishing_advance n j _ (bulk_item_rest_finishing n j img)
                  (setImages (map_at j (set_status processing)) (a_world a))) as Hadv.
    cbn [advance].
    destruct (advance (bulk_item_rest n j img) _) as [w1 t] eqn:Hadvance.
    unfold advanced_ok in Hadv; cbn [fst snd] in Hadv.
    set (a1 := mkAbs (setImages (map_at j (set_status processing)) (a_world a))
                 (a_earlier a) (a_batch a ++ [img]) (a_active a ++ [true]) b
                 (a_later a) (a_settled a)).
    assert (Hstep1 : abs_step images_ n a a1) by (by eapply abs_spawn_start).
    destruct (tasks_abs_length _ _ _ _ _ Hts) as [Hlen1 Hlen2].
    destruct t as [[[]|e]|c cb k]; [| done |].
    + (* it has already settled *)
      set (a2 := mkAbs w1 (a_earlier a1) (a_batch a1) (<[length (a_batch a) := false]> (a_active a1))
                   (a_tospawn a1) (a_later a1) (a_settled a1)).
      assert (Hstep2 : abs_step images_ n a1 a2).
      { eapply (abs_finish images_ n a1 (length (a_batch a)) j img); simpl; auto.
        - by rewrite lookup_app_r, Nat.sub_diag by lia.
        - by rewrite lookup_app_r, Hlen2, Nat.sub_diag by lia. }
      destruct (IH a2 (ts0 ++ [Finished (Returned tt)])) as (a' & Hrtc & Hw & Hsp & Hba & He & Hl & Hs & Hts').
      { done. }
      { simpl. rewrite <- Hlen2, insert_app_r_alt, Nat.sub_diag by lia. simpl.
        by apply tasks_abs_snoc. }
      exists a'. change (a_world a2) with w1 in Hw, Hts'. simpl in Hba.
      destruct (spawn (map (bulk_item images_ n) b) w1) as [w2 ts]. cbn [fst snd] in *.
      rewrite <- !app_assoc in Hts', Hba. repeat split; auto.
      eapply rtc_l; [exact Hstep1|]. eapply rtc_l; [exact Hstep2|]. exact Hrtc.
    + (* it is suspended in a call *)
      destruct Hadv as (Hfr & Hcb & Hk).
      set (a2 := mkAbs w1 (a_earlier a1) (a_batch a1) (a_active a1)
                   (a_tospawn a1) (a_later a1) (a_settled a1)).
      assert (Hstep2 : abs_step images_ n a1 a2).
      { apply (abs_quiet images_ n a1 (length (a_batch a))); [|done].
        simpl. by rewrite lookup_app_r, Hlen2, Nat.sub_diag by lia. }
      destruct (IH a2 (ts0 ++ [Suspended c cb k])) as (a' & Hrtc & Hw & Hsp & Hba & He & Hl & Hs & Hts').
      { done. }
      { simpl. apply tasks_abs_snoc; [done|]. simpl. eauto. }
      exists a'. change (a_world a2) with w1 in Hw, Hts'. simpl in Hba.
      destruct (spawn (map (bulk_item images_ n) b) w1) as [w2 ts]. cbn [fst snd] in *.
      rewrite <- !app_assoc in Hts', Hba. repeat split; auto.
      eapply rtc_l; [exact Hstep1|]. eapply rtc_l; [exact Hstep2|]. exact Hrtc.
  - (* no such image: the callback returns at once *)
    cbn [advance].
    set (a1 := mkAbs (a_world a) (a_earlier a) (a_batch a ++ [img]) (a_active a ++ [false]) b
                 (a_later a) (a_settled a)).
    assert (Hstep1 : abs_step images_ n a a1) by (by eapply abs_spawn_idle).
    destruct (IH a1 (ts0 ++ [Finished (Returned tt)])) as (a' & Hrtc & Hw & Hsp & Hba & He & Hl & Hs & Hts').
    { done. }
    { simpl. by apply tasks_abs_snoc. }
    exists a'. change (a_world a1) with (a_world a) in Hw, Hts'. simpl in Hba.
    destruct (spawn (map (bulk_item images_ n) b) (a_world a)) as [w2 ts]. cbn [fst snd] in *.
    rewrite <- !app_assoc in Hts', Hba. repeat split; auto.
    eapply rtc_l; [exact Hstep1|]. exact Hrtc.
Qed.

(** Resuming the handler after a promise has settled. *)
Lemma bulk_loop_abs (images_ : list ProcessedImage) (n : nat)
    (batches : list (list ProcessedImage)) :
  forall (w : World) (batch_ : list ProcessedImage) (wave_ : list (task unit)) (a : Abs),
    abstracts images_ n (mkBulk w batch_ wave_ batches false) a ->
    exists a', rtc (abs_step images_ n) a a'
               /\ abstracts images_ n (bulk_loop images_ n batches w batch_ wave_) a'.
Proof.
  induction batches as [|b batches IH]; intros w batch_ wave_ a Habs;
    destruct Habs as (Hw & Hb & Hl & Hs & Hsp & Hts); simpl in Hw, Hb, Hl, Hs, Hts;
    cbn [bulk_loop]; rewrite (tasks_abs_first_thrown _ _ _ _ _ Hts);
    destruct (forallb is_returned wave_) eqn:Hall;
    try (exists a; split; [apply rtc_refl|]; by repeat split).
  - (* the last wave is over *)
    pose proof (tasks_abs_all_returned _ _ _ _ _ Hts Hall) as Hdone.
    eexists; split; [apply rtc_once; by apply abs_complete|].
    rewrite <- Hw, <- Hb. by repeat split.
  - (* the next wave starts *)
    pose proof (tasks_abs_all_returned _ _ _ _ _ Hts Hall) as Hdone.
    set (a1 := mkAbs (a_world a) (a_earlier a ++ [a_batch a]) [] [] b batches false).
    assert (Hstep : abs_step images_ n a a1) by (by apply abs_next_wave).
    destruct (spawn_abs images_ n b a1 []) as (a2 & Hrtc & Hw2 & Hsp2 & Hb2 & _ & Hl2 & Hs2 & Hts2);
      [done|constructor|].
    simpl in Hw2, Hb2, Hl2, Hs2, Hts2. rewrite <- Hw in Hw2, Hts2.
    destruct (spawn (map (bulk_item images_ n) b) w) as [w' wave'] eqn:Hspawn.
    cbn [fst snd] in Hw2, Hts2.
    destruct (IH w' b wave' a2) as (a3 & Hrtc' & Habs').
    { repeat split; simpl; auto. by rewrite Hb2 in Hts2. }
    exists a3. split; [|done].
    eapply rtc_l; [exact Hstep|]. by etrans.
Qed.

Lemma bulk_step_abs (images_ : list ProcessedImage) (n : nat) (r r' : BulkRun) (a : Abs)
    (i : nat) (ev : event) :
  bulk_step images_ n r i ev = Some r' ->
  abstracts images_ n r a ->
  exists a', rtc (abs_step images_ n) a a' /\ abstracts images_ n r' a'.
Proof.
  unfold bulk_step. intros Hstep (Hw & Hb & Hl & Hs & Hsp & Hts).
  destruct (wave r !! i) as [[|c cb k]|] eqn:Hi; try done.
  destruct (tasks_abs_lookup _ _ _ _ _ _ _ Hts Hi)
    as (img & active & Himg & Hact & -> & j & Hj & Hcb & Hk).
  destruct ev as [o|p].
  - pose proof (finishing_advance n j _ (Hk (observe (world r) c o)) (world r)) as Hadv.
    fold (settle (world r) c k o) in Hadv.
    destruct (settle (world r) c k o) as [w' t'].
    unfold advanced_ok in Hadv; cbn [fst snd] in Hadv.
    destruct t' as [[[]|e]|c' cb' k']; [|done|].
    + (* the promise has settled *)
      set (a1 := mkAbs w' (a_earlier a) (a_batch a) (<[i := false]> (a_active a))
                   (a_tospawn a) (a_later a) (a_settled a)).
      assert (Hstep1 : abs_step images_ n a a1).
      { eapply (abs_finish images_ n a i j img); eauto; congruence. }
      assert (Hts1 : tasks_abs images_ n (batch r) (<[i := Finished (Returned tt)]> (wave r))
                       (a_active a1)).
      { simpl. by eapply tasks_abs_insert. }
      destruct (settled r) eqn:Hsettled; simplify_eq.
      * exists a1. split; [by apply rtc_once|]. by repeat split.
      * destruct (bulk_loop_abs images_ n (later r) w' (batch r)
                    (<[i := Finished (Returned tt)]> (wave r)) a1) as (a2 & Hrtc & Habs).
        { by repeat split. }
        exists a2. split; [|done]. by eapply rtc_l.
    + (* the promise is suspended again *)
      destruct Hadv as (Hfr & Hcb' & Hk').
      set (a1 := mkAbs w' (a_earlier a) (a_batch a) (a_active a)
                   (a_tospawn a) (a_later a) (a_settled a)).
      assert (Hstep1 : abs_step images_ n a a1).
      { apply (abs_quiet images_ n a i); [done|]. by rewrite <- Hw. }
      assert (Hts1 : tasks_abs images_ n (batch r) (<[i := Suspended c' cb' k']> (wave r))
                       (a_active a1)).
      { simpl. rewrite <- (list_insert_id (a_active a) i true Hact).
        eapply tasks_abs_insert; eauto. simpl. eauto. }
      destruct (settled r) eqn:Hsettled; simplify_eq.
      * exists a1. split; [by apply rtc_once|]. by repeat split.
      * destruct (bulk_loop_abs images_ n (later r) w' (batch r)
                    (<[i := Suspended c' cb' k']> (wave r)) a1) as (a2 & Hrtc & Habs).
        { by repeat split. }
        exists a2. split; [|done]. by eapply rtc_l.
  - destruct (is_transform c); simplify_eq.
    exists (mkAbs (cb p (world r)) (a_earlier a) (a_batch a) (a_active a)
              (a_tospawn a) (a_later a) (a_settled a)).
    split; [|by repeat split].
    apply rtc_once, (abs_quiet images_ n a i); [done|]. rewrite <- Hw. apply Hcb.
Qed.

Lemma bulk_exec_abs (images_ : list ProcessedImage) (n : nat) (schedule : list (nat * event)) :
  forall (r : BulkRun) (a : Abs),
    abstracts images_ n r a ->
    exists a', rtc (abs_step images_ n) a a'
               /\ abstracts images_ n (bulk_exec images_ n schedule r) a'.
Proof.
  induction schedule as [|[i ev] schedule IH]; intros r a Habs; simpl.
  { exists a. split; [apply rtc_refl|done]. }
  destruct (bulk_step images_ n r i ev) as [r'|] eqn:Hstep; simpl; [|by apply IH].
  destruct (bulk_step_abs _ _ _ _ _ _ _ Hstep Habs) as (a1 & Hrtc1 & Habs1).
  destruct (IH r' a1 Habs1) as (a2 & Hrtc2 & Habs2).
  exists a2. split; [by etrans|done].
Qed.

Lemma for_batches_nonempty (pending_ : list ProcessedImage) :
  pending_ <> [] -> for_batches pending_ 0 <> [].
Proof. intros Hne. simp for_batches. destruct pending_; [done|]. simpl. done. Qed.

(** Every state of a batch run begun in a render that is not already
    running one, over a non-empty selection, is an abstract state reachable
    from [abs_start]. *)
Lemma bulk_run_abs (w : World) (schedule : list (nat * event)) :
  isBulkProcessing w = false ->
  filter (fun img => processed img = None) (images w) <> [] ->
  exists a,
    rtc (abs_step (images w) (length (filter (fun img => processed img = None) (images w))))
      (abs_start w) a
    /\ abstracts (images w) (length (filter (fun img => processed img = None) (images w)))
         (bulk_run w schedule) a.
Proof.
  intros Hbulk Hne. unfold bulk_run, handleBulkProcess. rewrite Hbulk.
  set (pending_ := filter (fun img => processed img = None) (images w)) in *.
  destruct (length pending_ =? 0) eqn:Hlen.
  { apply Nat.eqb_eq in Hlen. by destruct pending_. }
  pose proof (for_batches_nonempty pending_ Hne) as Hbs.
  unfold abs_start. fold pending_.
  destruct (for_batches pending_ 0) as [|b batches]; [done|]. simpl hd; simpl tl.
  set (w0 := with_processed_local 0 (with_isBulkProcessing true w)).
  set (a0 := mkAbs w0 [] [] [] b batches false).
  cbn [bulk_loop first_thrown forallb].
  destruct (spawn_abs (images w) (length pending_) b a0 [])
    as (a1 & Hrtc & Hw1 & Hsp1 & Hb1 & He1 & Hl1 & Hs1 & Hts1); [done|constructor|].
  simpl in Hw1, Hb1, Hl1, Hs1, Hts1.
  destruct (spawn (map (bulk_item (images w) (length pending_)) b) w0) as [w' wave'].
  cbn [fst snd] in Hw1, Hts1.
  destruct (bulk_loop_abs (images w) (length pending_) batches w' b wave' a1)
    as (a2 & Hrtc2 & Habs2).
  { repeat split; simpl; auto. by rewrite Hb1 in Hts1. }
  destruct (bulk_exec_abs (images w) (length pending_) schedule _ a2 Habs2)
    as (a3 & Hrtc3 & Habs3).
  exists a3. split; [|done]. etrans; [exact Hrtc|]. by etrans.
Qed.

(** ** The waves of the loop *)

Lemma for_batches_bounded (pending_ : list ProcessedImage) (i : nat) :
  Forall (fun b => 0 < length b <= SETTINGS.processing.batchSize) (for_batches pending_ i).
Proof.
  funelim (for_batches pending_ i); [|constructor].
  constructor; [|done]. unfold slice. rewrite length_take, length_drop.
  unfold SETTINGS.processing.batchSize in *. lia.
Qed.

Lemma for_batches_concat (pending_ : list ProcessedImage) (i : nat) :
  concat (for_batches pending_ i) = drop i pending_.
Proof.
  funelim (for_batches pending_ i).
  - simpl. rewrite H. unfold slice.
    replace (i + SETTINGS.processing.batchSize - i) with SETTINGS.processing.batchSize by lia.
    rewrite <- drop_drop. apply take_drop.
  - simpl. rewrite drop_ge; [done|lia].
Qed.

(** ** [findIndex] *)

Lemma findIndex_Some {A : Type} (f : A -> bool) (l : list A) (j : nat) :
  findIndex f l = Some j -> exists x, l !! j = Some x /\ f x = true.
Proof.
  revert j; induction l as [|y l IH]; intros j; simpl; [done|].
  destruct (f y) eqn:Hy.
  - intros [= <-]. eauto.
  - destruct (findIndex f l) as [j'|]; simpl; [|done].
    intros [= <-]. destruct (IH j' eq_refl) as (x & Hx & Hfx). eauto.
Qed.

Lemma findIndex_elem {A : Type} (f : A -> bool) (l : list A) (x : A) :
  x ∈ l -> f x = true -> is_Some (findIndex f l).
Proof.
  induction 1 as [x l|x y l Hin IH]; intros Hfx; simpl.
  - rewrite Hfx. eauto.
  - destruct (f y); [eauto|]. destruct (IH Hfx) as [j ->]. simpl. eauto.
Qed.

Lemma item_index_original (images_ : list ProcessedImage) (img : ProcessedImage) (j : nat) :
  item_index images_ img = Some j ->
  exists x, images_ !! j = Some x /\ original x = original img.
Proof.
  intros H. apply findIndex_Some in H as (x & Hx & Hsame).
  exists x. split; [done|]. unfold same_original in Hsame. by apply bool_decide_eq_true in Hsame.
Qed.

Lemma item_index_elem (images_ : list ProcessedImage) (img : ProcessedImage) :
  img ∈ images_ -> is_Some (item_index images_ img).
Proof.
  intros Hin. apply (findIndex_elem _ _ img Hin).
  unfold same_original. by apply bool_decide_eq_true.
Qed.

(** ** Updates at one position *)

Lemma originals_map_at (i : nat) (f : ProcessedImage -> ProcessedImage)
    (l : list ProcessedImage) :
  (forall x, original (f x) = original x) ->
  original <$> map_at i f l = original <$> l.
Proof.
  intros Hf. apply list_eq. intros j.
  rewrite !list_lookup_fmap, lookup_map_at.
  destruct (l !! j) as [x|]; simpl; [|done]. destruct (Nat.eqb j i); simpl; by rewrite ?Hf.
Qed.

Lemma finishes_images (n j : nat) (w w' : World) :
  finishes n j w w' ->
  exists f, images w' = map_at j f (images w)
            /\ (forall x, original (f x) = original x) /\ (forall x, terminal (f x)).
Proof.
  intros (_ & _ & [((u & Hu) & _)|(Hf & _)]).
  - exists (set_completed u). repeat split; auto. intros; by left.
  - exists (set_status failed). repeat split; auto. intros; by right.
Qed.

(** ** The shape of the abstract states *)

Lemma images_bulk_finally (t : Toast) (w : World) :
  images (bulk_finally (with_toast t w)) = images w.
Proof. reflexivity. Qed.

Lemma lookup_map_at_ne (i j : nat) (f : ProcessedImage -> ProcessedImage)
    (l : list ProcessedImage) :
  j <> i -> map_at i f l !! j = l !! j.
Proof.
  intros Hne. rewrite lookup_map_at. apply Nat.eqb_neq in Hne. rewrite Hne.
  by destruct (l !! j).
Qed.

Lemma abs_shape_in_range (images_ : list ProcessedImage)
    (batches0 : list (list ProcessedImage)) (a : Abs) (img : ProcessedImage) (j : nat) :
  abs_shape images_ batches0 a -> item_index images_ img = Some j ->
  exists y, images (a_world a) !! j = Some y /\ original y = original img.
Proof.
  intros Hshape Hj. destruct (item_index_original _ _ _ Hj) as (x & Hx & Hox).
  pose proof (shape_originals _ _ _ Hshape) as Ho.
  assert (Hl : (original <$> images (a_world a)) !! j = Some (original x)).
  { rewrite Ho, list_lookup_fmap, Hx. done. }
  rewrite list_lookup_fmap in Hl.
  destruct (images (a_world a) !! j) as [y|]; simpl in Hl; [|done].
  exists y. split; [done|]. congruence.
Qed.

Lemma abs_step_shape (images_ : list ProcessedImage) (n : nat)
    (batches0 : list (list ProcessedImage)) (a a' : Abs) :
  NoDup (original <$> concat batches0) ->
  abs_shape images_ batches0 a -> abs_step images_ n a a' -> abs_shape images_ batches0 a'.
Proof.
  intros Hnodup Hshape Hstep.
  destruct Hshape as [Hpart Hlen Hcov Horig Hdone].
  pose proof (mkAbsShape _ _ _ Hpart Hlen Hcov Horig Hdone) as Hshape.
  destruct Hstep as [a i w' Hact Hfr|a i j img w' Himg Hact Hj Hfin|a img rest Hsp Hj
                    |a img rest j Hsp Hj|a b bs Hsp Hall Hlater Hs|a Hsp Hall Hlater Hs].
  - (* a quiet step *)
    pose proof (frame_images _ _ Hfr) as Himgs.
    split; simpl; rewrite ?Himgs; auto.
  - (* a promise settles *)
    destruct (finishes_images _ _ _ _ Hfin) as (f & Himgs & Hforig & Hfterm).
    split; simpl; auto.
    + by rewrite length_insert.
    + intros j' x Hx Hproc. rewrite Himgs, lookup_map_at in Hx.
      destruct (images (a_world a) !! j') as [y|] eqn:Hy; simpl in Hx; [|done].
      destruct (Nat.eqb j' j) eqn:Hjj; simplify_eq.
      { destruct (Hfterm y) as [Ht|Ht]; congruence. }
      simpl in Hproc. apply Nat.eqb_neq in Hjj.
      destruct (Hcov j' y Hy Hproc) as (i' & img' & Himg' & Hact' & Hj').
      exists i', img'. repeat split; auto.
      rewrite list_lookup_insert_ne; [done|]. intros ->. congruence.
    + rewrite Himgs. rewrite originals_map_at; auto.
    + intros img_d j_d Hd Hjd. rewrite Himgs.
      destruct (decide (j_d = j)) as [->|Hne].
      * destruct (abs_shape_in_range _ _ _ _ _ Hshape Hj) as (y & Hy & _).
        exists (f y). rewrite lookup_map_at_eq, Hy. done.
      * rewrite lookup_map_at_ne by done. apply (Hdone img_d); [|done].
        destruct Hd as [Hd|(i_d & Hid & Had)]; [by left|right].
        exists i_d. split; [done|].
        rewrite list_lookup_insert_ne in Had; [done|]. intros ->. congruence.
  - (* a callback that finds no image *)
    split; simpl; auto.
    + by rewrite <- Hpart, Hsp, <- app_assoc.
    + rewrite !length_app. simpl. lia.
    + intros j x Hx Hproc. destruct (Hcov j x Hx Hproc) as (i & img' & Himg' & Hact' & Hj').
      exists i, img'. repeat split; auto.
      * by apply lookup_app_l_Some.
      * by apply lookup_app_l_Some.
    + intros img_d j_d Hd Hjd. apply (Hdone img_d); [|done].
      destruct Hd as [Hd|(i_d & Hid & Had)]; [by left|right].
      apply lookup_snoc_Some in Hid as [[Hlt Hid]|[Heq ->]]; [|congruence].
      exists i_d. split; [done|]. by rewrite lookup_app_l in Had by lia.
  - (* a callback marks its image *)
    assert (Hfresh : forall img_d,
               (img_d ∈ concat (a_earlier a) \/ img_d ∈ a_batch a) ->
               original img_d <> original img).
    { intros img_d Hin Heq.
      assert (E : concat batches0
                  = (concat (a_earlier a) ++ a_batch a) ++ img :: (rest ++ concat (a_later a))).
      { rewrite <- Hpart, Hsp, concat_app. simpl. by rewrite <- !app_assoc. }
      rewrite E, fmap_app, fmap_cons in Hnodup.
      apply NoDup_app in Hnodup as (_ & Hnotin & _).
      apply (Hnotin (original img_d)).
      - apply list_elem_of_fmap_2. rewrite elem_of_app. tauto.
      - rewrite Heq. apply list_elem_of_here. }
    split; simpl; auto.
    + by rewrite <- Hpart, Hsp, <- app_assoc.
    + rewrite !length_app. simpl. lia.
    + intros j' x Hx Hproc.
      destruct (decide (j' = j)) as [->|Hne].
      * exists (length (a_batch a)), img. repeat split; auto.
        -- by rewrite lookup_app_r, Nat.sub_diag by lia.
        -- by rewrite lookup_app_r, Hlen, Nat.sub_diag by lia.
      * rewrite lookup_map_at_ne in Hx by done.
        destruct (Hcov j' x Hx Hproc) as (i & img' & Himg' & Hact' & Hj').
        exists i, img'. repeat split; auto; by apply lookup_app_l_Some.
    + rewrite originals_map_at; auto.
    + intros img_d j_d Hd Hjd.
      assert (Hold : img_d ∈ concat (a_earlier a)
                     \/ exists i, a_batch a !! i = Some img_d /\ a_active a !! i = Some false).
      { destruct Hd as [Hd|(i_d & Hid & Had)]; [by left|right].
        apply lookup_snoc_Some in Had as [[Hlt Had]|[Heq ?]]; [|done].
        exists i_d. split; [|done]. rewrite lookup_app_l in Hid by lia. done. }
      assert (Hne : j_d <> j).
      { intros ->. destruct (item_index_original _ _ _ Hjd) as (x1 & Hx1 & Ho1).
        destruct (item_index_original _ _ _ Hj) as (x2 & Hx2 & Ho2).
        apply (Hfresh img_d); [|congruence].
        destruct Hold as [?|(i & Hi & _)]; [by left|right].
        by eapply list_elem_of_lookup_2. }
      rewrite lookup_map_at_ne by done. by apply (Hdone img_d).
  - (* the next wave *)
    split; simpl; auto.
    + rewrite <- Hpart, Hsp, Hlater, app_nil_r, <- app_assoc. done.
    + intros j x Hx Hproc. destruct (Hcov j x Hx Hproc) as (i & img' & _ & Hact' & _).
      pose proof (Forall_lookup_1 _ _ _ _ Hall Hact'). done.
    + intros img_d j_d Hd Hjd. apply (Hdone img_d); [|done].
      destruct Hd as [Hd|(i_d & Hid & _)]; [|done].
      rewrite concat_app in Hd. simpl in Hd. rewrite app_nil_r in Hd.
      apply elem_of_app in Hd as [Hd|Hd]; [by left|right].
      apply list_elem_of_lookup_1 in Hd as [i Hi]. exists i. split; [done|].
      destruct (lookup_lt_is_Some_2 (a_active a) i) as [b' Hb'].
      { rewrite Hlen. by eapply lookup_lt_Some. }
      pose proof (Forall_lookup_1 _ _ _ _ Hall Hb') as Hfalse. simpl in Hfalse. by subst.
  - (* the handler ends *)
    split; simpl; auto.
    by rewrite <- Hpart, Hsp, Hlater.
Qed.

Lemma abs_rtc_shape (images_ : list ProcessedImage) (n : nat)
    (batches0 : list (list ProcessedImage)) (a a' : Abs) :
  NoDup (original <$> concat batches0) ->
  abs_shape images_ batches0 a -> rtc (abs_step images_ n) a a' ->
  abs_shape images_ batches0 a'.
Proof. intros Hnd Hshape Hrtc. induction Hrtc; eauto using abs_step_shape. Qed.

Lemma abs_start_shape (w : World) :
  Forall (fun x => status x <> processing) (images w) ->
  filter (fun img => processed img = None) (images w) <> [] ->
  abs_shape (images w)
    (for_batches (filter (fun img => processed img = None) (images w)) 0) (abs_start w).
Proof.
  intros Hnone Hne. unfold abs_start.
  pose proof (for_batches_nonempty _ Hne) as Hbs.
  destruct (for_batches _ 0) as [|b bs]; [done|].
  split; simpl; auto.
  - intros j x Hx Hproc. by pose proof (Forall_lookup_1 _ _ _ _ Hnone Hx).
  - intros img j [Hin|(i & Hi & _)]; [by apply elem_of_nil in Hin|done].
Qed.

Lemma NoDup_originals_pending (l : list ProcessedImage) :
  NoDup (original <$> l) ->
  NoDup (original <$> filter (fun img => processed img = None) l).
Proof.
  intros Hnd. eapply sublist_NoDup; [exact Hnd|]. apply fmap_sublist, sublist_filter.
Qed.

Lemma length_omap_le {A B : Type} (f : A -> option B) (l : list A) :
  length (omap f l) <= length l.
Proof.
  induction l as [|x l IH]; simpl; [done|].
  change (list_omap A B f l) with (omap f l). destruct (f x); simpl; lia.
Qed.

(** The Jobs in status [processing] are no more than the promises of the
    current wave, and these are no more than [batchSize]. *)
Lemma abs_shape_bounded (images_ : list ProcessedImage)
    (batches0 : list (list ProcessedImage)) (a : Abs) :
  Forall (fun b => 0 < length b <= SETTINGS.processing.batchSize) batches0 ->
  abs_shape images_ batches0 a ->
  length (processing_indices (a_world a)) <= length (a_batch a)
  /\ length (a_batch a) <= SETTINGS.processing.batchSize.
Proof.
  intros Hbound [Hpart Hlen Hcov Horig Hdone]. split.
  - transitivity (length (omap (item_index images_) (a_batch a))); [|apply length_omap_le].
    apply submseteq_length, NoDup_submseteq.
    { apply NoDup_filter, NoDup_seq. }
    intros j Hj. apply list_elem_of_filter in Hj as [Hj _].
    destruct (images (a_world a) !! j) as [x|] eqn:Hx; simpl in Hj; [|done].
    destruct (Hcov j x Hx) as (i & img & Himg & _ & Hidx); [congruence|].
    apply list_elem_of_omap. exists img. split; [|done]. by eapply list_elem_of_lookup_2.
  - assert (Hin : a_batch a ++ a_tospawn a ∈ batches0).
    { rewrite <- Hpart. apply elem_of_app. right. apply list_elem_of_here. }
    pose proof (proj1 (Forall_forall _ _) Hbound _ Hin) as Hb. simpl in Hb.
    rewrite length_app in Hb. lia.
Qed.

Lemma bulk_exec_idle (images_ : list ProcessedImage) (n : nat) (schedule : list (nat * event))
    (r : BulkRun) :
  wave r = [] -> bulk_exec images_ n schedule r = r.
Proof.
  intros Hwave. induction schedule as [|[i ev] schedule IH]; [done|].
  cbn [bulk_exec foldl]. unfold bulk_step. rewrite Hwave, lookup_nil. exact IH.
Qed.

Lemma bulk_run_idle (w : World) (schedule : list (nat * event)) :
  filter (fun img => processed img = None) (images w) = [] ->
  bulk_run w schedule = mkBulk w [] [] [] true.
Proof.
  intros Hnone. unfold bulk_run, handleBulkProcess. rewrite Hnone. simpl.
  destruct (isBulkProcessing w); by apply bulk_exec_idle.
Qed.

Lemma processing_indices_none (w : World) :
  Forall (fun x => status x <> processing) (images w) -> processing_indices w = [].
Proof.
  intros Hnone. unfold processing_indices.
  apply elem_of_nil_inv. intros j Hj. apply list_elem_of_filter in Hj as [Hj _].
  destruct (images w !! j) as [x|] eqn:Hx; simpl in Hj; [|done].
  pose proof (Forall_lookup_1 _ _ _ _ Hnone Hx). congruence.
Qed.

(** The abstract state of a run with its shape. *)
Lemma bulk_run_shape (w : World) (schedule : list (nat * event)) :
  isBulkProcessing w = false ->
  Forall (fun x => status x <> processing) (images w) ->
  NoDup (original <$> images w) ->
  filter (fun img => processed img = None) (images w) <> [] ->
  exists a,
    abstracts (images w) (length (filter (fun img => processed img = None) (images w)))
      (bulk_run w schedule) a
    /\ abs_shape (images w)
         (for_batches (filter (fun img => processed img = None) (images w)) 0) a.
Proof.
  intros Hbulk Hnone Hnd Hne.
  destruct (bulk_run_abs w schedule Hbulk Hne) as (a & Hrtc & Habs).
  exists a. split; [done|].
  eapply abs_rtc_shape; [|by apply abs_start_shape|exact Hrtc].
  rewrite for_batches_concat. simpl. by apply NoDup_originals_pending.
Qed.

(** X18.  The waves of a batch run that is left alone.  As long as no other
    handler changes the list of Jobs while the run is in flight -- the
    environment only settles the calls of the run's own promises and
    reports their progress, in any order --, a batch run begun in a render
    that is not running a batch, with no Job in status [processing] and
    distinct originals, keeps at most [batchSize] = 2 Jobs in status
    [processing]: the loop partitions the selection into waves of at most
    [batchSize] images, and whenever a later wave is current every Job of
    the earlier waves is [completed] or [failed]. *)
Theorem at_most_batchSize_jobs_processing (w : World) (schedule : list (nat * event)) :
  isBulkProcessing w = false ->
  Forall (fun x => status x <> processing) (images w) ->
  NoDup (original <$> images w) ->
  length (processing_indices (world (bulk_run w schedule))) <= SETTINGS.processing.batchSize
  /\ SETTINGS.processing.batchSize = 2
  /\ Forall (fun b => 0 < length b <= SETTINGS.processing.batchSize)
       (for_batches (filter (fun img => processed img = None) (images w)) 0)
  /\ concat (for_batches (filter (fun img => processed img = None) (images w)) 0)
     = filter (fun img => processed img = None) (images w)
  /\ exists earlier,
       (filter (fun img => processed img = None) (images w) = []
        \/ earlier ++ batch (bulk_run w schedule) :: later (bulk_run w schedule)
           = for_batches (filter (fun img => processed img = None) (images w)) 0)
       /\ forall img, img ∈ concat earlier ->
            job_terminal (images w) (world (bulk_run w schedule)) img.
Proof.
  intros Hbulk Hnone Hnd.
  split; [|split; [done|split; [apply for_batches_bounded|split; [apply for_batches_concat|]]]].
  - destruct (decide (filter (fun img => processed img = None) (images w) = [])) as [He|Hne].
    { rewrite bulk_run_idle by done. simpl. rewrite processing_indices_none by done.
      simpl. lia. }
    destruct (bulk_run_shape w schedule Hbulk Hnone Hnd Hne) as (a & Habs & Hshape).
    destruct Habs as (-> & _).
    destruct (abs_shape_bounded _ _ _ (for_batches_bounded _ 0) Hshape). lia.
  - destruct (decide (filter (fun img => processed img = None) (images w) = [])) as [He|Hne].
    { exists []. split; [by left|]. intros img Hin. by apply elem_of_nil in Hin. }
    destruct (bulk_run_shape w schedule Hbulk Hnone Hnd Hne) as (a & Habs & Hshape).
    destruct Habs as (Hw & Hb & Hl & _ & Hsp & _).
    exists (a_earlier a). split.
    { right. rewrite Hb, Hl. rewrite <- (shape_partition _ _ _ Hshape), Hsp.
      by rewrite app_nil_r. }
    intros img Hin. rewrite Hw.
    assert (Hsel : img ∈ images w).
    { assert (Hc : img ∈ concat
                     (for_batches (filter (fun img => processed img = None) (images w)) 0)).
      { rewrite <- (shape_partition _ _ _ Hshape), concat_app. apply elem_of_app. by left. }
      rewrite for_batches_concat in Hc. simpl in Hc.
      by apply list_elem_of_filter in Hc as [_ Hc]. }
    destruct (item_index_elem _ _ Hsel) as [j Hj].
    destruct (shape_done _ _ _ Hshape img j (or_introl Hin) Hj) as (x & Hx & Hterm).
    destruct (abs_shape_in_range _ _ _ _ _ Hshape Hj) as (y & Hy & Hoy).
    exists j, x. repeat split; auto. congruence.
Qed.

Lemma at_most_batchSize_witness :
  length (processing_indices (world (bulk_run (uploaded_world 5) scenario_E_schedule)))
    <= SETTINGS.processing.batchSize
  /\ SETTINGS.processing.batchSize = 2
  /\ Forall (fun b => 0 < length b <= SETTINGS.processing.batchSize)
       (for_batches (filter (fun img => processed img = None) (images (uploaded_world 5))) 0)
  /\ concat (for_batches (filter (fun img => processed img = None)
                            (images (uploaded_world 5))) 0)
     = filter (fun img => processed img = None) (images (uploaded_world 5))
  /\ exists earlier,
       (filter (fun img => processed img = None) (images (uploaded_world 5)) = []
        \/ earlier ++ batch (bulk_run (uploaded_world 5) scenario_E_schedule)
                   :: later (bulk_run (uploaded_world 5) scenario_E_schedule)
           = for_batches (filter (fun img => processed img = None)
                            (images (uploaded_world 5))) 0)
       /\ forall img, img ∈ concat earlier ->
            job_terminal (images (uploaded_world 5))
              (world (bulk_run (uploaded_world 5) scenario_E_schedule)) img.
Proof.
  apply (at_most_batchSize_jobs_processing (uploaded_world 5) scenario_E_schedule).
  - reflexivity.
  - repeat constructor; simpl; discriminate.
  - apply (bool_decide_unpack _). vm_compute. exact I.
Defined.

(** C4 at a batch during which a Job is deleted.  [handleDelete] is not held
    back by a running batch, and the callbacks of the batch address their
    Jobs by the index found in the list of the render that created the
    handler.  Seven pending Jobs, all calls succeed.  The first wave
    completes; while the second wave (Jobs 2 and 3) is in flight the user
    deletes Job 0, and the list shifts by one.  The second wave then records
    its results one position too far and starts the third wave: three Jobs
    are in status [processing], more than [batchSize].  When the run has
    ended with 'Processed 7 out of 7', Job 2 -- the first of the second wave
    -- is still [processing], for good, and has no result. *)
Lemma delete_during_batch_exceeds_batchSize :
  let images_ := images (uploaded_world 7) in
  let wave_settles := succeeds 0 ++ succeeds 1 in
  let r1 := bulk_run (uploaded_world 7) wave_settles in
  let r2 := bulk_interleave click_delete r1 in
  let r3 := bulk_exec images_ 7 wave_settles r2 in
  let r4 := bulk_exec images_ 7 (wave_settles ++ succeeds 0) r3 in
  map status (images (world r1))
  = [completed; completed; processing; processing; pending; pending; pending]
  /\ map status (images (world r2))
     = [completed; processing; processing; pending; pending; pending]
  /\ map status (images (world r3))
     = [completed; processing; completed; completed; processing; processing]
  /\ processing_indices (world r3) = [1; 4; 5]
  /\ SETTINGS.processing.batchSize < length (processing_indices (world r3))
  /\ settled r4 = true
  /\ map status (images (world r4))
     = [completed; processing; completed; completed; completed; completed]
  /\ (processed <$> images (world r4) !! 1) = Some None
  /\ toasts (world r4) = [toast_image_deleted; toast_bulk_complete 7 7].
Proof. repeat split; vm_compute; (reflexivity || lia). Qed.


(** ** What a batch run reports *)

(** Rounding to the nearest double is monotone. *)

Lemma pow2_pos (e : Z) : (0 < pow2 e)%Q.
Proof. apply Qpower_0_lt. reflexivity. Qed.

Lemma pow2_le (e1 e2 : Z) : (e1 <= e2)%Z -> (pow2 e1 <= pow2 e2)%Q.
Proof. intros H. apply Qpower_le_compat_l; [exact H|discriminate]. Qed.

Lemma pow2_plus (e1 e2 : Z) : (pow2 (e1 + e2) == pow2 e1 * pow2 e2)%Q.
Proof. apply Qpower_plus. discriminate. Qed.

Lemma pow2_Z (e : Z) : (0 <= e)%Z -> (pow2 e == inject_Z (2 ^ e))%Q.
Proof. intros H. unfold pow2. by rewrite Zpower_Qpower. Qed.

Lemma pow2_quotient (e1 e2 : Z) : (pow2 e1 / pow2 e2 == pow2 (e1 - e2))%Q.
Proof.
  pose proof (pow2_pos e2) as H2.
  assert (E : (pow2 e1 == pow2 (e1 - e2) * pow2 e2)%Q).
  { rewrite <- pow2_plus. by replace (e1 - e2 + e2)%Z with e1 by lia. }
  rewrite E. field. intros H0. rewrite H0 in H2. by apply Qlt_irrefl in H2.
Qed.

Lemma Q_as_quotient (x : Q) : (x == inject_Z (Qnum x) / inject_Z (Zpos (Qden x)))%Q.
Proof. destruct x as [a b]. simpl. rewrite Qmake_Qdiv. reflexivity. Qed.

Lemma ilog2_spec (x : Q) :
  (0 < x)%Q -> (pow2 (ilog2 x) <= x)%Q /\ (x < pow2 (ilog2 x + 1))%Q.
Proof.
  intros Hx.
  assert (Ha : (0 < Qnum x)%Z).
  { destruct x as [a b]. unfold Qlt in Hx. simpl in *. lia. }
  destruct (Z.log2_spec (Qnum x) Ha) as [Ha1 Ha2].
  destruct (Z.log2_spec (Zpos (Qden x)) eq_refl) as [Hb1 Hb2].
  pose proof (Z.log2_nonneg (Qnum x)) as Hla.
  pose proof (Z.log2_nonneg (Zpos (Qden x))) as Hlb.
  set (la := Z.log2 (Qnum x)) in *. set (lb := Z.log2 (Zpos (Qden x))) in *.
  assert (HA1 : (pow2 la <= inject_Z (Qnum x))%Q).
  { rewrite pow2_Z by done. by rewrite <- Zle_Qle. }
  assert (HA2 : (inject_Z (Qnum x) < pow2 (la + 1))%Q).
  { rewrite pow2_Z by lia. rewrite <- Zlt_Qlt. by replace (la + 1)%Z with (Z.succ la) by lia. }
  assert (HB1 : (pow2 lb <= inject_Z (Zpos (Qden x)))%Q).
  { rewrite pow2_Z by done. by rewrite <- Zle_Qle. }
  assert (HB2 : (inject_Z (Zpos (Qden x)) < pow2 (lb + 1))%Q).
  { rewrite pow2_Z by lia. rewrite <- Zlt_Qlt. by replace (lb + 1)%Z with (Z.succ lb) by lia. }
  pose proof (Q_as_quotient x) as Hq.
  assert (HB0 : (0 < inject_Z (Zpos (Qden x)))%Q) by (by rewrite <- (Zlt_Qlt 0)).
  assert (Hmul : (x * inject_Z (Zpos (Qden x)) == inject_Z (Qnum x))%Q).
  { rewrite Hq at 1. field. intros H0. rewrite H0 in HB0. by apply Qlt_irrefl in HB0. }
  assert (Hlow : (pow2 (la - lb - 1) <= x)%Q).
  { assert (E : (pow2 la == pow2 (la - lb - 1) * pow2 (lb + 1))%Q).
    { rewrite <- pow2_plus. by replace (la - lb - 1 + (lb + 1))%Z with la by lia. }
    pose proof (pow2_pos (la - lb - 1)). pose proof (pow2_pos (lb + 1)).
    apply Qnot_lt_le. intros Hlt.
    assert ((x * inject_Z (Zpos (Qden x)) < pow2 (la - lb - 1) * pow2 (lb + 1))%Q).
    { apply Qle_lt_trans with (x * pow2 (lb + 1))%Q.
      - apply Qmult_le_l; [done|]. by apply Qlt_le_weak.
      - by apply Qmult_lt_r. }
    rewrite Hmul, <- E in H1. apply (Qlt_irrefl (pow2 la)). by eapply Qle_lt_trans. }
  assert (Hup : (x < pow2 (la - lb + 1))%Q).
  { assert (E : (pow2 (la + 1) == pow2 (la - lb + 1) * pow2 lb)%Q).
    { rewrite <- pow2_plus. by replace (la - lb + 1 + lb)%Z with (la + 1)%Z by lia. }
    pose proof (pow2_pos (la - lb + 1)). pose proof (pow2_pos lb).
    apply Qnot_le_lt. intros Hle.
    assert ((pow2 (la - lb + 1) * pow2 lb <= x * inject_Z (Zpos (Qden x)))%Q).
    { apply Qle_trans with (x * pow2 lb)%Q.
      - by apply Qmult_le_r.
      - apply Qmult_le_l; [done|]. done. }
    rewrite Hmul, <- E in H1. apply (Qlt_irrefl (pow2 (la + 1))). by eapply Qle_lt_trans. }
  unfold ilog2. fold la lb.
  destruct (Qle_bool (pow2 (la - lb)) x) eqn:Hk.
  - apply Qle_bool_iff in Hk. by split.
  - split; [exact Hlow|].
    replace (la - lb - 1 + 1)%Z with (la - lb)%Z by lia.
    apply Qnot_le_lt. intros H. apply Qle_bool_iff in H. congruence.
Qed.

Lemma ilog2_mono (x y : Q) : (0 < x)%Q -> (x <= y)%Q -> (ilog2 x <= ilog2 y)%Z.
Proof.
  intros Hx Hxy.
  destruct (ilog2_spec x Hx) as [Hx1 _].
  destruct (ilog2_spec y) as [_ Hy2]; [by eapply Qlt_le_trans|].
  destruct (Z.le_gt_cases (ilog2 x) (ilog2 y)) as [|Hgt]; [done|].
  pose proof (pow2_le (ilog2 y + 1) (ilog2 x) ltac:(lia)).
  exfalso. apply (Qlt_irrefl y).
  eapply Qlt_le_trans; [exact Hy2|]. eapply Qle_trans; [exact H|].
  by eapply Qle_trans.
Qed.

Ltac compare_spec H :=
  first [apply <- Qeq_alt in H | apply <- Qlt_alt in H | apply <- Qgt_alt in H].

Lemma round_half_even_bounds (q : Q) :
  (Qfloor q <= round_half_even q <= Qfloor q + 1)%Z.
Proof.
  unfold round_half_even.
  destruct (q - inject_Z (Qfloor q) ?= 1 # 2)%Q; [destruct (Z.even _)| |]; lia.
Qed.

Lemma round_half_even_mono (q1 q2 : Q) :
  (q1 <= q2)%Q -> (round_half_even q1 <= round_half_even q2)%Z.
Proof.
  intros Hle. pose proof (Qfloor_resp_le _ _ Hle) as Hf.
  pose proof (round_half_even_bounds q1). pose proof (round_half_even_bounds q2).
  destruct (Z.eq_dec (Qfloor q1) (Qfloor q2)) as [Heq|Hne]; [|lia].
  unfold round_half_even. rewrite <- Heq.
  destruct (q1 - inject_Z (Qfloor q1) ?= 1 # 2)%Q eqn:H1;
    destruct (q2 - inject_Z (Qfloor q1) ?= 1 # 2)%Q eqn:H2;
    try (destruct (Z.even (Qfloor q1))); try lia;
    compare_spec H1; compare_spec H2; exfalso; lra.
Qed.

Lemma round_half_even_Z (z : Z) : round_half_even (inject_Z z) = z.
Proof.
  unfold round_half_even. rewrite Qfloor_Z.
  destruct (inject_Z z - inject_Z z ?= 1 # 2)%Q eqn:H; [| done |];
    compare_spec H; exfalso; lra.
Qed.

Lemma round_half_even_le_Z (q : Q) (z : Z) :
  (q <= inject_Z z)%Q -> (round_half_even q <= z)%Z.
Proof. intros H. rewrite <- (round_half_even_Z z). by apply round_half_even_mono. Qed.

Lemma round_half_even_ge_Z (q : Q) (z : Z) :
  (inject_Z z <= q)%Q -> (z <= round_half_even q)%Z.
Proof. intros H. rewrite <- (round_half_even_Z z) at 1. by apply round_half_even_mono. Qed.

Lemma ulp_exponent_mono (x y : Q) :
  (0 < x)%Q -> (x <= y)%Q -> (ulp_exponent x <= ulp_exponent y)%Z.
Proof. intros Hx Hxy. pose proof (ilog2_mono x y Hx Hxy). unfold ulp_exponent. lia. Qed.

Lemma nearest_mono (x y : Q) : (0 < x)%Q -> (x <= y)%Q -> (nearest x <= nearest y)%Q.
Proof.
  intros Hx Hxy. assert (Hy : (0 < y)%Q) by (by eapply Qlt_le_trans).
  pose proof (ulp_exponent_mono x y Hx Hxy) as He.
  unfold nearest.
  destruct (Z.eq_dec (ulp_exponent x) (ulp_exponent y)) as [Heq|Hne].
  - rewrite Heq. pose proof (pow2_pos (ulp_exponent y)) as Hp.
    apply Qmult_le_r; [done|]. rewrite <- Zle_Qle. apply round_half_even_mono.
    apply Qmult_le_r; [by apply Qinv_lt_0_compat|done].
  - assert (Hey : ulp_exponent y = (ilog2 y - 52)%Z) by (unfold ulp_exponent in *; lia).
    assert (Hlog : (ilog2 x + 1 <= ilog2 y)%Z) by (unfold ulp_exponent in *; lia).
    destruct (ilog2_spec x Hx) as [_ Hx2]. destruct (ilog2_spec y Hy) as [Hy1 _].
    pose proof (pow2_le _ _ Hlog) as HB.
    set (ex := ulp_exponent x) in *. set (ey := ulp_exponent y) in *.
    pose proof (pow2_pos ex) as Hpx. pose proof (pow2_pos ey) as Hpy.
    apply Qle_trans with (pow2 (ilog2 y)).
    + assert (Hm : (0 <= ilog2 y - ex)%Z) by lia.
      assert (E : (pow2 (ilog2 y) == inject_Z (2 ^ (ilog2 y - ex)) * pow2 ex)%Q).
      { rewrite <- pow2_Z by done. rewrite <- pow2_plus.
        by replace (ilog2 y - ex + ex)%Z with (ilog2 y) by lia. }
      rewrite E. apply Qmult_le_r; [done|]. rewrite <- Zle_Qle.
      apply round_half_even_le_Z. rewrite <- pow2_Z by done.
      rewrite <- pow2_quotient.
      apply Qmult_le_r; [by apply Qinv_lt_0_compat|].
      apply Qlt_le_weak. by eapply Qlt_le_trans.
    + assert (E : (pow2 (ilog2 y) == inject_Z (2 ^ 52) * pow2 ey)%Q).
      { rewrite <- pow2_Z by done. rewrite <- pow2_plus.
        by replace (52 + ey)%Z with (ilog2 y) by lia. }
      rewrite E. apply Qmult_le_r; [done|]. rewrite <- Zle_Qle.
      apply round_half_even_ge_Z. rewrite <- pow2_Z by done.
      replace 52%Z with (ilog2 y - ey)%Z by lia.
      rewrite <- pow2_quotient.
      apply Qmult_le_r; [by apply Qinv_lt_0_compat|done].
Qed.

Lemma nearest_nonneg (x : Q) : (0 < x)%Q -> (0 <= nearest x)%Q.
Proof.
  intros Hx. unfold nearest. pose proof (pow2_pos (ulp_exponent x)) as Hp.
  apply Qmult_le_0_compat; [|by apply Qlt_le_weak].
  rewrite <- (Zle_Qle 0). apply (round_half_even_ge_Z _ 0).
  apply Qmult_le_0_compat; [by apply Qlt_le_weak|].
  apply Qlt_le_weak. by apply Qinv_lt_0_compat.
Qed.

Lemma binary64_nonneg (x : Q) : (0 <= x)%Q -> (0 <= binary64 x)%Q.
Proof.
  intros Hx. unfold binary64. destruct (x ?= 0)%Q eqn:H.
  - apply Qle_refl.
  - compare_spec H. exfalso. lra.
  - compare_spec H. by apply nearest_nonneg.
Qed.

Lemma binary64_mono (x y : Q) : (0 <= x)%Q -> (x <= y)%Q -> (binary64 x <= binary64 y)%Q.
Proof.
  intros Hx Hxy. unfold binary64 at 1. destruct (x ?= 0)%Q eqn:H.
  - apply binary64_nonneg. lra.
  - compare_spec H. exfalso. lra.
  - compare_spec H. unfold binary64. destruct (y ?= 0)%Q eqn:H'.
    + compare_spec H'. exfalso. lra.
    + compare_spec H'. exfalso. lra.
    + by apply nearest_mono.
Qed.

Lemma percent_mono (n k1 k2 : nat) : k1 <= k2 -> (percent k1 n <= percent k2 n)%Z.
Proof.
  intros Hle. unfold percent, Math_round. apply Qfloor_resp_le.
  apply Qplus_le_l.
  assert (H0 : forall k : nat, (0 <= Z.of_nat k # Pos.of_nat n)%Q).
  { intros k. unfold Qle; simpl. lia. }
  apply binary64_mono.
  - apply Qmult_le_0_compat; [by apply binary64_nonneg|discriminate].
  - apply Qmult_le_compat_r; [|discriminate].
    apply binary64_mono; [done|].
    unfold Qle; simpl. apply Z.mul_le_mono_nonneg_r; lia.
Qed.

Lemma batch_reports_reset (v : Z) (w : World) :
  batch_reports (with_progress site_reset v w) = batch_reports w.
Proof. unfold batch_reports; simpl. rewrite omap_app; simpl. apply app_nil_r. Qed.

Lemma abs_step_reported (images_ : list ProcessedImage) (w0 : World) (n : nat) (a a' : Abs) :
  abs_reported w0 n a -> abs_step images_ n a a' -> abs_reported w0 n a'.
Proof.
  intros [Hrep Hset Hrun] Hstep.
  destruct Hstep as [a i w' Hact Hfr|a i j img w' Himg Hact Hj Hfin|a img rest Hsp Hj
                    |a img rest j Hsp Hj|a b bs Hsp Hall Hlater Hs|a Hsp Hall Hlater Hs].
  - (* a quiet step *)
    destruct Hfr as [_ _ _ Hbulk Hloc _ Htoasts Hbr].
    split; simpl.
    + by rewrite Hbr, Hloc.
    + intros Hs. destruct (Hset Hs) as (Hall & _).
      pose proof (Forall_lookup_1 _ _ _ _ Hall Hact) as Hf. simpl in Hf. done.
    + intros Hs. destruct (Hrun Hs). split; congruence.
  - (* a promise settles *)
    destruct Hfin as (Hbulk & Htoasts & Hcase).
    split; simpl.
    + destruct Hcase as [(_ & Hloc & Hbr & _)|(_ & Hloc & Hbr)].
      * rewrite Hbr, Hloc, Hrep, seq_S, map_app, <- app_assoc. done.
      * by rewrite Hbr, Hloc.
    + intros Hs. destruct (Hset Hs) as (Hall & _).
      pose proof (Forall_lookup_1 _ _ _ _ Hall Hact) as Hf. simpl in Hf. done.
    + intros Hs. destruct (Hrun Hs). split; congruence.
  - (* a callback that finds no image *)
    split; simpl; auto.
    intros Hs. destruct (Hset Hs) as (_ & Hnil & _). congruence.
  - (* a callback marks its image *)
    split; simpl; auto.
    intros Hs. destruct (Hset Hs) as (_ & Hnil & _). congruence.
  - (* the next wave *)
    split; simpl; auto. done.
  - (* the handler ends *)
    destruct (Hrun Hs) as [Htoasts Hbulk].
    split; cbn [a_world a_settled a_active a_tospawn].
    + unfold bulk_finally, setProgress. rewrite batch_reports_reset. exact Hrep.
    + intros _. repeat split; auto.
      * unfold bulk_finally, setProgress; simpl. by rewrite last_snoc.
      * simpl. by rewrite Htoasts.
    + done.
Qed.

Lemma abs_rtc_reported (images_ : list ProcessedImage) (w0 : World) (n : nat) (a a' : Abs) :
  abs_reported w0 n a -> rtc (abs_step images_ n) a a' -> abs_reported w0 n a'.
Proof. intros Hrep Hrtc. induction Hrtc; eauto using abs_step_reported. Qed.

Lemma abs_start_reported (w : World) (n : nat) : abs_reported w n (abs_start w).
Proof.
  unfold abs_start. split; simpl; auto.
  - by rewrite app_nil_r.
  - done.
Qed.

Lemma non_decreasing_percent (n k : nat) :
  non_decreasing (map (fun k => percent k n) (seq 1 k)).
Proof.
  intros i j x y Hij Hx Hy.
  rewrite list_lookup_fmap in Hx, Hy.
  destruct (seq 1 k !! i) as [ki|] eqn:Hi; [|done].
  destruct (seq 1 k !! j) as [kj|] eqn:Hj; [|done].
  apply lookup_seq in Hi as [-> _]. apply lookup_seq in Hj as [-> _].
  simpl in Hx, Hy. simplify_eq. apply percent_mono. lia.
Qed.

(** *** One report for every Job the run completes *)

Lemma item_index_position (images_ : list ProcessedImage) (img : ProcessedImage) (j : nat) :
  NoDup (original <$> images_) -> img ∈ images_ ->
  item_index images_ img = Some j -> images_ !! j = Some img.
Proof.
  intros Hnd Hin Hj.
  destruct (item_index_original _ _ _ Hj) as (x & Hx & Hox).
  apply list_elem_of_lookup_1 in Hin as [j' Hj'].
  assert (j = j'); [|by subst].
  eapply (NoDup_lookup _ _ _ (original img) Hnd).
  - by rewrite list_lookup_fmap, Hx; simpl; rewrite Hox.
  - by rewrite list_lookup_fmap, Hj'.
Qed.

Lemma map_at_middle (j : nat) (f : ProcessedImage -> ProcessedImage)
    (l : list ProcessedImage) (x : ProcessedImage) :
  l !! j = Some x -> map_at j f l = take j l ++ f x :: drop (S j) l.
Proof.
  intros Hj. pose proof (lookup_lt_Some _ _ _ Hj) as Hlt.
  apply list_eq. intros k. rewrite lookup_map_at.
  destruct (lt_eq_lt_dec k j) as [[Hk| ->]|Hk].
  - rewrite lookup_app_l by (rewrite length_take; lia).
    rewrite lookup_take, decide_True by lia.
    destruct (Nat.eqb_spec k j); [lia|]. by destruct (l !! k).
  - rewrite lookup_app_r by (rewrite length_take; lia).
    rewrite length_take, Nat.min_l, Nat.sub_diag, Nat.eqb_refl, Hj by lia. done.
  - rewrite lookup_app_r by (rewrite length_take; lia).
    rewrite length_take, Nat.min_l by lia.
    destruct (k - j) as [|d] eqn:Hd; [lia|]. simpl. rewrite lookup_drop.
    replace (S j + d) with k by lia.
    destruct (Nat.eqb_spec k j); [lia|]. by destruct (l !! k).
Qed.

Lemma map_at_outside (j : nat) (f : ProcessedImage -> ProcessedImage)
    (l : list ProcessedImage) :
  l !! j = None -> map_at j f l = l.
Proof.
  intros Hj. apply list_eq. intros k. rewrite lookup_map_at.
  destruct (Nat.eqb_spec k j) as [->|Hne]; [by rewrite Hj|]. by destruct (l !! k).
Qed.

Lemma completed_map_at (j : nat) (f : ProcessedImage -> ProcessedImage)
    (l : list ProcessedImage) (x : ProcessedImage) :
  l !! j = Some x -> status x <> completed ->
  length (filter (fun x => status x = completed) (map_at j f l))
  = length (filter (fun x => status x = completed) l)
    + (if decide (status (f x) = completed) then 1 else 0).
Proof.
  intros Hj Hx. rewrite (map_at_middle _ _ _ _ Hj).
  rewrite <- (take_drop_middle l j x Hj) at 3.
  rewrite !filter_app, !filter_cons, !length_app.
  destruct (decide (status x = completed)); [done|].
  destruct (decide (status (f x) = completed)); simpl; lia.
Qed.

Lemma distinct_indices (images_ : list ProcessedImage) (img1 img2 : ProcessedImage)
    (j1 j2 : nat) :
  item_index images_ img1 = Some j1 -> item_index images_ img2 = Some j2 ->
  original img1 <> original img2 -> j1 <> j2.
Proof.
  intros H1 H2 Hne ->.
  destruct (item_index_original _ _ _ H1) as (x1 & Hx1 & Ho1).
  destruct (item_index_original _ _ _ H2) as (x2 & Hx2 & Ho2). congruence.
Qed.

Lemma abs_step_counted (images_ : list ProcessedImage) (n : nat)
    (batches0 : list (list ProcessedImage)) (w0 : World) (a a' : Abs) :
  NoDup (original <$> concat batches0) ->
  abs_shape images_ batches0 a -> abs_counted images_ w0 a ->
  abs_step images_ n a a' -> abs_counted images_ w0 a'.
Proof.
  intros Hnodup Hshape [Hcount Hactive Hwait] Hstep.
  pose proof (shape_partition _ _ _ Hshape) as Hpart.
  pose proof (shape_lengths _ _ _ Hshape) as Hlen.
  assert (E : original <$> concat batches0
              = (original <$> concat (a_earlier a)) ++ (original <$> a_batch a)
                ++ (original <$> a_tospawn a ++ concat (a_later a))).
  { rewrite <- Hpart, concat_app. simpl. by rewrite !fmap_app, <- !app_assoc. }
  rewrite E in Hnodup. apply NoDup_app in Hnodup as (_ & _ & Hnodup).
  apply NoDup_app in Hnodup as (Hnd_batch & Hdisj & Hnd_wait).
  assert (Hd1 : forall i i' img img', i <> i' ->
             a_batch a !! i = Some img -> a_batch a !! i' = Some img' ->
             original img <> original img').
  { intros i i' img img' Hii Hi Hi' Heq. apply Hii.
    eapply (NoDup_lookup _ i i' (original img) Hnd_batch).
    - by rewrite list_lookup_fmap, Hi.
    - by rewrite list_lookup_fmap, Hi', Heq. }
  assert (Hd2 : forall img img_w, img ∈ a_batch a ->
             img_w ∈ a_tospawn a ++ concat (a_later a) ->
             original img <> original img_w).
  { intros img img_w Hin Hin_w Heq. apply (Hdisj (original img)).
    - by apply list_elem_of_fmap_2.
    - rewrite Heq. by apply list_elem_of_fmap_2. }
  destruct Hstep as [a i w' Hact Hfr|a i j img w' Himg Hact Hj Hfin|a img rest Hsp Hj
                    |a img rest j Hsp Hj|a b bs Hsp Hall Hlater Hs|a Hsp Hall Hlater Hs].
  - (* a quiet step *)
    pose proof (frame_images _ _ Hfr) as Himgs.
    pose proof (frame_processed_local _ _ Hfr) as Hloc.
    split; simpl; unfold completed_count; rewrite ?Himgs, ?Hloc; auto.
  - (* a promise settles *)
    pose proof (Hactive i img j Himg Hact Hj) as Hproc.
    destruct (images (a_world a) !! j) as [x|] eqn:Hx; simpl in Hproc; [|done].
    injection Hproc as Hproc.
    assert (Hxc : status x <> completed) by congruence.
    assert (Hother : forall img' j', original img' <> original img ->
               item_index images_ img' = Some j' ->
               forall f, map_at j f (images (a_world a)) !! j' = images (a_world a) !! j').
    { intros img' j' Hne Hj' f. apply lookup_map_at_ne.
      by apply (distinct_indices images_ img' img). }
    destruct Hfin as (_ & _ & [([u Himgs] & Hloc & _)|(Himgs & Hloc & _)]).
    + split; simpl.
      * unfold completed_count in *. rewrite Himgs, (completed_map_at _ _ _ _ Hx Hxc).
        simpl. lia.
      * intros i' img' j' Hi' Ha' Hj'.
        destruct (decide (i' = i)) as [->|Hne].
        { rewrite list_lookup_insert_eq in Ha'; [done|]. rewrite Hlen.
          by eapply lookup_lt_Some. }
        rewrite list_lookup_insert_ne in Ha' by done.
        rewrite Himgs, (Hother img' j'); eauto.
      * intros img_w j_w x_w Hin Hj_w. rewrite Himgs, (Hother img_w j_w); eauto.
        intros Heq. apply (Hd2 img img_w); [by eapply list_elem_of_lookup_2|done|done].
    + split; simpl.
      * unfold completed_count in *. rewrite Himgs, (completed_map_at _ _ _ _ Hx Hxc).
        simpl. lia.
      * intros i' img' j' Hi' Ha' Hj'.
        destruct (decide (i' = i)) as [->|Hne].
        { rewrite list_lookup_insert_eq in Ha'; [done|]. rewrite Hlen.
          by eapply lookup_lt_Some. }
        rewrite list_lookup_insert_ne in Ha' by done.
        rewrite Himgs, (Hother img' j'); eauto.
      * intros img_w j_w x_w Hin Hj_w. rewrite Himgs, (Hother img_w j_w); eauto.
        intros Heq. apply (Hd2 img img_w); [by eapply list_elem_of_lookup_2|done|done].
  - (* a callback that finds no image *)
    split; simpl; auto.
    + intros i' img' j' Hi' Ha' Hj'.
      apply lookup_snoc_Some in Ha' as [[Hlt Ha']|[_ ?]]; [|done].
      rewrite lookup_app_l in Hi' by lia. eauto.
    + intros img_w j_w x_w Hin. apply (Hwait img_w). rewrite Hsp. by right.
  - (* a callback marks its image *)
    assert (Hfresh : forall img', img' ∈ a_batch a \/ img' ∈ rest ++ concat (a_later a) ->
               original img' <> original img).
    { intros img' [Hin|Hin] Heq.
      - apply (Hd2 img' img); [done| |done]. rewrite Hsp. left.
      - rewrite Hsp in Hnd_wait. simpl in Hnd_wait.
        apply NoDup_cons in Hnd_wait as [Hnotin _]. apply Hnotin.
        rewrite <- Heq. by apply list_elem_of_fmap_2. }
    assert (Hother : forall img' j', original img' <> original img ->
               item_index images_ img' = Some j' ->
               map_at j (set_status processing) (images (a_world a)) !! j'
               = images (a_world a) !! j').
    { intros img' j' Hne Hj'. apply lookup_map_at_ne.
      by apply (distinct_indices images_ img' img). }
    destruct (abs_shape_in_range _ _ _ _ _ Hshape Hj) as (y & Hy & _).
    assert (Hyc : status y <> completed).
    { apply (Hwait img j y); [|done|done]. rewrite Hsp. left. }
    split; simpl.
    + unfold completed_count in *. simpl.
      rewrite (completed_map_at _ _ _ _ Hy Hyc). simpl. lia.
    + intros i' img' j' Hi' Ha' Hj'.
      apply lookup_snoc_Some in Ha' as [[Hlt Ha']|[Heq _]].
      * rewrite lookup_app_l in Hi' by lia. rewrite (Hother img' j'); eauto.
        apply Hfresh. left. by eapply list_elem_of_lookup_2.
      * rewrite lookup_app_r in Hi' by lia.
        rewrite Heq, Hlen, Nat.sub_diag in Hi'. simpl in Hi'. simplify_eq.
        by rewrite lookup_map_at_eq, Hy.
    + intros img_w j_w x_w Hin Hj_w.
      rewrite (Hother img_w j_w); [|apply Hfresh; by right|done].
      apply (Hwait img_w j_w x_w); [|done]. rewrite Hsp. by right.
  - (* the next wave *)
    split; simpl; auto.
    + intros i' img' j' Hi'. by rewrite lookup_nil in Hi'.
    + intros img_w j_w x_w Hin. apply (Hwait img_w). by rewrite Hsp, Hlater.
  - (* the handler ends *)
    split; simpl; auto.
    intros img_w j_w x_w Hin. by apply elem_of_nil in Hin.
Qed.

Lemma abs_rtc_counted (images_ : list ProcessedImage) (n : nat)
    (batches0 : list (list ProcessedImage)) (w0 : World) (a a' : Abs) :
  NoDup (original <$> concat batches0) ->
  abs_shape images_ batches0 a -> abs_counted images_ w0 a ->
  rtc (abs_step images_ n) a a' -> abs_counted images_ w0 a'.
Proof.
  intros Hnd Hshape Hcounted Hrtc. induction Hrtc as [|a1 a2 a3 Hstep _ IH]; [done|].
  apply IH; [by eapply abs_step_shape|by eapply abs_step_counted].
Qed.

Lemma abs_start_counted (w : World) :
  NoDup (original <$> images w) -> images_ok w ->
  filter (fun img => processed img = None) (images w) <> [] ->
  abs_counted (images w) w (abs_start w).
Proof.
  intros Hnd Hok Hne. unfold abs_start.
  pose proof (for_batches_concat (filter (fun img => processed img = None) (images w)) 0)
    as Hconcat.
  pose proof (for_batches_nonempty _ Hne) as Hbs.
  destruct (for_batches _ 0) as [|b bs]; [done|].
  split; simpl.
  - unfold completed_count. simpl. lia.
  - intros i img j Hi. by rewrite lookup_nil in Hi.
  - intros img j x Hin Hj Hx.
    assert (Hsel : img ∈ drop 0 (filter (fun img => processed img = None) (images w))).
    { by rewrite <- Hconcat. }
    simpl in Hsel.
    apply list_elem_of_filter in Hsel as [Hnone Hsel].
    rewrite (item_index_position _ _ _ Hnd Hsel Hj) in Hx. injection Hx as <-.
    intros Hc. by apply (proj1 (Forall_forall _ _) Hok img Hsel).
Qed.

(** C5, as the code has it.  During a batch run over a non-empty selection
    of [n] Jobs in which no other handler changes the list (the environment
    only settles the calls of the run's promises and reports their
    progress), begun in a render that is not running a batch, where no Job
    is in status [processing], originals are distinct and a [completed] Job
    has a result: under every schedule, the fractions the batch itself has
    reported are [percent 1 n], ..., [percent s n], where [s] is the number
    of Jobs the run has completed so far -- one report for every Job that
    is completed, none for a Job that fails -- and the sequence is
    non-decreasing.  [percent k n] is [Math.round] of the double product
    [(k / n) * 100]: 23 of 40 reports 57.  Once the handler has ended,
    progress has been reset to 0 (the last value reported), whatever the
    number of failures, and the summary counts the [s] Jobs completed.  (The
    transform's own progress callback writes the same progress value in
    between.)  In the run of two Jobs of which one fails, the only fraction
    reported is 50 and the summary is 1 of 2. *)
Theorem batch_progress_counts_successes (w : World) (schedule : list (nat * event)) :
  isBulkProcessing w = false ->
  filter (fun img => processed img = None) (images w) <> [] ->
  Forall (fun x => status x <> processing) (images w) ->
  NoDup (original <$> images w) ->
  images_ok w ->
  batch_reports (world (bulk_run w schedule))
    = batch_reports w
      ++ map (fun k => percent k (length (filter (fun img => processed img = None) (images w))))
           (seq 1 (completed_count (world (bulk_run w schedule)) - completed_count w))
  /\ non_decreasing
       (map (fun k => percent k (length (filter (fun img => processed img = None) (images w))))
          (seq 1 (completed_count (world (bulk_run w schedule)) - completed_count w)))
  /\ (settled (bulk_run w schedule) = true ->
      progress (world (bulk_run w schedule)) = 0%Z
      /\ last (progress_log (world (bulk_run w schedule))) = Some (site_reset, 0%Z)
      /\ toasts (world (bulk_run w schedule))
         = toasts w
           ++ [toast_bulk_complete
                 (completed_count (world (bulk_run w schedule)) - completed_count w)
                 (length (filter (fun img => processed img = None) (images w)))])
  /\ percent 23 40 = 57%Z
  /\ batch_reports (world (bulk_run (uploaded_world 2) mixed_schedule)) = [50%Z]
  /\ map status (images (world (bulk_run (uploaded_world 2) mixed_schedule)))
     = [completed; failed]
  /\ toasts (world (bulk_run (uploaded_world 2) mixed_schedule)) = [toast_bulk_complete 1 2].
Proof.
  intros Hbulk Hne Hnone Hnd Hok.
  destruct (bulk_run_abs w schedule Hbulk Hne) as (a & Hrtc & Habs).
  pose proof (abs_rtc_reported _ w _ _ _ (abs_start_reported w _) Hrtc) as [Hrep Hset _].
  assert (Hnd' : NoDup (original <$> concat
                          (for_batches (filter (fun img => processed img = None) (images w)) 0))).
  { rewrite for_batches_concat. simpl. by apply NoDup_originals_pending. }
  pose proof (abs_rtc_counted _ _ _ w _ _ Hnd' (abs_start_shape w Hnone Hne)
                (abs_start_counted w Hnd Hok Hne) Hrtc) as [Hcount _ _].
  destruct Habs as (Hw & _ & _ & Hs & _).
  rewrite Hw, Hs.
  replace (completed_count (a_world a) - completed_count w)
    with (processed_local (a_world a)) by lia.
  split; [exact Hrep|]. split; [apply non_decreasing_percent|].
  split; [|by vm_compute].
  intros Hsettled. destruct (Hset Hsettled) as (_ & _ & Hp & Hlast & Htoasts). done.
Qed.

Lemma batch_progress_witness :
  batch_reports (world (bulk_run (uploaded_world 5) scenario_E_schedule))
  = batch_reports (uploaded_world 5)
    ++ map (fun k => percent k (length (filter (fun img => processed img = None)
                                          (images (uploaded_world 5)))))
         (seq 1 (completed_count (world (bulk_run (uploaded_world 5) scenario_E_schedule))
                 - completed_count (uploaded_world 5))).
Proof.
  apply (batch_progress_counts_successes (uploaded_world 5) scenario_E_schedule).
  - reflexivity.
  - vm_compute. discriminate.
  - repeat constructor; simpl; discriminate.
  - apply (bool_decide_unpack _). vm_compute. exact I.
  - repeat constructor; simpl; discriminate.
Defined.

(** C5, as stated, fails: in Scenario E (five Jobs, all succeed) the
    reported progress values go 50, 20, 50, 40, ... and end with 0: they are
    not non-decreasing, and after the run has settled progress is 0, not
    5/5. *)
Lemma reported_progress_is_not_monotone :
  ~ (non_decreasing
       (map snd (progress_log (world (bulk_run (uploaded_world 5) scenario_E_schedule))))
     /\ progress (world (bulk_run (uploaded_world 5) scenario_E_schedule)) = percent 5 5).
Proof.
  intros [_ H]. vm_compute in H. discriminate H.
Qed.

(** ** Superseded episodes *)

(** C2 at a batch of two Jobs whose transforms succeed.  When the wave
    starts, the episode of the second Job aborts the controller of the
    first one (controller 0) before any transform call is made; yet the
    fetch and the transform of the first Job go on undisturbed and its
    result is recorded in the worklist like that of the second. *)
Lemma superseded_episode_still_records_its_result :
  controllers (world (bulk_run (uploaded_world 2) [])) = [true; false]
  /\ abortController (world (bulk_run (uploaded_world 2) [])) = Some 1
  /\ calls (world (bulk_run (uploaded_world 2) []))
     = [Fetch (BlobUrl 0) None; Fetch (BlobUrl 2) None]
  /\ calls (world (bulk_run (uploaded_world 2) (succeeds 0 ++ succeeds 1)))
     = [Fetch (BlobUrl 0) None; Fetch (BlobUrl 2) None;
        ResponseBlob 7; transform_call 7; ResponseBlob 7; transform_call 7]
  /\ images (world (bulk_run (uploaded_world 2) (succeeds 0 ++ succeeds 1)))
     = [mkImage (BlobUrl 0) (BlobUrl 1) (Some (BlobUrl 4)) "image.png" completed 0;
        mkImage (BlobUrl 2) (BlobUrl 3) (Some (BlobUrl 5)) "image.png" completed 0].
Proof. repeat split; vm_compute; reflexivity. Qed.

(** * Further properties of the code *)

(** ** processImage: what it returns, what it throws, how much it does *)

(** X1.  Against every environment whose rejections are error objects
    (values with a name and a message, as every [Rejected] outcome of this
    model is; a rejection with [null] or [undefined], on which reading
    [error.name] itself throws, is outside it), [processImage] throws
    nothing but 'Max retries exceeded' -- the error of the failed call is
    never rethrown, the final [throw error] is dead -- and what it returns
    is either its input URL (after an [AbortError]) or the object URL minted
    for the transform's output. *)
Theorem processImage_result (env : Env) (imageUrl : Url) (retryCount : nat) (w : World) :
  match (eval env (processImage imageUrl retryCount) w).2 with
  | Thrown e => e = max_retries_exceeded
  | Returned u => u = imageUrl \/ u = BlobUrl (next_url w)
  end.
Proof.
  destruct (eval_processImage env imageUrl retryCount w) as (l & r & _ & _ & ->).
  destruct r; simpl; auto.
Qed.

Lemma attempt_length (env : Env) (h : list call) (imageUrl : Url) (a : list call)
    (r : result nat) :
  attempt env h imageUrl a r -> length a <= 3 /\ transform_calls a <= 1.
Proof. destruct 1; unfold transform_calls; simpl; split; lia. Qed.

Lemma filter_fetch_timer (ms : Z) (l : list call) :
  filter is_fetch (SetTimeout ms :: l) = filter is_fetch l.
Proof. by rewrite filter_cons_False by (simpl; auto). Qed.

Lemma episode_bounds (env : Env) (imageUrl : Url) (retryCount : nat) (h l : list call)
    (r : episode_end) :
  episode env imageUrl retryCount h l r ->
  length (filter is_fetch l) <= SETTINGS.processing.maxRetries - retryCount
  /\ transform_calls l <= SETTINGS.processing.maxRetries - retryCount
  /\ length l <= 4 * (SETTINGS.processing.maxRetries - retryCount).
Proof.
  induction 1 as [rc h Hge|rc h a v Hlt Ha|rc h a e Hlt Ha Hab|rc h a l e r Hlt Ha Hab Hep IH].
  - unfold transform_calls. simpl. lia.
  - destruct (attempt_shape _ _ _ _ _ Ha) as (_ & Hf & _).
    destruct (attempt_length _ _ _ _ _ Ha). lia.
  - destruct (attempt_shape _ _ _ _ _ Ha) as (_ & Hf & _).
    destruct (attempt_length _ _ _ _ _ Ha). lia.
  - destruct (attempt_shape _ _ _ _ _ Ha) as (_ & Hf & _).
    destruct (attempt_length _ _ _ _ _ Ha). destruct IH as (IH1 & IH2 & IH3).
    rewrite filter_app, filter_fetch_timer, transform_calls_app, transform_calls_timer.
    rewrite !length_app. simpl. lia.
Qed.

(** X2.  Whatever the environment does, an episode started by
    [processImage imageUrl] fetches the source at most 3 times, calls the
    transform at most 3 times and makes at most 12 external calls in all. *)
Theorem episode_makes_at_most_three_attempts (env : Env) (imageUrl : Url) (w : World) :
  length (filter is_fetch (episode_calls env imageUrl w)) <= 3
  /\ transform_calls (episode_calls env imageUrl w) <= 3
  /\ length (episode_calls env imageUrl w) <= 12.
Proof.
  destruct (eval_processImage env imageUrl 0 w) as (l & r & Hep & Hcalls & _).
  unfold episode_calls. rewrite Hcalls, drop_app_length.
  apply (episode_bounds _ _ _ _ _ _ Hep).
Qed.

Lemma episode_exhausted_shape (env : Env) (imageUrl : Url) (retryCount : nat)
    (h l : list call) (r : episode_end) :
  episode env imageUrl retryCount h l r -> r = ended_exhausted ->
  retryCount <= SETTINGS.processing.maxRetries ->
  delays l = map backoff (seq retryCount (SETTINGS.processing.maxRetries - retryCount))
  /\ length (filter is_fetch l) = SETTINGS.processing.maxRetries - retryCount
  /\ (retryCount < SETTINGS.processing.maxRetries ->
      last l = Some (SetTimeout (backoff (SETTINGS.processing.maxRetries - 1)))).
Proof.
  induction 1 as [rc h Hge|rc h a v Hlt Ha|rc h a e Hlt Ha Hab|rc h a l e r Hlt Ha Hab Hep IH];
    intros Hr Hle; try done.
  - replace (SETTINGS.processing.maxRetries - rc) with 0 by lia.
    repeat split; auto. lia.
  - destruct (attempt_shape _ _ _ _ _ Ha) as (Hd & Hf & _).
    destruct (IH Hr) as (IHd & IHf & IHlast); [lia|].
    rewrite delays_app, Hd, filter_app, filter_fetch_timer, length_app, Hf, IHf.
    simpl. rewrite IHd.
    replace (SETTINGS.processing.maxRetries - rc)
      with (S (SETTINGS.processing.maxRetries - S rc)) by lia.
    repeat split; auto.
    intros _. destruct (decide (S rc < SETTINGS.processing.maxRetries)) as [Hlt'|Hge].
    + specialize (IHlast Hlt').
      rewrite last_app, last_cons, IHlast. reflexivity.
    + assert (Hl : l = []).
      { assert (SETTINGS.processing.maxRetries <= S rc) by lia.
        inversion Hep; subst; auto; lia. }
      subst l. rewrite last_snoc.
      f_equal. f_equal. f_equal. unfold SETTINGS.processing.maxRetries in *. lia.
Qed.

(** X3.  When [processImage imageUrl] ends with 'Max retries exceeded', the
    episode has made exactly 3 attempts and has waited 1000, 2000 and 4000:
    its last call is the delay of 4000, after which no attempt is made. *)
Theorem exhausted_episode_ends_with_a_wasted_delay (env : Env) (imageUrl : Url) (w : World) :
  (eval env (processImage imageUrl 0) w).2 = Thrown max_retries_exceeded ->
  delays (episode_calls env imageUrl w) = [1000; 2000; 4000]%Z
  /\ length (filter is_fetch (episode_calls env imageUrl w)) = 3
  /\ last (episode_calls env imageUrl w) = Some (SetTimeout 4000).
Proof.
  intros Hthrown.
  destruct (eval_processImage env imageUrl 0 w) as (l & r & Hep & Hcalls & Hres).
  unfold episode_calls. rewrite Hcalls, drop_app_length.
  assert (Hr : r = ended_exhausted).
  { rewrite Hthrown in Hres. by destruct r. }
  destruct (episode_exhausted_shape _ _ _ _ _ _ Hep Hr) as (Hd & Hf & Hlast); [lia|].
  repeat split; auto. apply Hlast. unfold SETTINGS.processing.maxRetries. lia.
Qed.

Lemma exhausted_episode_witness :
  delays (episode_calls failing_env (BlobUrl 0) (uploaded_world 1)) = [1000; 2000; 4000]%Z
  /\ length (filter is_fetch (episode_calls failing_env (BlobUrl 0) (uploaded_world 1))) = 3
  /\ last (episode_calls failing_env (BlobUrl 0) (uploaded_world 1)) = Some (SetTimeout 4000).
Proof.
  apply (exhausted_episode_ends_with_a_wasted_delay failing_env (BlobUrl 0) (uploaded_world 1)).
  vm_compute. reflexivity.
Defined.

(** ** handleSingleProcess: how it ends *)

Lemma eval_handleSingleProcess_final (env : Env) (w : World) (i : nat) (img : ProcessedImage) :
  images w !! i = Some img ->
  exists l r w1,
    episode env (original img) 0 (calls w) l r
    /\ process_frame (setProgress site_reset 0%Z (with_isProcessing true w)) w1
    /\ eval env (handleSingleProcess (images w) i false) w
       = (single_final i img (next_url w) r w1, Returned tt).
Proof.
  intros Himg. unfold handleSingleProcess. rewrite Himg.
  rewrite !eval_exec_bind, eval_try_finally, eval_try_catch, eval_mbind.
  set (w0 := setProgress site_reset 0%Z (with_isProcessing true w)).
  destruct (eval_processImage env (original img) 0 w0) as (l & r & Hep & Hcalls & Hres).
  pose proof (eval_sound process_frame process_frame_refl process_frame_trans
                process_frame_call env _ w0 (processImage_frame (original img) 0)) as Hfr.
  destruct (eval env (processImage (original img) 0) w0) as [w1 r1].
  cbn [fst snd] in Hcalls, Hres, Hfr. subst r1.
  change (calls w0) with (calls w) in Hep.
  change (next_url w0) with (next_url w) in *.
  exists l, r, w1. split; [exact Hep|]. split; [exact Hfr|].
  destruct r; cbn [episode_result]; cbv beta iota;
    rewrite ?eval_exec_bind, ?eval_exec; reflexivity.
Qed.

Lemma revoked_record_completed (i : nat) (u : Url) (w : World) :
  revoked (record_completed i u w)
  = revoked w ++ match images w !! i with Some img => released (processed img) | None => [] end.
Proof.
  unfold record_completed. destruct (images w !! i) as [img|]; [|by rewrite app_nil_r].
  unfold cleanup, released. destruct (processed img) as [p|]; [|by rewrite app_nil_r].
  destruct (startsWith_blob p); [done|by rewrite app_nil_r].
Qed.

(** X4.  Whatever the environment does, [handleSingleProcess] on an
    existing image returns normally with the busy flag cleared and the
    progress reset to 0, and raises exactly one toast, which agrees with
    the status it leaves: 'Success' with [completed], 'Processing failed'
    with [failed]. *)
Theorem single_processing_always_settles (env : Env) (w : World) (i : nat)
    (img : ProcessedImage) :
  images w !! i = Some img ->
  (eval env (handleSingleProcess (images w) i false) w).2 = Returned tt
  /\ isProcessing (eval env (handleSingleProcess (images w) i false) w).1 = false
  /\ progress (eval env (handleSingleProcess (images w) i false) w).1 = 0%Z
  /\ (toasts (eval env (handleSingleProcess (images w) i false) w).1
        = toasts w ++ [toast_success]
      /\ status <$> images (eval env (handleSingleProcess (images w) i false) w).1 !! i
         = Some completed
      \/ toasts (eval env (handleSingleProcess (images w) i false) w).1
           = toasts w ++ [toast_processing_failed]
         /\ status <$> images (eval env (handleSingleProcess (images w) i false) w).1 !! i
            = Some failed).
Proof.
  intros Himg.
  destruct (eval_handleSingleProcess_final env w i img Himg) as (l & r & w1 & _ & Hfr & ->).
  pose proof (frame_toasts _ _ Hfr) as Htoasts. pose proof (frame_images _ _ Hfr) as Himgs.
  simpl in Htoasts, Himgs.
  repeat split; auto. unfold single_final.
  destruct r; world_simpl;
    rewrite ?images_record_completed, ?Himgs, ?lookup_map_at_eq, ?Himg;
    try destruct (processed_local_record_completed i (BlobUrl (next_url w)) w1)
      as (_ & _ & _ & ->);
    try destruct (processed_local_record_completed i (original img) w1)
      as (_ & _ & _ & ->);
    rewrite Htoasts; auto.
Qed.

Lemma single_processing_settles_witness :
  (eval flaky_env (handleSingleProcess (images (uploaded_world 1)) 0 false)
     (uploaded_world 1)).2 = Returned tt
  /\ isProcessing (eval flaky_env (handleSingleProcess (images (uploaded_world 1)) 0 false)
                     (uploaded_world 1)).1 = false
  /\ progress (eval flaky_env (handleSingleProcess (images (uploaded_world 1)) 0 false)
                 (uploaded_world 1)).1 = 0%Z
  /\ (toasts (eval flaky_env (handleSingleProcess (images (uploaded_world 1)) 0 false)
                (uploaded_world 1)).1
        = toasts (uploaded_world 1) ++ [toast_success]
      /\ status <$> images (eval flaky_env
                              (handleSingleProcess (images (uploaded_world 1)) 0 false)
                              (uploaded_world 1)).1 !! 0
         = Some completed
      \/ toasts (eval flaky_env (handleSingleProcess (images (uploaded_world 1)) 0 false)
                   (uploaded_world 1)).1
           = toasts (uploaded_world 1) ++ [toast_processing_failed]
         /\ status <$> images (eval flaky_env
                                 (handleSingleProcess (images (uploaded_world 1)) 0 false)
                                 (uploaded_world 1)).1 !! 0
            = Some failed).
Proof.
  apply (single_processing_always_settles flaky_env (uploaded_world 1) 0 (uploaded_image 0)).
  reflexivity.
Defined.

(** X5.  Replace-on-success.  When [handleSingleProcess] leaves the image
    [completed], its result is a URL returned by [processImage] and the
    result it had before, if it was an object URL, has been revoked; when it
    leaves the image [failed], the Job has changed in its status only: the
    earlier result is kept.  (Nothing is said of what else has been revoked
    by then: once React commits the update, the cleanup of the effect on
    [images] -- [unmount_cleanup], X12 -- revokes the handles of the previous
    list as well.) *)
Theorem result_is_replaced_and_released_on_success (env : Env) (w : World) (i : nat)
    (img : ProcessedImage) :
  images w !! i = Some img ->
  (exists u,
     (u = original img \/ u = BlobUrl (next_url w))
     /\ images (eval env (handleSingleProcess (images w) i false) w).1 !! i
        = Some (set_completed u img)
     /\ forall p, p ∈ released (processed img) ->
          p ∈ revoked (eval env (handleSingleProcess (images w) i false) w).1)
  \/ images (eval env (handleSingleProcess (images w) i false) w).1 !! i
       = Some (set_status failed img).
Proof.
  intros Himg.
  destruct (eval_handleSingleProcess_final env w i img Himg) as (l & r & w1 & _ & Hfr & ->).
  pose proof (frame_revoked _ _ Hfr) as Hrev. pose proof (frame_images _ _ Hfr) as Himgs.
  simpl in Hrev, Himgs. unfold single_final.
  destruct r; world_simpl.
  - left. exists (BlobUrl (next_url w)). split; [by right|].
    rewrite images_record_completed, revoked_record_completed, Himgs,
      lookup_map_at_eq, Himg, Hrev.
    split; [done|]. intros p Hp. apply elem_of_app. by right.
  - left. exists (original img). split; [by left|].
    rewrite images_record_completed, revoked_record_completed, Himgs,
      lookup_map_at_eq, Himg, Hrev.
    split; [done|]. intros p Hp. apply elem_of_app. by right.
  - right. by rewrite Himgs, lookup_map_at_eq, Himg.
Qed.

Lemma result_is_replaced_witness :
  (exists u,
     (u = original (uploaded_image 0) \/ u = BlobUrl (next_url processed_once))
     /\ images (eval succeeding_env (handleSingleProcess (images processed_once) 0 false)
                  processed_once).1 !! 0
        = Some (set_completed u (set_completed (BlobUrl 2) (uploaded_image 0)))
     /\ forall p, p ∈ released (processed (set_completed (BlobUrl 2) (uploaded_image 0))) ->
          p ∈ revoked (eval succeeding_env
                         (handleSingleProcess (images processed_once) 0 false)
                         processed_once).1)
  \/ images (eval succeeding_env (handleSingleProcess (images processed_once) 0 false)
               processed_once).1 !! 0
       = Some (set_status failed (set_completed (BlobUrl 2) (uploaded_image 0))).
Proof.
  apply (result_is_replaced_and_released_on_success succeeding_env processed_once 0
           (set_completed (BlobUrl 2) (uploaded_image 0))).
  vm_compute. reflexivity.
Defined.

(** X6.  The original of a Job can be revoked while the Job still uses it.
    After an episode that ended on an [AbortError] the Job's result is its
    own original; when the Job is then processed again with success, the
    replaced "result" is revoked: the original object URL of the Job is in
    the revoked list although the Job still refers to it as its original. *)
Theorem reprocessing_after_abort_revokes_the_original (env1 env2 : Env) (w : World) (i : nat)
    (img : ProcessedImage) (l1 l2 : list call) :
  images w !! i = Some img ->
  startsWith_blob (original img) = true ->
  episode env1 (original img) 0 (calls w) l1 ended_aborted ->
  episode env2 (original img) 0
    (calls (eval env1 (handleSingleProcess (images w) i false) w).1) l2 ended_transformed ->
  original <$>
    images (eval env2
              (handleSingleProcess
                 (images (eval env1 (handleSingleProcess (images w) i false) w).1) i false)
              (eval env1 (handleSingleProcess (images w) i false) w).1).1 !! i
    = Some (original img)
  /\ original img ∈
       revoked (eval env2
                  (handleSingleProcess
                     (images (eval env1 (handleSingleProcess (images w) i false) w).1) i false)
                  (eval env1 (handleSingleProcess (images w) i false) w).1).1.
Proof.
  intros Himg Hblob Hab Htr.
  destruct (eval_handleSingleProcess_final env1 w i img Himg)
    as (l1' & r1 & w1 & Hep1 & Hfr1 & Heval1).
  destruct (episode_functional _ _ _ _ _ _ _ _ Hab Hep1) as [<- <-].
  rewrite Heval1 in Htr |- *. cbn [fst] in Htr |- *.
  set (wa := single_final i img (next_url w) ended_aborted w1) in *.
  assert (Himg1 : images wa !! i = Some (set_completed (original img) img)).
  { unfold wa, single_final. world_simpl.
    rewrite images_record_completed, (frame_images _ _ Hfr1). simpl.
    by rewrite lookup_map_at_eq, Himg. }
  destruct (eval_handleSingleProcess_final env2 wa i _ Himg1)
    as (l2' & r2 & w2 & Hep2 & Hfr2 & Heval2).
  simpl original in Hep2.
  destruct (episode_functional _ _ _ _ _ _ _ _ Htr Hep2) as [<- <-].
  rewrite Heval2. cbn [fst]. unfold single_final at 1 2. world_simpl.
  rewrite images_record_completed, revoked_record_completed, (frame_images _ _ Hfr2),
    (frame_revoked _ _ Hfr2).
  world_simpl. rewrite lookup_map_at_eq, Himg1. split; [done|].
  apply elem_of_app. right. simpl. unfold released; simpl. rewrite Hblob.
  apply list_elem_of_here.
Qed.

Lemma reprocessing_after_abort_witness :
  original <$>
    images (eval succeeding_env
              (handleSingleProcess
                 (images (eval aborting_env
                            (handleSingleProcess (images (uploaded_world 1)) 0 false)
                            (uploaded_world 1)).1) 0 false)
              (eval aborting_env (handleSingleProcess (images (uploaded_world 1)) 0 false)
                 (uploaded_world 1)).1).1 !! 0
    = Some (original (uploaded_image 0))
  /\ original (uploaded_image 0) ∈
       revoked (eval succeeding_env
                  (handleSingleProcess
                     (images (eval aborting_env
                                (handleSingleProcess (images (uploaded_world 1)) 0 false)
                                (uploaded_world 1)).1) 0 false)
                  (eval aborting_env (handleSingleProcess (images (uploaded_world 1)) 0 false)
                     (uploaded_world 1)).1).1.
Proof.
  apply (reprocessing_after_abort_revokes_the_original aborting_env succeeding_env
           (uploaded_world 1) 0 (uploaded_image 0)
           [Fetch (BlobUrl 0) None; ResponseBlob 7; transform_call 7]
           [Fetch (BlobUrl 0) None; ResponseBlob 7; transform_call 7]).
  - reflexivity.
  - reflexivity.
  - apply (episode_aborted aborting_env (BlobUrl 0) 0 [] _ abort_error).
    + unfold SETTINGS.processing.maxRetries. lia.
    + apply (attempt_transform_settled aborting_env [] (BlobUrl 0) 7 7 (Rejected abort_error));
        reflexivity.
    + reflexivity.
  - apply (episode_transformed succeeding_env (BlobUrl 0) 0 _ _ 7).
    + unfold SETTINGS.processing.maxRetries. lia.
    + apply (attempt_transform_settled succeeding_env _ (BlobUrl 0) 7 7 (Resolved 7));
        reflexivity.
Defined.

(** ** Processing never changes who a Job is *)

Lemma fmap_map_at {B : Type} (g : ProcessedImage -> B) (i : nat)
    (f : ProcessedImage -> ProcessedImage) (l : list ProcessedImage) :
  (forall x, g (f x) = g x) -> g <$> map_at i f l = g <$> l.
Proof.
  intros Hf. apply list_eq. intros j.
  rewrite !list_lookup_fmap, lookup_map_at.
  destruct (l !! j) as [x|]; simpl; [|done]. destruct (Nat.eqb j i); simpl; by rewrite ?Hf.
Qed.

(** X7.  Neither single processing (against any environment) nor a batch
    run (under any schedule) adds, removes or reorders Jobs, and neither
    changes the original, the preview, the name or the [retries] counter of
    any Job, whatever render the handler was created in. *)
Theorem processing_preserves_identity (w : World) :
  (forall env images_ i b,
     identity <$> images (eval env (handleSingleProcess images_ i b) w).1
     = identity <$> images w)
  /\ (forall images_ b n schedule,
        identity <$> images (world (bulk_exec images_ n schedule
                                      (handleBulkProcess images_ b w)))
        = identity <$> images w).
Proof.
  set (J := fun l : list ProcessedImage => identity <$> l = identity <$> images w).
  assert (HJc : forall i u l, J l -> J (map_at i (set_completed u) l)).
  { intros i u l Hl. unfold J. by rewrite fmap_map_at. }
  assert (HJs : forall i s l, s <> completed -> s <> pending -> J l ->
                              J (map_at i (set_status s) l)).
  { intros i s l _ _ Hl. unfold J. by rewrite fmap_map_at. }
  split.
  - intros env images_ i b.
    apply (eval_sound (keeps J) (keeps_refl _) (keeps_trans _) (keeps_call _) env _ w);
      [|done].
    by apply handleSingleProcess_keeps.
  - intros images_ b n schedule.
    destruct (handleBulkProcess_keeps J HJc HJs images_ b w) as [Hw Hwave].
    apply (bulk_exec_keeps J HJc HJs images_ n schedule _ Hwave). by apply Hw.
Qed.

(** ** Batch runs: what they leave alone and how they end *)

Lemma abs_step_scope (images_ : list ProcessedImage) (n : nat) (w0 : World)
    (batches0 : list (list ProcessedImage)) (a a' : Abs) :
  abs_scope images_ w0 batches0 a -> abs_step images_ n a a' ->
  abs_scope images_ w0 batches0 a'.
Proof.
  intros [Hpart Hun Hend] Hstep.
  assert (Hsel : forall img, img ∈ a_batch a ++ a_tospawn a -> img ∈ concat batches0).
  { intros img Hin. rewrite <- Hpart, concat_app. apply elem_of_app. right.
    simpl. apply elem_of_app. by left. }
  destruct Hstep as [a i w' Hact Hfr|a i j img w' Himg Hact Hj Hfin|a img rest Hsp Hj
                    |a img rest j Hsp Hj|a b bs Hsp Hall Hlater Hs|a Hsp Hall Hlater Hs].
  - split; simpl; auto. intros j Hj. rewrite (frame_images _ _ Hfr). by apply Hun.
  - destruct (finishes_images _ _ _ _ Hfin) as (f & Himgs & _ & _).
    split; simpl; auto.
    + intros j' Hj'. rewrite Himgs, lookup_map_at_ne; [by apply Hun|].
      intros ->. apply (Hj' img); [|done].
      apply Hsel, elem_of_app. left. by eapply list_elem_of_lookup_2.
    + intros Hs. destruct (Hend Hs) as (? & ? & Hall). repeat split; auto.
      by apply Forall_insert.
  - split; simpl; auto.
    + by rewrite <- Hpart, Hsp, <- app_assoc.
    + intros Hs. destruct (Hend Hs) as (_ & Hnil & _). congruence.
  - split; simpl; auto.
    + by rewrite <- Hpart, Hsp, <- app_assoc.
    + intros j' Hj'. rewrite lookup_map_at_ne; [by apply Hun|].
      intros ->. apply (Hj' img); [|done].
      apply Hsel, elem_of_app. right. rewrite Hsp. apply list_elem_of_here.
    + intros Hs. destruct (Hend Hs) as (_ & Hnil & _). congruence.
  - split; simpl; auto.
    + rewrite <- Hpart, Hsp, Hlater, app_nil_r, <- app_assoc. done.
    + done.
  - split; simpl; auto.
    by rewrite <- Hpart, Hsp, Hlater.
Qed.

Lemma abs_rtc_scope (images_ : list ProcessedImage) (n : nat) (w0 : World)
    (batches0 : list (list ProcessedImage)) (a a' : Abs) :
  abs_scope images_ w0 batches0 a -> rtc (abs_step images_ n) a a' ->
  abs_scope images_ w0 batches0 a'.
Proof. intros Hscope Hrtc. induction Hrtc; eauto using abs_step_scope. Qed.

Lemma abs_start_scope (w : World) :
  filter (fun img => processed img = None) (images w) <> [] ->
  abs_scope (images w) w
    (for_batches (filter (fun img => processed img = None) (images w)) 0) (abs_start w).
Proof.
  intros Hne. unfold abs_start.
  pose proof (for_batches_nonempty _ Hne) as Hbs.
  destruct (for_batches _ 0) as [|b bs]; [done|].
  split; simpl; auto. done.
Qed.

(** The index found for an image of a worklist with distinct originals is
    the position of that image. *)
(** X8.  A batch run that is left alone never touches a Job it has not
    selected.  As long as no other handler changes the list of Jobs while
    the run is in flight (the environment only settles the calls of the
    run's own promises and reports their progress, in any order): in a
    render that is not running a batch and has distinct originals, every Job
    that already has a result is, at every moment of the run, exactly what
    it was when the run began. *)
Theorem batch_leaves_processed_jobs_alone (w : World) (schedule : list (nat * event))
    (j : nat) (x : ProcessedImage) :
  isBulkProcessing w = false ->
  NoDup (original <$> images w) ->
  images w !! j = Some x ->
  processed x <> None ->
  images (world (bulk_run w schedule)) !! j = Some x.
Proof.
  intros Hbulk Hnd Hx Hproc.
  destruct (decide (filter (fun img => processed img = None) (images w) = [])) as [He|Hne].
  { by rewrite bulk_run_idle. }
  destruct (bulk_run_abs w schedule Hbulk Hne) as (a & Hrtc & Habs).
  pose proof (abs_rtc_scope _ _ _ _ _ _ (abs_start_scope w Hne) Hrtc) as [_ Hun _].
  destruct Habs as (-> & _). rewrite Hun; [done|].
  intros img Hin Hidx. rewrite for_batches_concat in Hin. simpl in Hin.
  apply list_elem_of_filter in Hin as [Hnone Hin].
  pose proof (item_index_position _ _ _ Hnd Hin Hidx) as Himg.
  congruence.
Qed.

Lemma batch_leaves_processed_witness :
  length (filter (fun img => processed img = None) (images one_of_three_processed)) = 2
  /\ map status (images (world (bulk_run one_of_three_processed (succeeds 0 ++ succeeds 1))))
     = [completed; completed; completed]
  /\ images (world (bulk_run one_of_three_processed (succeeds 0 ++ succeeds 1))) !! 0
     = Some (set_completed (BlobUrl 6) (uploaded_image 0)).
Proof.
  split; [reflexivity|]. split; [reflexivity|].
  apply (batch_leaves_processed_jobs_alone one_of_three_processed (succeeds 0 ++ succeeds 1) 0
           (set_completed (BlobUrl 6) (uploaded_image 0))).
  - reflexivity.
  - apply (bool_decide_unpack _). vm_compute. exact I.
  - vm_compute. reflexivity.
  - discriminate.
Defined.

Lemma processing_indices_covered (w : World) :
  (forall j x, images w !! j = Some x -> status x <> processing) ->
  processing_indices w = [].
Proof.
  intros Hnone. unfold processing_indices.
  apply elem_of_nil_inv. intros j Hj. apply list_elem_of_filter in Hj as [Hj _].
  destruct (images w !! j) as [x|] eqn:Hx; simpl in Hj; [|done].
  apply (Hnone j x Hx). congruence.
Qed.

(** X9.  When a batch run that is left alone has ended, no Job is left
    behind.  As long as no other handler changes the list of Jobs while the
    run is in flight (the environment only settles the calls of the run's
    own promises and reports their progress, in any order): in a render
    that is not running a batch, with no Job in status [processing] and
    distinct originals, once the handler has ended every selected Job is
    [completed] or [failed] and no Job is in status [processing]. *)
Theorem settled_batch_leaves_every_selected_job_terminal (w : World)
    (schedule : list (nat * event)) :
  isBulkProcessing w = false ->
  Forall (fun x => status x <> processing) (images w) ->
  NoDup (original <$> images w) ->
  settled (bulk_run w schedule) = true ->
  processing_indices (world (bulk_run w schedule)) = []
  /\ forall img, img ∈ filter (fun img => processed img = None) (images w) ->
       job_terminal (images w) (world (bulk_run w schedule)) img.
Proof.
  intros Hbulk Hnone Hnd Hsettled.
  destruct (decide (filter (fun img => processed img = None) (images w) = [])) as [He|Hne].
  { rewrite bulk_run_idle by done. simpl. rewrite He.
    split; [by apply processing_indices_none|]. intros img Hin. by apply elem_of_nil in Hin. }
  destruct (bulk_run_abs w schedule Hbulk Hne) as (a & Hrtc & Habs).
  pose proof (abs_rtc_scope _ _ _ _ _ _ (abs_start_scope w Hne) Hrtc) as [_ _ Hend].
  assert (Hshape : abs_shape (images w)
            (for_batches (filter (fun img => processed img = None) (images w)) 0) a).
  { eapply abs_rtc_shape; [|by apply abs_start_shape|exact Hrtc].
    rewrite for_batches_concat. simpl. by apply NoDup_originals_pending. }
  destruct Habs as (Hw & _ & _ & Hs & _). rewrite Hw.
  rewrite Hsettled in Hs. destruct (Hend (eq_sym Hs)) as (Hlater & Hsp & Hall).
  split.
  - apply processing_indices_covered. intros j x Hx Hproc.
    destruct (shape_covered _ _ _ Hshape j x Hx Hproc) as (i & img & _ & Hact & _).
    pose proof (Forall_lookup_1 _ _ _ _ Hall Hact) as Hf. simpl in Hf. done.
  - intros img Hin.
    assert (Hsel : img ∈ images w) by (by apply list_elem_of_filter in Hin as [_ Hin]).
    destruct (item_index_elem _ _ Hsel) as [j Hj].
    assert (Hdone : img ∈ concat (a_earlier a)
                    \/ exists i, a_batch a !! i = Some img /\ a_active a !! i = Some false).
    { assert (Hc : img ∈ concat
                     (for_batches (filter (fun img => processed img = None) (images w)) 0))
        by (by rewrite for_batches_concat).
      clear Hin. rename Hc into Hin.
      rewrite <- (shape_partition _ _ _ Hshape) in Hin.
      rewrite Hsp, Hlater, app_nil_r, concat_app in Hin. simpl in Hin.
      rewrite app_nil_r in Hin. apply elem_of_app in Hin as [Hin|Hin]; [by left|right].
      apply list_elem_of_lookup_1 in Hin as [i Hi]. exists i. split; [done|].
      destruct (lookup_lt_is_Some_2 (a_active a) i) as [b' Hb'].
      { rewrite (shape_lengths _ _ _ Hshape). by eapply lookup_lt_Some. }
      pose proof (Forall_lookup_1 _ _ _ _ Hall Hb') as Hf. simpl in Hf. by subst. }
    destruct (shape_done _ _ _ Hshape img j Hdone Hj) as (x & Hx & Hterm).
    destruct (abs_shape_in_range _ _ _ _ _ Hshape Hj) as (y & Hy & Hoy).
    exists j, x. repeat split; auto. congruence.
Qed.

Lemma settled_batch_witness :
  processing_indices (world (bulk_run (uploaded_world 2) mixed_schedule)) = []
  /\ forall img, img ∈ filter (fun img => processed img = None) (images (uploaded_world 2)) ->
       job_terminal (images (uploaded_world 2))
         (world (bulk_run (uploaded_world 2) mixed_schedule)) img.
Proof.
  apply (settled_batch_leaves_every_selected_job_terminal (uploaded_world 2) mixed_schedule).
  - reflexivity.
  - repeat constructor; simpl; discriminate.
  - apply (bool_decide_unpack _). vm_compute. exact I.
  - vm_compute. reflexivity.
Defined.

(** ** The worker: one terminal message per request *)

Lemma reported_worker (env : Env) (c : call) (w : World) :
  is_transform c = true ->
  calls (reported env c worker_progress w) = calls w ++ [c]
  /\ next_url (reported env c worker_progress w) = next_url w
  /\ posted (reported env c worker_progress w)
     = posted w ++ map msg_progress (reports env (calls w)).
Proof.
  intros Hc. unfold reported.
  assert (H : forall ps w0,
             calls (foldl (fun w p => report w c worker_progress p) w0 ps) = calls w0
             /\ next_url (foldl (fun w p => report w c worker_progress p) w0 ps) = next_url w0
             /\ posted (foldl (fun w p => report w c worker_progress p) w0 ps)
                = posted w0 ++ map msg_progress ps).
  { induction ps as [|p ps IH]; intros w0; simpl; [by rewrite app_nil_r|].
    destruct (IH (report w0 c worker_progress p)) as (-> & -> & ->).
    unfold report. rewrite Hc. simpl. by rewrite <- app_assoc. }
  destruct (H (reports env (calls w)) (with_call c w)) as (-> & -> & ->). done.
Qed.

(** X10.  The message protocol of the worker.  For every request, against
    every environment whose rejections are error objects (values with a
    message, as every [Rejected] outcome of this model is; a rejection with
    [null] or [undefined], on which reading [error.message] itself throws
    and no terminal message is posted, is outside it), the handler returns
    normally after posting zero or more progress messages followed by
    exactly one terminal message: [complete] with the object URL minted for
    the output when the fetch, the blob read and the transform have all
    resolved, [error] with the message of the rejection otherwise; progress
    messages are the transform's reports, in order. *)
Theorem worker_posts_one_terminal_message (env : Env) (imageData : Url)
    (model format : string) (quality : Q) (w : World) :
  (eval env (worker_onmessage imageData model format quality) w).2 = Returned tt
  /\ exists ps t,
       posted (eval env (worker_onmessage imageData model format quality) w).1
       = posted w ++ map msg_progress ps ++ [t]
       /\ (t = msg_complete (BlobUrl (next_url w))
           /\ (exists response imageBlob v,
                 respond env (calls w) (Fetch imageData None) = Resolved response
                 /\ respond env (calls w ++ [Fetch imageData None]) (ResponseBlob response)
                    = Resolved imageBlob
                 /\ respond env (calls w ++ [Fetch imageData None; ResponseBlob response])
                      (worker_transform_call imageBlob model format quality) = Resolved v
                 /\ ps = reports env (calls w ++ [Fetch imageData None; ResponseBlob response]))
           \/ exists e h c, t = msg_error (err_message e) /\ respond env h c = Rejected e).
Proof.
  unfold worker_onmessage, await. rewrite eval_try_catch.
  rewrite eval_await_bind, observe_unsignalled, reported_plain by reflexivity.
  destruct (respond env (calls w) (Fetch imageData None)) as [response|e] eqn:Hfetch.
  2:{ rewrite eval_exec. split; [done|]. exists [], (msg_error (err_message e)).
      split; [done|]. right. by exists e, (calls w), (Fetch imageData None). }
  rewrite eval_await_bind, observe_unsignalled, reported_plain by reflexivity.
  change (calls (with_call ?c w)) with (calls w ++ [c]).
  destruct (respond env (calls w ++ [Fetch imageData None]) (ResponseBlob response))
    as [imageBlob|e] eqn:Hblob.
  2:{ rewrite eval_exec. split; [done|]. exists [], (msg_error (err_message e)).
      split; [done|]. right. by exists e, (calls w ++ [Fetch imageData None]),
                                  (ResponseBlob response). }
  rewrite eval_await_bind, observe_unsignalled by reflexivity.
  fold (worker_transform_call imageBlob model format quality). fold worker_progress.
  match goal with |- context [reported env ?c worker_progress ?w0] =>
    destruct (reported_worker env c w0 eq_refl) as (Hcalls & Hnext & Hposted);
    revert Hcalls Hnext Hposted; generalize (reported env c worker_progress w0) end.
  intros w3.
  change (calls (with_call ?c2 (with_call ?c1 w))) with ((calls w ++ [c1]) ++ [c2]).
  rewrite <- !app_assoc. simpl app. world_simpl.
  intros Hcalls Hnext Hposted.
  destruct (respond env (calls w ++ [Fetch imageData None; ResponseBlob response])
              (worker_transform_call imageBlob model format quality)) as [v|e] eqn:Htr.
  - unfold createObjectURL. rewrite eval_mbind. cbn [eval]. rewrite eval_exec.
    split; [done|]. world_simpl.
    exists (reports env (calls w ++ [Fetch imageData None; ResponseBlob response])),
      (msg_complete (BlobUrl (next_url w))).
    rewrite Hposted, Hnext, <- app_assoc. split; [done|]. left. split; [done|].
    by exists response, imageBlob, v.
  - rewrite eval_exec. split; [done|]. world_simpl.
    exists (reports env (calls w ++ [Fetch imageData None; ResponseBlob response])),
      (msg_error (err_message e)).
    rewrite Hposted, <- app_assoc. split; [done|]. right.
    by exists e, (calls w ++ [Fetch imageData None; ResponseBlob response]),
         (worker_transform_call imageBlob model format quality).
Qed.

(** ** The gallery: selection and deletion *)

Lemma revoked_cleanup (url : option Url) (w : World) :
  revoked (cleanup url w) = revoked w ++ released url.
Proof.
  unfold cleanup, released. destruct url as [u|]; [|by rewrite app_nil_r].
  destruct (startsWith_blob u); [done|by rewrite app_nil_r].
Qed.

Lemma cleanup_frame (url : option Url) (w : World) :
  images (cleanup url w) = images w
  /\ currentImageIndex (cleanup url w) = currentImageIndex w
  /\ controllers (cleanup url w) = controllers w
  /\ abortController (cleanup url w) = abortController w
  /\ toasts (cleanup url w) = toasts w.
Proof.
  unfold cleanup. destruct url as [u|]; [|done]. by destruct (startsWith_blob u).
Qed.

(** X11.  The selection stays on a Job.  In a rendered state whose selected
    index holds a Job, Previous and Next (whose closure is the rendered
    list) leave the index on a Job; Delete removes exactly the selected
    Job, revokes each of its handles that is an object URL, announces it,
    and leaves the index on a Job unless the list has become empty, in
    which case the index is 0.  (Nothing is said of what else has been
    revoked by then: see X12.) *)
Theorem selection_stays_on_a_job (w : World) (img : ProcessedImage) :
  currentImage w = Some img ->
  is_Some (currentImage (handlePrevious w))
  /\ (exists w', handleNext (images w) w = Some w' /\ is_Some (currentImage w'))
  /\ images (handleDelete (images w) (currentImageIndex w) w)
     = delete (currentImageIndex w) (images w)
  /\ (images (handleDelete (images w) (currentImageIndex w) w) <> [] ->
      is_Some (currentImage (handleDelete (images w) (currentImageIndex w) w)))
  /\ (images (handleDelete (images w) (currentImageIndex w) w) = [] ->
      currentImageIndex (handleDelete (images w) (currentImageIndex w) w) = 0)
  /\ (forall u, u ∈ handles img ->
        u ∈ revoked (handleDelete (images w) (currentImageIndex w) w))
  /\ toasts (handleDelete (images w) (currentImageIndex w) w)
     = toasts w ++ [toast_image_deleted].
Proof.
  unfold currentImage. intros Hcur.
  pose proof (lookup_lt_Some _ _ _ Hcur) as Hlt.
  split; [|split].
  - unfold handlePrevious. world_simpl. apply lookup_lt_is_Some. lia.
  - unfold handleNext.
    destruct (Z.ltb_spec (Z.min (Z.of_nat (length (images w)) - 1)
                            (Z.of_nat (currentImageIndex w) + 1)) 0); [lia|].
    eexists. split; [done|]. world_simpl. apply lookup_lt_is_Some. lia.
  - unfold handleDelete. rewrite Hcur. cbv zeta.
    set (newImages := delete (currentImageIndex w) (images w)).
    assert (Hlen : S (length newImages) = length (images w)).
    { subst newImages. rewrite length_delete by eauto. lia. }
    set (w2 := if length newImages <=? currentImageIndex w then _ else _).
    assert (Himages : images w2 = newImages).
    { subst w2. by destruct (length newImages <=? currentImageIndex w). }
    assert (Hidx : currentImageIndex w2
                   = if length newImages <=? currentImageIndex w
                     then Nat.max 0 (length newImages - 1) else currentImageIndex w).
    { subst w2. by destruct (length newImages <=? currentImageIndex w). }
    assert (Hrev : revoked w2 = revoked w /\ toasts w2 = toasts w).
    { subst w2. by destruct (length newImages <=? currentImageIndex w). }
    destruct Hrev as [Hrev Htoasts].
    destruct (cleanup_frame (processed img)
                (cleanup (Some (preview img)) (cleanup (Some (original img)) w2)))
      as (I3 & C3 & _ & _ & T3).
    destruct (cleanup_frame (Some (preview img)) (cleanup (Some (original img)) w2))
      as (I2 & C2 & _ & _ & T2).
    destruct (cleanup_frame (Some (original img)) w2) as (I1 & C1 & _ & _ & T1).
    world_simpl. rewrite !revoked_cleanup, I3, I2, I1, C3, C2, C1, T3, T2, T1.
    rewrite Himages, Hidx, Hrev, Htoasts.
    split; [done|]. split; [|split; [|split]].
    + intros Hne. apply lookup_lt_is_Some.
      destruct newImages as [|x l]; [done|]. simpl length in *.
      destruct (Nat.leb_spec (S (length l)) (currentImageIndex w)); lia.
    + intros ->. simpl in *.
      destruct (Nat.leb_spec 0 (currentImageIndex w)); lia.
    + intros u Hu. rewrite <- !app_assoc. apply elem_of_app. right. exact Hu.
    + done.
Qed.

Lemma selection_stays_on_a_job_witness :
  exists img, currentImage (handleSelect 1 (uploaded_world 2)) = Some img
    /\ images (handleDelete (images (handleSelect 1 (uploaded_world 2))) 1
                (handleSelect 1 (uploaded_world 2)))
       = delete 1 (images (uploaded_world 2)).
Proof.
  eexists. split; [reflexivity|].
  apply (selection_stays_on_a_job (handleSelect 1 (uploaded_world 2)) _ eq_refl).
Defined.

(** ** The cleanup of the unmount effect *)

(** X12.  The cleanup of the unmount effect releases the handles of every
    Job of its closure, in order, and nothing else; it leaves the list of
    Jobs alone, and the controller of the episode in flight, if there is
    one, is aborted. *)
Theorem unmount_releases_every_handle (images_ : list ProcessedImage) (w : World) :
  revoked (unmount_cleanup images_ w) = revoked w ++ concat (handles <$> images_)
  /\ images (unmount_cleanup images_ w) = images w
  /\ length (controllers (unmount_cleanup images_ w)) = length (controllers w)
  /\ forall c, abortController w = Some c -> c < length (controllers w) ->
       controllers (unmount_cleanup images_ w) !! c = Some true.
Proof.
  unfold unmount_cleanup.
  set (step := fun (w : World) (img : ProcessedImage) =>
                 cleanup (processed img)
                   (cleanup (Some (preview img)) (cleanup (Some (original img)) w))).
  assert (H : forall l w0,
             revoked (foldl step w0 l) = revoked w0 ++ concat (handles <$> l)
             /\ images (foldl step w0 l) = images w0
             /\ controllers (foldl step w0 l) = controllers w0
             /\ abortController (foldl step w0 l) = abortController w0).
  { induction l as [|img l IH]; intros w0; simpl; [by rewrite app_nil_r|].
    destruct (IH (step w0 img)) as (-> & -> & -> & ->). subst step. cbv beta.
    destruct (cleanup_frame (processed img)
                (cleanup (Some (preview img)) (cleanup (Some (original img)) w0)))
      as (-> & _ & -> & -> & _).
    destruct (cleanup_frame (Some (preview img)) (cleanup (Some (original img)) w0))
      as (-> & _ & -> & -> & _).
    destruct (cleanup_frame (Some (original img)) w0) as (-> & _ & -> & -> & _).
    rewrite !revoked_cleanup. unfold handles. by rewrite <- !app_assoc. }
  destruct (H images_ w) as (Hrev & Himg & Hctl & Hcur).
  generalize dependent (foldl step w images_). intros w1 Hrev Himg Hctl Hcur.
  unfold abort_current. rewrite Hcur.
  destruct (abortController w) as [c|]; world_simpl.
  - rewrite Hrev, Himg, Hctl, length_insert. repeat split; try done.
    intros c' [= <-] Hlt. by apply list_lookup_insert_eq.
  - by rewrite Hrev, Himg, Hctl.
Qed.

(** ** The name of a download *)

Lemma list_ascii_of_string_app (s t : string) :
  String.list_ascii_of_string (s ++ t)
  = String.list_ascii_of_string s ++ String.list_ascii_of_string t.
Proof. induction s as [|c s IH]; simpl; [done|]. by rewrite IH. Qed.

Lemma split_extension_app (e b : list Ascii.ascii) :
  forallb extension_char e = true ->
  split_extension (e ++ dot :: b) = Some (e, b).
Proof.
  induction e as [|c e IH]; cbn [split_extension app forallb]; intros He.
  - by rewrite Ascii.eqb_refl.
  - apply andb_true_iff in He as [Hc He]. unfold extension_char in Hc.
    apply andb_true_iff in Hc as [Hdot Hslash].
    apply negb_true_iff in Hdot, Hslash. rewrite Hdot, Hslash, IH by done. done.
Qed.

(** X13.  The name offered for a download.  For a Job named
    [base ++ "." ++ ext], where [ext] holds neither a dot nor a slash, the
    name is [base ++ "_processed.png"]: exactly the last extension is
    dropped, whatever [base] holds.  When [ext] is empty the dot stays. *)
Theorem download_name_drops_the_last_extension (base ext : string) :
  forallb extension_char (String.list_ascii_of_string ext) = true ->
  download_name (base ++ String dot ext)
  = ((if String.eqb ext "" then base ++ String dot "" else base) ++ "_processed.png")%string.
Proof.
  intros Hext. unfold download_name, strip_extension.
  rewrite list_ascii_of_string_app. simpl String.list_ascii_of_string.
  rewrite rev_app_distr. simpl rev. rewrite <- app_assoc. simpl app.
  rewrite split_extension_app.
  2:{ rewrite forallb_forall in *. intros c Hc. apply Hext. by apply in_rev. }
  destruct ext as [|c ext]; simpl.
  - done.
  - destruct (rev (String.list_ascii_of_string ext) ++ [c]) eqn:E.
    { by apply app_eq_nil in E as [_ ?]. }
    by rewrite rev_involutive, String.string_of_list_ascii_of_string.
Qed.

Lemma download_name_witness :
  forallb extension_char (String.list_ascii_of_string "gz") = true
  /\ download_name "photo.tar.gz" = "photo.tar_processed.png".
Proof.
  split; [reflexivity|].
  exact (download_name_drops_the_last_extension "photo.tar" "gz" eq_refl).
Defined.

(** ** The object URLs of an intake *)

Lemma Forall3_insert {A B C : Type} (P : A -> B -> C -> Prop) (l : list A) (k : list B)
    (k' : list C) (i : nat) (x : A) (y : B) (z : C) :
  Forall3 P l k k' -> P x y z -> Forall3 P (<[i := x]> l) (<[i := y]> k) (<[i := z]> k').
Proof.
  intros H Hxyz; revert i. induction H; intros [|i]; simpl; constructor; auto.
Qed.

Lemma advance_upload_item (file : File) (w : World) :
  (advance (upload_item file) w).1
  = with_call (compression_call file) (with_next_url (S (next_url w)) w)
  /\ slot_task file (slot_pending (next_url w)) (advance (upload_item file) w).2.
Proof.
  split; [reflexivity|]. simpl. eexists. split; [reflexivity|].
  intros [v|e] w'; reflexivity.
Qed.

Lemma spawn_upload_urls (files : list File) :
  forall w,
    Forall3 slot_task files (slot_pending <$> seq (next_url w) (length files))
      (spawn (map upload_item files) w).2
    /\ next_url (spawn (map upload_item files) w).1 = next_url w + length files
    /\ revoked (spawn (map upload_item files) w).1 = revoked w.
Proof.
  induction files as [|file files IH]; intros w; cbn [map spawn length seq fmap list_fmap].
  { split; [constructor|]. split; [simpl; lia|done]. }
  destruct (advance_upload_item file w) as [Hw Ht].
  destruct (advance (upload_item file) w) as [w1 t]. cbn [fst snd] in Hw, Ht. subst w1.
  specialize (IH (with_call (compression_call file) (with_next_url (S (next_url w)) w))).
  destruct (spawn (map upload_item files) _) as [w2 ts]. cbn [fst snd] in *.
  destruct IH as (Hts & Hn & Hr). split; [by constructor|].
  rewrite Hn, Hr. split; [simpl; lia|done].
Qed.

Lemma minted_pending_seq (a n : nat) :
  concat (minted <$> (slot_pending <$> seq a n)) = seq a n.
Proof. revert a; induction n as [|n IH]; intros a; simpl; [done|]. by rewrite IH. Qed.

Lemma minted_insert (slots : list slot) (i : nat) (s s' : slot) :
  slots !! i = Some s ->
  concat (minted <$> slots)
    ≡ₚ minted s ++ concat (minted <$> (take i slots ++ drop (S i) slots))
  /\ concat (minted <$> <[i := s']> slots)
    ≡ₚ minted s' ++ concat (minted <$> (take i slots ++ drop (S i) slots)).
Proof.
  intros Hi. pose proof (lookup_lt_Some _ _ _ Hi) as Hlt.
  rewrite insert_take_drop by done.
  rewrite <- (take_drop_middle slots i s Hi) at 1.
  rewrite !fmap_app, !fmap_cons, !concat_app, !concat_cons.
  split; by rewrite Permutation_app_swap_app.
Qed.

Lemma thrown_insert (slots : list slot) (i : nat) (p : nat) (s' : slot) (q : nat) :
  slots !! i = Some (slot_pending p) ->
  slot_thrown q ∈ <[i := s']> slots <-> s' = slot_thrown q \/ slot_thrown q ∈ slots.
Proof.
  intros Hi. rewrite !list_elem_of_lookup. split.
  - intros [j Hj]. apply list_lookup_insert_Some in Hj as [(-> & -> & _)|[_ Hj]]; eauto.
  - intros [->|[j Hj]].
    + exists i. apply list_lookup_insert_eq. by eapply lookup_lt_Some.
    + exists j. rewrite list_lookup_insert_ne; [done|]. intros ->. congruence.
Qed.

Lemma upload_join_urls (w0 : World) (validFiles : list File) (slots : list slot)
    (w : World) (wave_ : list (task ProcessedImage)) :
  upload_urls w0 validFiles slots (mkUpload w wave_ false) ->
  upload_urls w0 validFiles slots (upload_join w wave_).
Proof.
  intros [Ht Hn Hr Hc Hrev]. simpl in *.
  split; rewrite ?upload_wave_join; try done;
    unfold upload_join; destruct (first_thrown wave_); try done;
    by destruct (returned_values wave_).
Qed.

Lemma upload_step_urls (w0 : World) (validFiles : list File) (slots : list slot)
    (r r' : UploadRun) (i : nat) (o : outcome) :
  upload_step r i o = Some r' ->
  upload_urls w0 validFiles slots r ->
  exists slots', upload_urls w0 validFiles slots' r'.
Proof.
  unfold upload_step. intros Hstep [Ht Hn Hr Hc (ps & Hrev & Hps)].
  destruct (upload_wave r !! i) as [[|c cb k]|] eqn:Hi; try done.
  destruct (Forall3_lookup_r _ _ _ _ _ _ Ht Hi) as (file & s & Hfile & Hs & Hst).
  destruct s as [p|p o'|p]; simpl in Hst;
    [|discriminate|by destruct Hst as [? ?]].
  destruct Hst as (k' & [= -> -> ->] & Hk).
  unfold settle in Hstep. rewrite observe_unsignalled in Hstep by reflexivity.
  rewrite Hk in Hstep.
  destruct (minted_insert slots i (slot_pending p)
              (match o with
               | Resolved _ => slot_returned p (next_url (upload_world r))
               | Rejected _ => slot_thrown p
               end) Hs) as [Hold Hnew].
  set (rest := concat (minted <$> (take i slots ++ drop (S i) slots))) in *.
  assert (Hwave : forall w' t' b,
             upload_urls w0 validFiles
               (<[i := match o with
                       | Resolved _ => slot_returned p (next_url (upload_world r))
                       | Rejected _ => slot_thrown p
                       end]> slots) (mkUpload w' (<[i := t']> (upload_wave r)) b) ->
             (w', t') = match o with
                        | Resolved _ =>
                            (with_next_url (S (next_url (upload_world r))) (upload_world r),
                             Finished (Returned (upload_image file p
                                                   (next_url (upload_world r)))))
                        | Rejected e =>
                            (cleanup (Some (BlobUrl p)) (upload_world r), Finished (Thrown e))
                        end ->
             (if upload_settled r then Some (mkUpload w' (<[i := t']> (upload_wave r)) true)
              else Some (upload_join w' (<[i := t']> (upload_wave r)))) = Some r' ->
             exists slots', upload_urls w0 validFiles slots' r').
  { intros w' t' b Hu _ Hr'. eexists.
    destruct (upload_settled r); simplify_eq.
    - destruct Hu; by split.
    - apply upload_join_urls. destruct Hu; by split. }
  destruct o as [v|e].
  - eapply (Hwave _ _ false); [|reflexivity|exact Hstep].
    cbv beta iota in Hnew |- *. split; cbn [upload_world upload_wave].
    + rewrite <- (list_insert_id validFiles i file Hfile).
      by apply Forall3_insert.
    + rewrite Hnew. rewrite Hold in Hn. simpl in *.
      apply NoDup_cons in Hn as [Hp Hn]. apply NoDup_cons. split.
      * rewrite not_elem_of_cons. split; [|done].
        assert (Hin : p ∈ concat (minted <$> slots)) by (rewrite Hold; left).
        apply Hr in Hin. lia.
      * apply NoDup_cons. split; [|done]. intros Hin.
        assert (Hin' : next_url (upload_world r) ∈ concat (minted <$> slots))
          by (rewrite Hold; by right).
        apply Hr in Hin'. lia.
    + intros n. rewrite Hnew. simpl. rewrite !elem_of_cons. intros [->|[->|Hin]].
      * assert (Hin : p ∈ concat (minted <$> slots)) by (rewrite Hold; left).
        apply Hr in Hin. lia.
      * rewrite Hc. lia.
      * assert (Hin' : n ∈ concat (minted <$> slots)) by (rewrite Hold; by right).
        apply Hr in Hin'. lia.
    + rewrite Hnew. pose proof Hc as Hc'. rewrite Hold in Hc'. simpl in *. lia.
    + exists ps. split; [done|]. intros q. rewrite Hps, (thrown_insert _ _ _ _ _ Hs).
      split; [by right|]. by intros [?|?].
  - eapply (Hwave _ _ false); [|reflexivity|exact Hstep].
    assert (Hcl : cleanup (Some (BlobUrl p)) (upload_world r)
                  = with_revoked (BlobUrl p) (upload_world r)) by reflexivity.
    rewrite Hcl. cbv beta iota in Hnew |- *. split; cbn [upload_world upload_wave].
    + rewrite <- (list_insert_id validFiles i file Hfile).
      apply Forall3_insert; [done|]. by exists e.
    + by rewrite Hnew, <- Hold.
    + intros n. rewrite Hnew, <- Hold. apply Hr.
    + rewrite Hnew, <- Hold. exact Hc.
    + exists (ps ++ [p]). split.
      * cbn [revoked with_revoked]. by rewrite Hrev, fmap_app, app_assoc.
      * intros q. rewrite elem_of_app, Hps, (thrown_insert _ _ _ _ _ Hs), list_elem_of_singleton.
        split; [intros [?| ->]; auto|intros [[= ->]|?]; auto].
Qed.

Lemma upload_exec_urls (w0 : World) (validFiles : list File) (schedule : list (nat * outcome)) :
  forall r slots,
    upload_urls w0 validFiles slots r ->
    exists slots', upload_urls w0 validFiles slots' (upload_exec schedule r).
Proof.
  induction schedule as [|[i o] schedule IH]; intros r slots Hr; simpl; [by eexists|].
  destruct (upload_step r i o) as [r'|] eqn:Hstep; simpl; [|by eapply IH].
  destruct (upload_step_urls _ _ _ _ _ _ _ Hstep Hr) as [slots' Hr']. by eapply IH.
Qed.

Lemma handleImageUpload_urls (files : list File) (w : World) (schedule : list (nat * outcome)) :
  exists slots,
    upload_urls w (filter (fun file => valid_file file = true) files) slots
      (upload_exec schedule (handleImageUpload files w)).
Proof.
  unfold handleImageUpload.
  destruct (filter (fun file => valid_file file = true) files) as [|file validFiles] eqn:Hvalid.
  { cbn [length Nat.eqb]. rewrite upload_exec_idle by done. exists [].
    split; simpl; try done; [constructor|constructor| |].
    - intros m Hm. by apply elem_of_nil in Hm.
    - exists []. split; [by rewrite app_nil_r|]. intros p. split; by intros ?%elem_of_nil. }
  cbn [length Nat.eqb].
  destruct (spawn_upload_urls (file :: validFiles) w) as (Hts & Hn & Hrev).
  destruct (spawn (map upload_item (file :: validFiles)) w) as [w' wave_].
  cbn [fst snd] in *.
  eapply upload_exec_urls, upload_join_urls. split; simpl.
  - exact Hts.
  - change (S (next_url w) :: seq (S (S (next_url w))) (length validFiles))
      with (seq (S (next_url w)) (S (length validFiles))).
    change (slot_pending (next_url w) :: (slot_pending <$> seq (S (next_url w)) (length validFiles)))
      with (slot_pending <$> seq (next_url w) (S (length validFiles))).
    rewrite minted_pending_seq. apply NoDup_seq.
  - intros n.
    change (minted (slot_pending (next_url w))
            ++ concat (minted <$> (slot_pending <$> seq (S (next_url w)) (length validFiles))))
      with (concat (minted <$> (slot_pending <$> seq (next_url w) (S (length validFiles))))).
    rewrite minted_pending_seq, elem_of_seq, Hn. simpl. lia.
  - change (minted (slot_pending (next_url w))
            ++ concat (minted <$> (slot_pending <$> seq (S (next_url w)) (length validFiles))))
      with (concat (minted <$> (slot_pending <$> seq (next_url w) (S (length validFiles))))).
    rewrite minted_pending_seq, length_seq, Hn. done.
  - exists []. split; [by rewrite Hrev, app_nil_r|]. intros p. split; [by intros ?%elem_of_nil|].
    change (slot_pending (next_url w) :: (slot_pending <$> seq (S (next_url w)) (length validFiles)))
      with (slot_pending <$> seq (next_url w) (S (length validFiles))).
    intros (? & ? & _)%list_elem_of_fmap. discriminate.
Qed.

Lemma returned_values_slots (files : list File) (slots : list slot)
    (wave_ : list (task ProcessedImage)) :
  Forall3 slot_task files slots wave_ ->
  forall newImages,
    returned_values wave_ = Some newImages ->
    concat (intake_urls <$> newImages) = BlobUrl <$> concat (minted <$> slots)
    /\ (forall p, slot_thrown p ∉ slots)
    /\ first_thrown wave_ = None.
Proof.
  induction 1 as [|file s t files slots wave_ Hs _ IH]; intros newImages; simpl.
  { intros [= <-]. split; [done|]. split; [|done]. intros p. apply not_elem_of_nil. }
  destruct t as [[img|e]|c cb k]; try done.
  destruct (returned_values wave_) as [imgs|]; simpl; [|done]. intros [= <-].
  destruct (IH imgs eq_refl) as (Hurls & Hthrown & Hfirst).
  destruct s as [p|p o|p]; simpl in Hs.
  - by destruct Hs as (k & ? & _).
  - injection Hs as ->. split; [|split; [|done]].
    + simpl. do 2 f_equal. exact Hurls.
    + intros q. rewrite not_elem_of_cons. split; [done|apply Hthrown].
  - by destruct Hs as [? ?].
Qed.

Lemma NoDup_concat_lookup {A : Type} (ls : list (list A)) (i j : nat) (l l' : list A) (x : A) :
  NoDup (concat ls) -> ls !! i = Some l -> ls !! j = Some l' -> i <> j ->
  x ∈ l -> x ∈ l' -> False.
Proof.
  assert (Hin : forall (ls : list (list A)) j l', ls !! j = Some l' -> x ∈ l' -> x ∈ concat ls).
  { clear. induction ls as [|l0 ls IH]; intros [|j] l' Hj Hx; simplify_eq/=.
    - apply elem_of_app. by left.
    - apply elem_of_app. right. by eapply IH. }
  revert i j. induction ls as [|l0 ls IH]; intros i j Hnd Hi Hj Hij Hx Hx'; [done|].
  simpl in Hnd. apply NoDup_app in Hnd as (_ & Hdisj & Hnd).
  destruct i as [|i], j as [|j]; simplify_eq/=.
  - eapply Hdisj; [exact Hx|]. by eapply Hin.
  - eapply Hdisj; [exact Hx'|]. by eapply Hin.
  - eapply (IH i j); eauto.
Qed.

Lemma NoDup_concat_elem {A : Type} (ls : list (list A)) (i : nat) (l : list A) :
  NoDup (concat ls) -> ls !! i = Some l -> NoDup l.
Proof.
  revert i. induction ls as [|l0 ls IH]; intros i Hnd Hi; [done|].
  simpl in Hnd. apply NoDup_app in Hnd as (Hl0 & _ & Hnd).
  destruct i as [|i]; simplify_eq/=; eauto.
Qed.

Lemma elem_of_concat_lookup {A : Type} (ls : list (list A)) (i : nat) (l : list A) (x : A) :
  ls !! i = Some l -> x ∈ l -> x ∈ concat ls.
Proof.
  revert i. induction ls as [|l0 ls IH]; intros [|i] Hi Hx; simplify_eq/=.
  - apply elem_of_app. by left.
  - apply elem_of_app. right. by eapply IH.
Qed.

(** X14.  The object URLs of an accepted intake.  Under every schedule of
    the compressions, once all have resolved the Jobs appended to the list
    hold two object URLs each, a preview and an original, all of them minted
    by this intake (none existed before) and pairwise distinct. *)
Theorem accepted_intake_mints_distinct_urls (files : list File) (w : World)
    (schedule : list (nat * outcome)) (newImages : list ProcessedImage) :
  returned_values (upload_wave (upload_exec schedule (handleImageUpload files w)))
  = Some newImages ->
  images (upload_world (upload_exec schedule (handleImageUpload files w)))
  = images w ++ newImages
  /\ exists ns,
       concat (intake_urls <$> newImages) = BlobUrl <$> ns
       /\ NoDup ns
       /\ (forall n, n ∈ ns ->
             next_url w <= n
             < next_url (upload_world (upload_exec schedule (handleImageUpload files w)))).
Proof.
  intros Hret.
  destruct (handleImageUpload_urls files w schedule) as (slots & [Ht Hn Hr Hc (ps & Hrev & Hps)]).
  destruct (returned_values_slots _ _ _ Ht _ Hret) as (Hurls & Hthrown & Hfirst).
  split.
  - pose proof (upload_exec_handled files w schedule) as H.
    destruct (filter (fun file => valid_file file = true) files) as [|file validFiles].
    + rewrite H in Hret |- *. simpl in *. injection Hret as <-. by rewrite app_nil_r.
    + unfold upload_state in H. rewrite Hfirst, Hret in H. by destruct H as (_ & -> & _).
  - by exists (concat (minted <$> slots)).
Qed.

Lemma accepted_intake_witness :
  exists newImages,
    returned_values (upload_wave (upload_exec scenario_A_schedule
                                    (handleImageUpload scenario_A_files (uploaded_world 2))))
    = Some newImages
    /\ images (upload_world (upload_exec scenario_A_schedule
                               (handleImageUpload scenario_A_files (uploaded_world 2))))
       = images (uploaded_world 2) ++ newImages.
Proof.
  eexists. split; [vm_compute; reflexivity|].
  eapply (accepted_intake_mints_distinct_urls scenario_A_files (uploaded_world 2)
            scenario_A_schedule).
  vm_compute. reflexivity.
Defined.

(** X15.  The object URLs of a failed intake.  Once a compression has been
    rejected, under every schedule: no Job is added, and the intake revokes
    the previews of the rejected files only.  The two object URLs minted
    for a file whose compression resolved -- before or after the failure --
    are new, distinct, held by no Job of the list, and never revoked. *)
Theorem failed_intake_leaks_the_urls_of_the_others (files : list File) (w : World)
    (schedule : list (nat * outcome)) (e : JsError) :
  first_thrown (upload_wave (upload_exec schedule (handleImageUpload files w))) = Some e ->
  images (upload_world (upload_exec schedule (handleImageUpload files w))) = images w
  /\ exists ps,
       revoked (upload_world (upload_exec schedule (handleImageUpload files w)))
       = revoked w ++ (BlobUrl <$> ps)
       /\ (forall p, p ∈ ps ->
             next_url w <= p
             < next_url (upload_world (upload_exec schedule (handleImageUpload files w))))
       /\ forall img,
            Finished (Returned img)
              ∈ upload_wave (upload_exec schedule (handleImageUpload files w)) ->
            exists p o,
              preview img = BlobUrl p /\ original img = BlobUrl o /\ p <> o
              /\ next_url w <= p
                 < next_url (upload_world (upload_exec schedule (handleImageUpload files w)))
              /\ next_url w <= o
                 < next_url (upload_world (upload_exec schedule (handleImageUpload files w)))
              /\ (p ∉ ps) /\ (o ∉ ps).
Proof.
  intros Hthrown.
  destruct (handleImageUpload_urls files w schedule) as (slots & [Ht Hn Hr Hc (ps & Hrev & Hps)]).
  split.
  - pose proof (upload_exec_handled files w schedule) as H.
    destruct (filter (fun file => valid_file file = true) files) as [|file validFiles].
    + by rewrite H in Hthrown.
    + unfold upload_state in H. rewrite Hthrown in H. by destruct H as (_ & -> & _).
  - exists ps. split; [done|]. split.
    { intros p [j Hj]%Hps%list_elem_of_lookup. apply Hr.
      eapply (elem_of_concat_lookup _ j); [by rewrite list_lookup_fmap, Hj|]. simpl. left. }
    intros img [i Hi]%list_elem_of_lookup.
    destruct (Forall3_lookup_r _ _ _ _ _ _ Ht Hi) as (file & s & Hfile & Hs & Hst).
    destruct s as [p|p o|p]; simpl in Hst;
      [by destruct Hst as (? & ? & _)| |by destruct Hst as [? ?]].
    injection Hst as ->. exists p, o.
    assert (Hmi : (minted <$> slots) !! i = Some [p; o]) by (by rewrite list_lookup_fmap, Hs).
    pose proof (NoDup_concat_elem _ _ _ Hn Hmi) as Hpo.
    apply NoDup_cons in Hpo as [Hpo _]. rewrite list_elem_of_singleton in Hpo.
    assert (Hp : p ∈ concat (minted <$> slots)).
    { eapply elem_of_concat_lookup; [exact Hmi|]. left. }
    assert (Ho : o ∈ concat (minted <$> slots)).
    { eapply elem_of_concat_lookup; [exact Hmi|]. right. left. }
    assert (Hfresh : forall q, q ∈ [p; o] -> q ∉ ps).
    { intros q Hq [j Hj]%Hps%list_elem_of_lookup.
      assert (i <> j) by (intros ->; congruence).
      eapply (NoDup_concat_lookup _ i j _ _ q Hn Hmi); [|done|done|].
      - by rewrite list_lookup_fmap, Hj.
      - simpl. left. }
    repeat split; try done; try (by apply Hr).
    + apply Hfresh. left.
    + apply Hfresh. right. left.
Qed.

Lemma failed_intake_witness :
  first_thrown (upload_wave (upload_exec second_compression_fails
                               (handleImageUpload two_files initial_world)))
  = Some compression_error
  /\ images (upload_world (upload_exec second_compression_fails
                             (handleImageUpload two_files initial_world)))
     = images initial_world.
Proof.
  split; [vm_compute; reflexivity|].
  eapply (failed_intake_leaks_the_urls_of_the_others two_files initial_world
            second_compression_fails compression_error).
  vm_compute. reflexivity.
Defined.

(** ** Steps from a state *)

Lemma steps_in_from (R : World -> World -> Prop) {A : Type} (p : prog A) :
  steps_in R p -> forall w, steps_from R p w.
Proof. induction 1; intros w; simpl; auto. Qed.

Lemma steps_from_bind (R : World -> World -> Prop) {A B : Type} (p : prog A)
    (f : A -> prog B) :
  forall w, steps_from R p w -> (forall a w', steps_from R (f a) w') ->
            steps_from R (bind p f) w.
Proof.
  induction p as [a|e|g k IH|k IH|c cb k IH]; intros w Hp Hf; simpl in *; auto.
  - destruct Hp; auto.
  - destruct Hp as [Hcb Hk]. split; [done|]. intros o w'. apply IH; auto.
Qed.

Lemma steps_from_mbind (R : World -> World -> Prop) {A B : Type} (p : prog A)
    (f : A -> prog B) (w : World) :
  steps_from R p w -> (forall a w', steps_from R (f a) w') -> steps_from R (p ≫= f) w.
Proof. apply steps_from_bind. Qed.

Lemma steps_from_try_catch (R : World -> World -> Prop) {A : Type} (p : prog A)
    (h : JsError -> prog A) :
  forall w, steps_from R p w -> (forall e w', steps_from R (h e) w') ->
            steps_from R (try_catch p h) w.
Proof.
  induction p as [a|e|g k IH|k IH|c cb k IH]; intros w Hp Hh; simpl in *; auto.
  - destruct Hp; auto.
  - destruct Hp as [Hcb Hk]. split; [done|]. intros o w'. apply IH; auto.
Qed.

Lemma steps_from_try_finally (R : World -> World -> Prop) {A : Type} (p : prog A)
    (fin : World -> World) :
  (forall w, R w (fin w)) ->
  forall w, steps_from R p w -> steps_from R (try_finally p fin) w.
Proof.
  intros Hfin. induction p as [a|e|g k IH|k IH|c cb k IH]; intros w Hp; simpl in *; auto.
  - destruct Hp; auto.
  - destruct Hp as [Hcb Hk]. split; [done|]. intros o w'. apply IH; auto.
Qed.

Section StepsFrom.
Variable R : World -> World -> Prop.
Hypothesis R_refl : forall w, R w w.
Hypothesis R_trans : forall w1 w2 w3, R w1 w2 -> R w2 w3 -> R w1 w3.
Hypothesis R_call : forall c w, R w (with_call c w).

Lemma advance_from {A : Type} (p : prog A) :
  forall w, steps_from R p w ->
            R w (advance p w).1 /\ task_steps_from R (advance p w).2.
Proof.
  induction p as [a|e|g k IH|k IH|c cb k IH]; intros w Hp; simpl in *; auto.
  destruct Hp as [Hg Hk]. destruct (IH _ Hk). eauto.
Qed.

Lemma eval_from {A : Type} (env : Env) (p : prog A) :
  forall w, steps_from R p w -> R w (eval env p w).1.
Proof.
  induction p as [a|e|g k IH|k IH|c cb k IH]; intros w Hp; simpl in *; auto.
  - destruct Hp as [Hg Hk]. eauto.
  - destruct Hp as [Hcb Hk]. eapply R_trans; [|apply IH, Hk].
    by apply reported_sound.
Qed.

Lemma spawn_from {A : Type} (ps : list (prog A)) :
  Forall (fun p => forall w, steps_from R p w) ps ->
  forall w, R w (spawn ps w).1 /\ Forall (task_steps_from R) (spawn ps w).2.
Proof.
  induction 1 as [|p ps Hp _ IH]; intros w; simpl; [by split|].
  destruct (advance_from p w (Hp w)) as [Hw Ht].
  destruct (advance p w) as [w1 t]. destruct (IH w1) as [Hw2 Hts].
  destruct (spawn ps w1) as [w2 ts]. simpl in *. split; eauto.
Qed.

Hypothesis R_item : forall images_ n img w, steps_from R (bulk_item images_ n img) w.
Hypothesis R_begin : forall w, R w (with_processed_local 0 (with_isBulkProcessing true w)).
Hypothesis R_failed : forall e w,
  R w (bulk_finally (with_toast toast_bulk_failed (with_console e w))).
Hypothesis R_complete : forall k n w,
  R w (bulk_finally (with_toast (toast_bulk_complete k n) w)).

Lemma bulk_loop_from (images_ : list ProcessedImage) (n : nat)
    (batches : list (list ProcessedImage)) :
  forall w batch_ wave_,
    Forall (task_steps_from R) wave_ ->
    R w (world (bulk_loop images_ n batches w batch_ wave_))
    /\ Forall (task_steps_from R) (wave (bulk_loop images_ n batches w batch_ wave_)).
Proof.
  induction batches as [|b batches IH]; intros w batch_ wave_ Hwave; simpl.
  - destruct (first_thrown wave_); [by split; simpl; auto|].
    destruct (forallb is_returned wave_); by split; simpl; auto.
  - destruct (first_thrown wave_); [by split; simpl; auto|].
    destruct (forallb is_returned wave_); [|by split; simpl; auto].
    destruct (spawn_from (map (bulk_item images_ n) b)) with (w := w) as [Hw Hts].
    { apply Forall_map, Forall_forall. intros; apply R_item. }
    destruct (spawn (map (bulk_item images_ n) b) w) as [w' wave'].
    destruct (IH w' b wave' Hts) as [Hw' Hts']. split; [|done].
    eapply R_trans; eauto.
Qed.

Lemma bulk_step_from (images_ : list ProcessedImage) (n : nat) (r r' : BulkRun) (i : nat)
    (ev : event) :
  bulk_step images_ n r i ev = Some r' ->
  Forall (task_steps_from R) (wave r) ->
  R (world r) (world r') /\ Forall (task_steps_from R) (wave r').
Proof.
  unfold bulk_step. intros Hstep Hwave.
  destruct (wave r !! i) as [[|c cb k]|] eqn:Hi; try done.
  pose proof (Forall_lookup_1 _ _ _ _ Hwave Hi) as [Hcb Hk].
  destruct ev as [o|p].
  - unfold settle in Hstep.
    destruct (advance_from _ (world r) (Hk (observe (world r) c o) (world r))) as [Hw Ht'].
    destruct (advance (k (observe (world r) c o)) (world r)) as [w' t'].
    assert (Hwave' : Forall (task_steps_from R) (<[i := t']> (wave r)))
      by (by apply Forall_insert).
    destruct (settled r); simplify_eq; simpl; [done|].
    destruct (bulk_loop_from images_ n (later r) w' (batch r) _ Hwave') as [Hw' Hts].
    split; [|done]. eapply R_trans; eauto.
  - destruct (is_transform c); simplify_eq; simpl. split; [|done]. apply Hcb.
Qed.

Lemma bulk_exec_from (images_ : list ProcessedImage) (n : nat) (schedule : list (nat * event)) :
  forall r,
    Forall (task_steps_from R) (wave r) ->
    R (world r) (world (bulk_exec images_ n schedule r)).
Proof.
  induction schedule as [|[i ev] schedule IH]; intros r Hwave; simpl; [apply R_refl|].
  destruct (bulk_step images_ n r i ev) as [r'|] eqn:Hstep; simpl; [|by apply IH].
  destruct (bulk_step_from _ _ _ _ _ _ Hstep Hwave) as [Hw Hwave'].
  eapply R_trans; [exact Hw|]. by apply IH.
Qed.

Lemma handleBulkProcess_from (images_ : list ProcessedImage) (b : bool) (n : nat)
    (schedule : list (nat * event)) (w : World) :
  R w (world (bulk_exec images_ n schedule (handleBulkProcess images_ b w))).
Proof.
  assert (H : R w (world (handleBulkProcess images_ b w))
              /\ Forall (task_steps_from R) (wave (handleBulkProcess images_ b w))).
  { unfold handleBulkProcess. destruct b; [by split; simpl; auto|].
    destruct (length _ =? 0); [by split; simpl; auto|].
    match goal with |- context [bulk_loop ?a ?n ?bs ?w0 ?b0 ?wv] =>
      destruct (bulk_loop_from a n bs w0 b0 wv) as [Hw Hts]; [done|] end.
    split; [|done]. eapply R_trans; [apply R_begin|exact Hw]. }
  destruct H as [Hw Hwave]. eapply R_trans; [exact Hw|]. by apply bulk_exec_from.
Qed.
End StepsFrom.

(** *** Object URLs are only ever minted *)

Lemma mints_only_refl (w : World) : mints_only w w.
Proof. unfold mints_only. lia. Qed.

Lemma mints_only_trans (w1 w2 w3 : World) :
  mints_only w1 w2 -> mints_only w2 w3 -> mints_only w1 w3.
Proof. unfold mints_only. lia. Qed.

Lemma mints_only_same (w w' : World) : next_url w' = next_url w -> mints_only w w'.
Proof. unfold mints_only. lia. Qed.

Lemma next_url_cleanup (u : option Url) (w : World) : next_url (cleanup u w) = next_url w.
Proof. unfold cleanup. destruct u as [u|]; [|done]. by destruct (startsWith_blob u). Qed.

Lemma next_url_record_completed (i : nat) (u : Url) (w : World) :
  next_url (record_completed i u w) = next_url w.
Proof.
  unfold record_completed.
  destruct (images w !! i) as [img|]; simpl; by rewrite ?next_url_cleanup.
Qed.

Lemma createObjectURL_mints (w : World) : steps_from mints_only createObjectURL w.
Proof. simpl. split; [|done]. unfold mints_only. simpl. lia. Qed.

Lemma exec_mints {f : World -> World} (w : World) :
  (forall w, next_url (f w) = next_url w) -> steps_from mints_only (exec f) w.
Proof. intros Hf. simpl. split; [|done]. by apply mints_only_same. Qed.

Lemma await_mints (c : call) (cb : Q -> World -> World) (w : World) :
  (forall q w, next_url (cb q w) = next_url w) -> steps_from mints_only (await_with c cb) w.
Proof.
  intros Hcb. simpl. split; [intros; by apply mints_only_same|]. by intros [v|e] w'.
Qed.

Lemma processImage_try_mints (imageUrl : Url) (w : World) :
  steps_from mints_only (processImage_try imageUrl) w.
Proof.
  unfold processImage_try.
  apply steps_from_mbind; [apply exec_mints, next_url_abort_current|intros _ w1].
  apply steps_from_mbind; [by apply exec_mints|intros _ w2].
  apply steps_from_mbind; [by apply await_mints|intros response w3].
  apply steps_from_mbind; [by apply await_mints|intros imageBlob w4].
  apply steps_from_mbind; [by apply await_mints|intros result_ w5].
  apply createObjectURL_mints.
Qed.

Lemma processImage_mints (imageUrl : Url) (retryCount : nat) :
  forall w, steps_from mints_only (processImage imageUrl retryCount) w.
Proof.
  funelim (processImage imageUrl retryCount); intros w; [done|].
  apply steps_from_try_catch; [apply processImage_try_mints|].
  intros e w1. destruct (is_AbortError e); [done|].
  apply steps_from_mbind; [by apply exec_mints|intros _ w2].
  destruct (retryCount <? SETTINGS.processing.maxRetries); [|done].
  apply steps_from_mbind; [by apply await_mints|intros v w3].
  match goal with IH : JsError -> _ |- _ => exact (IH e tt v w3) end.
Qed.

Lemma handleSingleProcess_mints (images_ : list ProcessedImage) (i : nat) (b : bool)
    (w : World) :
  steps_from mints_only (handleSingleProcess images_ i b) w.
Proof.
  unfold handleSingleProcess.
  destruct (images_ !! i) as [current|]; [|done].
  destruct b; [done|].
  apply steps_from_mbind; [by apply exec_mints|intros _ w1].
  apply steps_from_mbind; [by apply exec_mints|intros _ w2].
  apply steps_from_try_finally; [intros; by apply mints_only_same|].
  apply steps_from_try_catch.
  - apply steps_from_mbind; [apply processImage_mints|intros u w3].
    apply steps_from_mbind; [apply exec_mints, next_url_record_completed|intros _ w4].
    by apply exec_mints.
  - intros e w3.
    apply steps_from_mbind; [by apply exec_mints|intros _ w4].
    apply steps_from_mbind; [by apply exec_mints|intros _ w5].
    by apply exec_mints.
Qed.

Lemma bulk_item_mints (images_ : list ProcessedImage) (n : nat) (img : ProcessedImage)
    (w : World) :
  steps_from mints_only (bulk_item images_ n img) w.
Proof.
  unfold bulk_item.
  destruct (findIndex (same_original img) images_) as [index|]; [|done].
  apply steps_from_try_catch.
  - apply steps_from_mbind; [by apply exec_mints|intros _ w1].
    apply steps_from_mbind; [apply processImage_mints|intros u w2].
    apply steps_from_mbind; [apply exec_mints, next_url_record_completed|intros _ w3].
    apply steps_from_mbind; [by apply exec_mints|intros _ w4].
    by apply exec_mints.
  - intros e w1.
    apply steps_from_mbind; [by apply exec_mints|intros _ w2].
    by apply exec_mints.
Qed.

(** ** The originals of the Jobs stay distinct *)

Lemma originals_distinct_kept (w w' : World) :
  original <$> images w' = original <$> images w -> mints_only w w' ->
  originals_distinct w -> originals_distinct w'.
Proof.
  unfold originals_distinct, mints_only. intros -> Hn [Hnd Hb]. split; [done|].
  intros n Hin. apply Hb in Hin. lia.
Qed.

Lemma originals_distinct_sublist (w w' : World) :
  original <$> images w' `sublist_of` original <$> images w -> mints_only w w' ->
  originals_distinct w -> originals_distinct w'.
Proof.
  unfold originals_distinct, mints_only. intros Hsub Hn [Hnd Hb]. split.
  - by eapply sublist_NoDup.
  - intros n Hin. eapply elem_of_sublist in Hin; [|exact Hsub]. apply Hb in Hin. lia.
Qed.

Lemma handleDelete_frame (images_ : list ProcessedImage) (i : nat) (w : World) :
  images (handleDelete images_ i w) `sublist_of` images w
  /\ next_url (handleDelete images_ i w) = next_url w.
Proof.
  unfold handleDelete. destruct (images_ !! i) as [current|]; [|done].
  cbn [images next_url with_toast]. rewrite !images_cleanup, !next_url_cleanup.
  destruct (_ <=? i); simpl; (split; [apply sublist_delete|done]).
Qed.

Lemma originals_of_intake (newImages : list ProcessedImage) :
  original <$> newImages `sublist_of` concat (intake_urls <$> newImages).
Proof.
  induction newImages as [|img imgs IH]; [constructor|].
  simpl. by apply sublist_cons, sublist_skip.
Qed.

Lemma BlobUrl_inj : Inj (=) (=) BlobUrl.
Proof. by intros n m [= ->]. Qed.

(** X16.  The originals of the Jobs are pairwise distinct in every state
    the component reaches: the property, together with the fact that every
    original that is an object URL has been minted, holds in the initial
    state and is kept by an intake under every schedule of the
    compressions, by a deletion, by single processing against every
    environment and by a batch run under every schedule, whatever render
    the handlers were created in. *)
Theorem originals_stay_distinct (w : World) :
  originals_distinct w ->
  originals_distinct initial_world
  /\ (forall files schedule,
        originals_distinct (upload_world (upload_exec schedule (handleImageUpload files w))))
  /\ (forall images_ i, originals_distinct (handleDelete images_ i w))
  /\ (forall env images_ i b,
        originals_distinct (eval env (handleSingleProcess images_ i b) w).1)
  /\ (forall images_ b n schedule,
        originals_distinct
          (world (bulk_exec images_ n schedule (handleBulkProcess images_ b w)))).
Proof.
  intros Hw. split; [|split; [|split; [|split]]].
  - split; [constructor|]. intros n Hn. by apply elem_of_nil in Hn.
  - intros files schedule.
    destruct (handleImageUpload_urls files w schedule)
      as (slots & [Ht Hn Hr Hc (ps & Hrev & Hps)]).
    assert (Hmint : mints_only w (upload_world (upload_exec schedule
                                                  (handleImageUpload files w)))).
    { unfold mints_only. lia. }
    pose proof (upload_exec_handled files w schedule) as H.
    destruct (filter (fun file => valid_file file = true) files) as [|file validFiles].
    { rewrite H in Hmint |- *. by apply (originals_distinct_kept w). }
    unfold upload_state in H.
    destruct (first_thrown _) eqn:Hfirst.
    { destruct H as (_ & Himgs & _).
      apply (originals_distinct_kept w); [by rewrite Himgs|done|done]. }
    destruct (returned_values _) as [newImages|] eqn:Hret.
    2:{ destruct H as (_ & Himgs & _).
        apply (originals_distinct_kept w); [by rewrite Himgs|done|done]. }
    destruct H as (_ & Himgs & _).
    destruct (returned_values_slots _ _ _ Ht _ Hret) as (Hurls & _ & _).
    pose proof (originals_of_intake newImages) as Hsub. rewrite Hurls in Hsub.
    destruct Hw as [Hnd Hb]. unfold originals_distinct. rewrite Himgs, fmap_app. split.
    + apply NoDup_app. split; [done|]. split.
      * intros u Hu Hu'. eapply elem_of_sublist in Hu'; [|exact Hsub].
        apply list_elem_of_fmap in Hu' as (m & -> & Hm).
        apply Hb in Hu. apply Hr in Hm. lia.
      * eapply sublist_NoDup; [|exact Hsub].
        pose proof BlobUrl_inj as Hinj. by apply NoDup_fmap_2.
    + intros m [Hm|Hm]%elem_of_app.
      * apply Hb in Hm. unfold mints_only in Hmint. lia.
      * eapply elem_of_sublist in Hm; [|exact Hsub].
        apply list_elem_of_fmap in Hm as (m' & [= <-] & Hm). apply Hr in Hm. lia.
  - intros images_ i. destruct (handleDelete_frame images_ i w) as [Hsub Hn].
    apply (originals_distinct_sublist w); [|by apply mints_only_same|done].
    by apply fmap_sublist.
  - intros env images_ i b.
    set (J := fun l : list ProcessedImage => original <$> l = original <$> images w).
    apply (originals_distinct_kept w); [| |done].
    + apply (eval_sound (keeps J) (keeps_refl _) (keeps_trans _) (keeps_call _) env _ w);
        [|done].
      apply handleSingleProcess_keeps.
      * intros j u l Hl. unfold J. by rewrite fmap_map_at.
      * intros j s l _ _ Hl. unfold J. by rewrite fmap_map_at.
    + apply (eval_from mints_only mints_only_refl mints_only_trans
               (fun c w => mints_only_refl w)).
      apply handleSingleProcess_mints.
  - intros images_ b n schedule.
    set (J := fun l : list ProcessedImage => original <$> l = original <$> images w).
    assert (HJc : forall i u l, J l -> J (map_at i (set_completed u) l)).
    { intros i u l Hl. unfold J. by rewrite fmap_map_at. }
    assert (HJs : forall i s l, s <> completed -> s <> pending -> J l ->
                                J (map_at i (set_status s) l)).
    { intros i s l _ _ Hl. unfold J. by rewrite fmap_map_at. }
    apply (originals_distinct_kept w); [| |done].
    + destruct (handleBulkProcess_keeps J HJc HJs images_ b w) as [Hk Hwave].
      apply (bulk_exec_keeps J HJc HJs images_ n schedule _ Hwave). by apply Hk.
    + apply (handleBulkProcess_from mints_only mints_only_refl mints_only_trans
               (fun c w => mints_only_refl w) bulk_item_mints);
        intros; by apply mints_only_same.
Qed.

Lemma originals_stay_distinct_witness :
  originals_distinct initial_world
  /\ originals_distinct
       (upload_world (upload_exec scenario_A_schedule
                        (handleImageUpload scenario_A_files initial_world))).
Proof.
  assert (H : originals_distinct initial_world).
  { split; [apply NoDup_nil_2|]. simpl. intros n Hn. by apply elem_of_nil in Hn. }
  split; [exact H|]. apply (originals_stay_distinct initial_world H).
Defined.

(** ** Controllers *)

Lemma keeps_controllers_refl (w : World) : keeps_controllers w w.
Proof. by intros ?. Qed.

Lemma keeps_controllers_trans (w1 w2 w3 : World) :
  keeps_controllers w1 w2 -> keeps_controllers w2 w3 -> keeps_controllers w1 w3.
Proof. unfold keeps_controllers; auto. Qed.

Lemma keeps_controllers_same (w w' : World) :
  controllers w' = controllers w -> abortController w' = abortController w ->
  keeps_controllers w w'.
Proof. unfold keeps_controllers, controllers_ok. by intros -> ->. Qed.

Lemma controllers_cleanup (u : option Url) (w : World) :
  controllers (cleanup u w) = controllers w
  /\ abortController (cleanup u w) = abortController w.
Proof. destruct (cleanup_frame u w) as (_ & _ & ? & ? & _). by split. Qed.

Lemma keeps_controllers_record_completed (i : nat) (u : Url) (w : World) :
  keeps_controllers w (record_completed i u w).
Proof.
  apply keeps_controllers_same; unfold record_completed;
    destruct (images w !! i) as [img|]; simpl; try done;
    by destruct (controllers_cleanup (processed img) w).
Qed.

Lemma keeps_controllers_abort (w : World) : keeps_controllers w (abort_current w).
Proof.
  unfold keeps_controllers, controllers_ok, abort_current.
  destruct (abortController w) as [c|] eqn:Hc; [|by rewrite Hc].
  simpl. rewrite length_insert. intros [Hlen Hall]. split; [done|].
  intros i Hi. rewrite list_lookup_insert_ne by lia. by apply Hall.
Qed.

Lemma keeps_controllers_renew (w : World) :
  keeps_controllers (abort_current w) (new_controller (abort_current w)).
Proof.
  unfold keeps_controllers, controllers_ok, abort_current, new_controller.
  destruct (abortController w) as [c|] eqn:Hc; simpl.
  - rewrite length_insert. intros [Hlen Hall]. rewrite length_app, length_insert. simpl.
    split; [lia|]. intros i Hi. rewrite lookup_app_l by (rewrite length_insert; lia).
    destruct (decide (i = c)) as [->|Hne].
    + apply list_lookup_insert_eq. lia.
    + apply Hall. lia.
  - rewrite Hc. intros ->. simpl. split; [done|]. intros i Hi. lia.
Qed.

Lemma exec_keeps_controllers {A : Type} (f : World -> World) (k : unit -> prog A)
    (w : World) :
  keeps_controllers w (f w) -> steps_from keeps_controllers (k tt) (f w) ->
  steps_from keeps_controllers (exec f ≫= k) w.
Proof. intros Hf Hk. simpl. by split. Qed.

Lemma await_keeps_controllers (c : call) (cb : Q -> World -> World) (w : World) :
  (forall q w, controllers (cb q w) = controllers w
               /\ abortController (cb q w) = abortController w) ->
  steps_from keeps_controllers (await_with c cb) w.
Proof.
  intros Hcb. simpl. split; [|by intros [v|e] w'].
  intros q w'. destruct (Hcb q w'). by apply keeps_controllers_same.
Qed.

Lemma exec_keeps_controllers_same (f : World -> World) (w : World) :
  (forall w, controllers (f w) = controllers w) ->
  (forall w, abortController (f w) = abortController w) ->
  steps_from keeps_controllers (exec f) w.
Proof. intros H1 H2. simpl. split; [|done]. by apply keeps_controllers_same. Qed.

Lemma processImage_try_controllers (imageUrl : Url) (w : World) :
  steps_from keeps_controllers (processImage_try imageUrl) w.
Proof.
  unfold processImage_try.
  apply exec_keeps_controllers; [apply keeps_controllers_abort|].
  apply exec_keeps_controllers; [apply keeps_controllers_renew|].
  apply steps_from_mbind; [by apply await_keeps_controllers|intros response w3].
  apply steps_from_mbind; [by apply await_keeps_controllers|intros imageBlob w4].
  apply steps_from_mbind; [by apply await_keeps_controllers|intros result_ w5].
  simpl. split; [|done]. by apply keeps_controllers_same.
Qed.

Lemma processImage_controllers (imageUrl : Url) (retryCount : nat) :
  forall w, steps_from keeps_controllers (processImage imageUrl retryCount) w.
Proof.
  funelim (processImage imageUrl retryCount); intros w; [done|].
  apply steps_from_try_catch; [apply processImage_try_controllers|].
  intros e w1. destruct (is_AbortError e); [done|].
  apply steps_from_mbind; [by apply exec_keeps_controllers_same|intros _ w2].
  destruct (retryCount <? SETTINGS.processing.maxRetries); [|done].
  apply steps_from_mbind; [by apply await_keeps_controllers|intros v w3].
  match goal with IH : JsError -> _ |- _ => exact (IH e tt v w3) end.
Qed.

Lemma handleSingleProcess_controllers (images_ : list ProcessedImage) (i : nat) (b : bool)
    (w : World) :
  steps_from keeps_controllers (handleSingleProcess images_ i b) w.
Proof.
  unfold handleSingleProcess.
  destruct (images_ !! i) as [current|]; [|done].
  destruct b; [done|].
  apply steps_from_mbind; [by apply exec_keeps_controllers_same|intros _ w1].
  apply steps_from_mbind; [by apply exec_keeps_controllers_same|intros _ w2].
  apply steps_from_try_finally; [intros; by apply keeps_controllers_same|].
  apply steps_from_try_catch.
  - apply steps_from_mbind; [apply processImage_controllers|intros u w3].
    apply steps_from_mbind; [|intros _ w4; by apply exec_keeps_controllers_same].
    simpl. split; [apply keeps_controllers_record_completed|done].
  - intros e w3.
    apply steps_from_mbind; [by apply exec_keeps_controllers_same|intros _ w4].
    apply steps_from_mbind; [by apply exec_keeps_controllers_same|intros _ w5].
    by apply exec_keeps_controllers_same.
Qed.

Lemma bulk_item_controllers (images_ : list ProcessedImage) (n : nat) (img : ProcessedImage)
    (w : World) :
  steps_from keeps_controllers (bulk_item images_ n img) w.
Proof.
  unfold bulk_item.
  destruct (findIndex (same_original img) images_) as [index|]; [|done].
  apply steps_from_try_catch.
  - apply steps_from_mbind; [by apply exec_keeps_controllers_same|intros _ w1].
    apply steps_from_mbind; [apply processImage_controllers|intros u w2].
    apply steps_from_mbind; [|intros _ w3].
    { simpl. split; [apply keeps_controllers_record_completed|done]. }
    apply steps_from_mbind; [by apply exec_keeps_controllers_same|intros _ w4].
    by apply exec_keeps_controllers_same.
  - intros e w1.
    apply steps_from_mbind; [by apply exec_keeps_controllers_same|intros _ w2].
    by apply exec_keeps_controllers_same.
Qed.

(** X17.  At most one controller is live.  Of the [AbortController]s the
    component has created, all but the one created last have been aborted:
    this holds in the initial state and is kept by single processing
    against every environment, by a batch run under every schedule and by
    the cleanup of the unmount effect, after which none is left live. *)
Theorem at_most_one_live_controller (w : World) :
  controllers_ok w ->
  controllers_ok initial_world
  /\ (forall env images_ i b,
        controllers_ok (eval env (handleSingleProcess images_ i b) w).1)
  /\ (forall images_ b n schedule,
        controllers_ok (world (bulk_exec images_ n schedule (handleBulkProcess images_ b w))))
  /\ (forall images_,
        controllers_ok (unmount_cleanup images_ w)
        /\ Forall (fun aborted => aborted = true) (controllers (unmount_cleanup images_ w))).
Proof.
  intros Hw. split; [done|]. split; [|split].
  - intros env images_ i b.
    apply (eval_from keeps_controllers keeps_controllers_refl keeps_controllers_trans
             (fun c w => keeps_controllers_refl w) env _ w);
      [apply handleSingleProcess_controllers|done].
  - intros images_ b n schedule.
    apply (handleBulkProcess_from keeps_controllers keeps_controllers_refl
             keeps_controllers_trans (fun c w => keeps_controllers_refl w)
             bulk_item_controllers); try done;
      intros; by apply keeps_controllers_same.
  - intros images_. unfold unmount_cleanup.
    set (step := fun (w : World) (img : ProcessedImage) =>
                   cleanup (processed img)
                     (cleanup (Some (preview img)) (cleanup (Some (original img)) w))).
    assert (H : forall l w0,
               controllers (foldl step w0 l) = controllers w0
               /\ abortController (foldl step w0 l) = abortController w0).
    { induction l as [|img l IH]; intros w0; simpl; [done|].
      destruct (IH (step w0 img)) as (-> & ->). subst step. cbv beta.
      destruct (controllers_cleanup (processed img)
                  (cleanup (Some (preview img)) (cleanup (Some (original img)) w0)))
        as (-> & ->).
      destruct (controllers_cleanup (Some (preview img)) (cleanup (Some (original img)) w0))
        as (-> & ->).
      by destruct (controllers_cleanup (Some (original img)) w0) as (-> & ->). }
    destruct (H images_ w) as [Hctl Hcur].
    assert (Hok : controllers_ok (foldl step w images_)).
    { unfold controllers_ok. by rewrite Hctl, Hcur. }
    split; [by apply keeps_controllers_abort|].
    revert Hok. generalize (foldl step w images_). intros w1. clear.
    unfold controllers_ok, abort_current.
    destruct (abortController w1) as [c|]; [|by intros ->].
    intros [Hlen Hall]. simpl. apply Forall_lookup. intros i x Hi.
    destruct (decide (i = c)) as [->|Hne].
    + rewrite list_lookup_insert_eq in Hi by lia. congruence.
    + rewrite list_lookup_insert_ne in Hi by done.
      pose proof (lookup_lt_Some _ _ _ Hi). rewrite Hall in Hi by lia. congruence.
Qed.

Lemma at_most_one_live_controller_witness :
  controllers_ok initial_world
  /\ controllers_ok (eval succeeding_env (handleSingleProcess (images (uploaded_world 2)) 0 false)
                       (uploaded_world 2)).1.
Proof.
  split; [reflexivity|].
  apply (at_most_one_live_controller (uploaded_world 2)). reflexivity.
Defined.

(** ** The effect on [images] after an update *)

Lemma unmount_cleanup_revokes (images_ : list ProcessedImage) (w : World)
    (x : ProcessedImage) (u : Url) :
  x ∈ images_ -> u ∈ handles x -> u ∈ revoked (unmount_cleanup images_ w).
Proof.
  intros Hx Hu. unfold unmount_cleanup.
  assert (Habort : forall w1, revoked (abort_current w1) = revoked w1).
  { intros w1. unfold abort_current. by destruct (abortController w1). }
  rewrite Habort. revert w.
  induction images_ as [|img l IH]; intros w; [by apply elem_of_nil in Hx|].
  assert (Hmono : forall l0 w0 v, v ∈ revoked w0 ->
            v ∈ revoked (foldl (fun w img =>
                                  cleanup (processed img)
                                    (cleanup (Some (preview img))
                                       (cleanup (Some (original img)) w))) w0 l0)).
  { clear. induction l0 as [|img l0 IH]; intros w0 v Hv; simpl; [done|].
    apply IH. rewrite !revoked_cleanup, !elem_of_app. tauto. }
  simpl. apply elem_of_cons in Hx as [->|Hx]; [|by apply IH].
  apply Hmono. rewrite !revoked_cleanup, <- !app_assoc. apply elem_of_app. right. exact Hu.
Qed.

(** X19.  An update of the list revokes object URLs that stay in use.  The
    effect of the component depends on [images], so after the commit of an
    update of the list React runs its cleanup, closed over the list before
    the update.  Once that cleanup has run after [handleSingleProcess] on an
    existing Job (whether it succeeds or fails), the original and the
    preview of every Job of the new list have been revoked if they are
    object URLs, although the Jobs still refer to them; after a Delete the
    same holds of all handles of the Jobs that remain, and after an intake
    that has added Jobs, of all handles of the Jobs that were there
    before. *)
Theorem update_revokes_handles_in_use (w : World) :
  (forall env i img x u,
     images w !! i = Some img ->
     x ∈ images (eval env (handleSingleProcess (images w) i false) w).1 ->
     u ∈ released (Some (original x)) ++ released (Some (preview x)) ->
     x ∈ images (unmount_cleanup (images w)
                   (eval env (handleSingleProcess (images w) i false) w).1)
     /\ u ∈ revoked (unmount_cleanup (images w)
                       (eval env (handleSingleProcess (images w) i false) w).1))
  /\ (forall img x u,
        currentImage w = Some img ->
        x ∈ images (click_delete w) -> u ∈ handles x ->
        x ∈ images (unmount_cleanup (images w) (click_delete w))
        /\ u ∈ revoked (unmount_cleanup (images w) (click_delete w)))
  /\ (forall files schedule newImages x u,
        returned_values (upload_wave (upload_exec schedule (handleImageUpload files w)))
        = Some newImages ->
        newImages <> [] ->
        x ∈ images w -> u ∈ handles x ->
        x ∈ images (unmount_cleanup (images w)
                      (upload_world (upload_exec schedule (handleImageUpload files w))))
        /\ u ∈ revoked (unmount_cleanup (images w)
                          (upload_world (upload_exec schedule (handleImageUpload files w))))).
Proof.
  assert (Himages : forall images_ w1, images (unmount_cleanup images_ w1) = images w1).
  { intros images_ w1. unfold unmount_cleanup.
    assert (Hab : forall w2, images (abort_current w2) = images w2).
    { intros w2. unfold abort_current. by destruct (abortController w2). }
    rewrite Hab. revert w1. induction images_ as [|img l IH]; intros w1; simpl; [done|].
    by rewrite IH, !images_cleanup. }
  split; [|split].
  - intros env i img x u Himg Hx Hu. rewrite Himages. split; [done|].
    set (J := fun l : list ProcessedImage => identity <$> l = identity <$> images w).
    assert (HJ : identity <$> images (eval env (handleSingleProcess (images w) i false) w).1
                 = identity <$> images w).
    { apply (eval_sound (keeps J) (keeps_refl _) (keeps_trans _) (keeps_call _) env _ w);
        [|done].
      apply handleSingleProcess_keeps.
      - intros j v l Hl. unfold J. by rewrite fmap_map_at.
      - intros j s l _ _ Hl. unfold J. by rewrite fmap_map_at. }
    assert (Hid : identity x ∈ identity <$> images w).
    { rewrite <- HJ. by apply list_elem_of_fmap_2. }
    apply list_elem_of_fmap in Hid as (x0 & Hid & Hx0).
    injection Hid as Ho Hp _ _.
    apply (unmount_cleanup_revokes _ _ x0); [done|].
    unfold handles. rewrite <- Ho, <- Hp, app_assoc. apply elem_of_app. by left.
  - intros img x u Hcur Hx Hu. rewrite Himages. split; [done|].
    apply (unmount_cleanup_revokes _ _ x); [|done].
    destruct (handleDelete_frame (images w) (currentImageIndex w) w) as [Hsub _].
    by eapply elem_of_sublist.
  - intros files schedule newImages x u Hret Hne Hx Hu. rewrite Himages. split.
    + pose proof (upload_exec_handled files w schedule) as H.
      destruct (filter (fun file => valid_file file = true) files) as [|file validFiles].
      { rewrite H in Hret. simpl in Hret. by injection Hret as <-. }
      unfold upload_state in H. rewrite Hret in H.
      destruct (first_thrown _); destruct H as (_ & -> & _); [done|].
      apply elem_of_app. by left.
    + by apply (unmount_cleanup_revokes _ _ x).
Qed.

Lemma update_revokes_witness :
  uploaded_image 1
    ∈ images (unmount_cleanup (images (uploaded_world 2))
                (eval succeeding_env
                   (handleSingleProcess (images (uploaded_world 2)) 0 false)
                   (uploaded_world 2)).1)
  /\ original (uploaded_image 1)
       ∈ revoked (unmount_cleanup (images (uploaded_world 2))
                    (eval succeeding_env
                       (handleSingleProcess (images (uploaded_world 2)) 0 false)
                       (uploaded_world 2)).1).
Proof.
  apply (proj1 (update_revokes_handles_in_use (uploaded_world 2)) succeeding_env 0
           (uploaded_image 0) (uploaded_image 1) (original (uploaded_image 1))).
  - reflexivity.
  - apply (list_elem_of_lookup_2 _ 1). vm_compute. reflexivity.
  - apply (list_elem_of_lookup_2 _ 0). vm_compute. reflexivity.
Defined.
